(** * Adaptive radix tree: a shallow embedding of [include/art/art.hpp]

    The tree operations [get], [set] and [del] of [art<T>] are embedded
    below as they are written: [set] and [del] walk the tree with a slot
    pointer ([node<T> **cur]) and write through it, [get] walks it with a
    node pointer.  The tree owns its nodes and no node is referenced from
    two slots, so a pointer value is modelled by what it points to, and a
    slot pointer by the path of partial keys that leads from [&root_] to the
    slot.  A pointer to a node that has been [delete]d is kept apart from a
    null pointer: every access through it is undefined behaviour, which the
    embedding reports as a fault.  The destructor is embedded in the same
    way. *)

From Stdlib Require Import Strings.String.
From Stdlib Require Import Bool Arith ZArith Lia List Sorted Permutation.
From Stdlib Require Import Strings.Byte.
Import ListNotations.

(* ================================================================== *)
(** * Bytes and keys *)
(* ================================================================== *)

Module Bytes.

(** [uint8_t] order. *)
Definition ltb (a b : byte) : bool := Byte.to_nat a <? Byte.to_nat b.
Definition leb (a b : byte) : bool := Byte.to_nat a <=? Byte.to_nat b.

(** [k + 1] passed to a [uint8_t] parameter: the sum is computed in [int]
    and converted back, so 255 + 1 wraps to 0. *)
Definition succ (k : byte) : byte :=
  match Byte.of_nat ((Byte.to_nat k + 1) mod 256) with
  | Some b => b
  | None => x00
  end.

(** The bytes of a [std::string] key ([key.c_str()], [key.length()]). *)
Definition of_string (s : string) : list byte := list_byte_of_string s.

(** Lexicographic order on byte strings ([std::string::operator<]). *)
Fixpoint lex_ltb (a b : list byte) : bool :=
  match a, b with
  | [], [] => false
  | [], _ :: _ => true
  | _ :: _, [] => false
  | x :: a', y :: b' =>
      if ltb x y then true
      else if Byte.eqb x y then lex_ltb a' b'
      else false
  end.

Definition lex_leb (a b : list byte) : bool := negb (lex_ltb b a).

(** How the prefix of a node and the rest of a key relate: they are equal,
    the key ends inside the prefix, they part at some byte, or the key goes
    on after the prefix. *)
Inductive prefix_case (p rest : list byte) : Prop :=
| pc_exact : p = rest -> prefix_case p rest
| pc_shorter b p' : p = rest ++ b :: p' -> prefix_case p rest
| pc_diverge c a p' b k' :
    p = c ++ a :: p' -> rest = c ++ b :: k' -> a <> b ->
    prefix_case p rest
| pc_continue b k' : rest = p ++ b :: k' -> prefix_case p rest.

End Bytes.

(* ================================================================== *)
(** * Faults *)
(* ================================================================== *)

(** What an operation can do other than return: the undefined behaviours
    of the C++ abstract machine that the code can run into, the violation
    of a node precondition, and the exhaustion of the loop budget of the
    embedding. *)
Inductive fault : Type :=
| NullDeref        (* access through a null pointer *)
| UseAfterFree     (* access through a pointer to a deleted node *)
| OutOfBounds      (* array access past the end *)
| Indeterminate    (* use of a value that was never written *)
| Precondition     (* a node operation called outside its contract *)
| OutOfFuel.       (* loop budget of the embedding exhausted *)

Inductive result (A : Type) : Type :=
| Ok (a : A)
| Fault (f : fault).

Arguments Ok {A} a.
Arguments Fault {A} f.

Definition and_then {A B : Type} (x : result A) (f : A -> result B)
  : result B :=
  match x with
  | Ok a => f a
  | Fault e => Fault e
  end.

(** [a[i]] with the bound made explicit. *)
Definition index {A : Type} (a : list A) (i : nat) : result A :=
  match nth_error a i with
  | Some x => Ok x
  | None => Fault OutOfBounds
  end.

(* ================================================================== *)
(** * Byte buffers *)
(* ================================================================== *)

(** [new uint8_t[n]] yields [n] cells of indeterminate content; [del]
    fills such buffers with [memcpy] and indexed stores when it merges
    prefixes, and the order and the offsets of those writes matter. *)
Module Buffer.

Definition buffer : Type := list (option byte).

Definition alloc (n : nat) : buffer := repeat None n.

(** [dst[i] = b]. *)
Fixpoint poke (dst : buffer) (i : nat) (b : byte) : result buffer :=
  match dst, i with
  | [], _ => Fault OutOfBounds
  | _ :: dst', 0 => Ok (Some b :: dst')
  | c :: dst', S i' =>
      match poke dst' i' b with
      | Ok r => Ok (c :: r)
      | Fault f => Fault f
      end
  end.

(** [memcpy(dst + off, src, n)]. *)
Fixpoint memcpy (dst : buffer) (off : nat) (src : list byte) (n : nat)
  : result buffer :=
  match n with
  | 0 => Ok dst
  | S n' =>
      match src with
      | [] => Fault OutOfBounds
      | b :: src' =>
          match poke dst off b with
          | Ok dst' => memcpy dst' (S off) src' n'
          | Fault f => Fault f
          end
      end
  end.

(** The bytes of a buffer once it serves as a node prefix.  A cell that
    was never written has no value to compare a key byte with: the
    buffer is reported as [Indeterminate] where it is installed. *)
Fixpoint freeze (b : buffer) : result (list byte) :=
  match b with
  | [] => Ok []
  | None :: _ => Fault Indeterminate
  | Some x :: b' =>
      match freeze b' with
      | Ok r => Ok (x :: r)
      | Fault f => Fault f
      end
  end.

End Buffer.

(* ================================================================== *)
(** * Nodes *)
(* ================================================================== *)

Module Node.

(** [node.hpp], [node_0.hpp], [node_4.hpp] and the headers of the larger
    node classes are not part of the sources at hand: the node type and
    the node operations that [art.hpp] calls are modelled from sections 3
    and 4.1 of the specification.  The five storage layouts all realise
    one ordered, duplicate-free map from partial keys to child pointers,
    kept here as an association list in ascending key order together with
    the class tag that fixes its capacity. *)

(** Modelled from the spec: the size classes of a node (section 3), whose
    declarations are missing. *)
Inductive node_class : Type := N0 | N4 | N16 | N48 | N256.

(** Modelled from the spec: the number of children a class holds
    (section 4.1). *)
Definition capacity (c : node_class) : nat :=
  match c with
  | N0 => 0
  | N4 => 4
  | N16 => 16
  | N48 => 48
  | N256 => 256
  end.

(** Modelled from the spec: the fields of [node<T>] ([node.hpp] is
    missing): compressed prefix, value slot, size class and child map
    (section 3).  [art.hpp] reads and writes [prefix_], [prefix_len_] and
    [value_]. *)
Record node_of (T P : Type) : Type := mk_node {
  prefix_ : list byte;            (* uint8_t *prefix_, prefix_len_ bytes *)
  value_ : option T;              (* T *value_, None is nullptr *)
  class_ : node_class;
  children_ : list (byte * P)
}.

Arguments mk_node {T P} prefix_ value_ class_ children_.
Arguments prefix_ {T P} n.
Arguments value_ {T P} n.
Arguments class_ {T P} n.
Arguments children_ {T P} n.

(** A [node<T> *]: null, the stale address of a node that has been
    deleted, or the address of a live node, given by the node itself. *)
#[warnings="-register-all"]
Inductive ptr (T : Type) : Type :=
| nullptr
| dangling
| live (n : node_of T (ptr T)).

Arguments nullptr {T}.
Arguments dangling {T}.
Arguments live {T} n.

Definition node (T : Type) : Type := node_of T (ptr T).

Section Contract.
Context {T : Type}.
Implicit Types (n : node T) (p : ptr T) (k : byte).

Definition prefix_len_ n : nat := List.length (prefix_ n).

Definition with_prefix n (p : list byte) : node T :=
  mk_node p (value_ n) (class_ n) (children_ n).
Definition with_value n (v : option T) : node T :=
  mk_node (prefix_ n) v (class_ n) (children_ n).
Definition with_class n (c : node_class) : node T :=
  mk_node (prefix_ n) (value_ n) c (children_ n).
Definition with_children n (ch : list (byte * ptr T)) : node T :=
  mk_node (prefix_ n) (value_ n) (class_ n) ch.

(** Modelled from the spec: [new node_0<T>()] and [new node_4<T>()],
    whose constructors are missing: no prefix, no value, no children. *)
Definition node_0 : node T := mk_node [] None N0 [].
Definition node_4 : node T := mk_node [] None N4 [].

(** Length of the longest common prefix of two byte strings. *)
Fixpoint mismatch (p key : list byte) : nat :=
  match p, key with
  | a :: p', b :: key' =>
      if Byte.eqb a b then S (mismatch p' key') else 0
  | _, _ => 0
  end.

(** Modelled from the spec: [check_prefix(key, key_len)] of the missing
    [node.hpp]: the number of leading bytes on which the prefix and the
    key agree, at most [min(prefix_len_, key_len)] (section 4.2, step 2). *)
Definition check_prefix n (key : list byte) : nat :=
  mismatch (prefix_ n) key.

Fixpoint assoc (ch : list (byte * ptr T)) k : option (ptr T) :=
  match ch with
  | [] => None
  | (k', c) :: ch' => if Byte.eqb k' k then Some c else assoc ch' k
  end.

(** Modelled from the spec: [find_child(k)] of the missing node classes:
    the child slot under [k] ([None] is the null slot pointer); the slot
    is given by its content. *)
Definition find_child n k : option (ptr T) := assoc (children_ n) k.

Fixpoint insert (ch : list (byte * ptr T)) k (c : ptr T)
  : list (byte * ptr T) :=
  match ch with
  | [] => [(k, c)]
  | (k', c') :: ch' =>
      if Bytes.ltb k k' then (k, c) :: (k', c') :: ch'
      else (k', c') :: insert ch' k c
  end.

(** Modelled from the spec: [set_child(k, c)] of the missing node
    classes.  Contract: the node is not full and has no child under
    [k]. *)
Definition set_child n k (c : ptr T) : node T :=
  with_children n (insert (children_ n) k c).

Fixpoint remove (ch : list (byte * ptr T)) k : list (byte * ptr T) :=
  match ch with
  | [] => []
  | (k', c) :: ch' =>
      if Byte.eqb k' k then ch' else (k', c) :: remove ch' k
  end.

(** Modelled from the spec: [del_child(k)] of the missing node classes. *)
Definition del_child n k : node T :=
  with_children n (remove (children_ n) k).

(** Writing through a child slot: [*slot = c]. *)
Fixpoint replace (ch : list (byte * ptr T)) k (c : ptr T)
  : list (byte * ptr T) :=
  match ch with
  | [] => []
  | (k', c') :: ch' =>
      if Byte.eqb k' k then (k', c) :: ch' else (k', c') :: replace ch' k c
  end.

Definition put_child n k (c : ptr T) : node T :=
  with_children n (replace (children_ n) k c).

(** Modelled from the spec: [n_children()] of the missing node classes. *)
Definition n_children n : nat := List.length (children_ n).

(** The first partial key of an ascending child map at or above
    [floor]. *)
Fixpoint first_from (ch : list (byte * ptr T)) (floor : byte)
  : option byte :=
  match ch with
  | [] => None
  | (k, _) :: ch' =>
      if Bytes.leb floor k then Some k else first_from ch' floor
  end.

(** Modelled from the spec: [next_partial_key(floor)] of the missing node
    classes: the smallest partial key present that is at least [floor];
    there must be one. *)
Definition next_partial_key n (floor : byte) : result byte :=
  match first_from (children_ n) floor with
  | Some k => Ok k
  | None => Fault Precondition
  end.

(** Modelled from the spec: [is_full()] of the missing node classes: no
    room for one more child; a node of class N0 is full from the start. *)
Definition is_full n : bool := capacity (class_ n) <=? n_children n.

(** Modelled from the spec: [is_underfull()] of the missing node classes:
    N4 below two children, the larger classes at the capacity of the class
    below. *)
Definition is_underfull n : bool :=
  match class_ n with
  | N0 => false
  | N4 => n_children n <? 2
  | N16 => n_children n =? 4
  | N48 => n_children n =? 16
  | N256 => n_children n =? 48
  end.

(** Modelled from the spec: [grow()] of the missing node classes: the
    node in the next class, with the same prefix, value and children; a
    node of class N256 never grows. *)
Definition grow n : result (node T) :=
  match class_ n with
  | N0 => Ok (with_class n N4)
  | N4 => Ok (with_class n N16)
  | N16 => Ok (with_class n N48)
  | N48 => Ok (with_class n N256)
  | N256 => Fault Precondition
  end.

(** Modelled from the spec: [shrink()] of the missing node classes: the
    node in the class below, with the same prefix, value and children;
    not for a node of class N0, for one of class N4 with two children or
    more, nor for a larger one whose children do not fit the class
    below. *)
Definition shrink n : result (node T) :=
  let fits c :=
    if n_children n <=? capacity c then Ok (with_class n c)
    else Fault Precondition in
  match class_ n with
  | N0 => Fault Precondition
  | N4 => if n_children n <? 2 then Ok (with_class n N0)
          else Fault Precondition
  | N16 => fits N4
  | N48 => fits N16
  | N256 => fits N48
  end.

(** [*p] for a node pointer. *)
Definition deref p : result (node T) :=
  match p with
  | nullptr => Fault NullDeref
  | dangling => Fault UseAfterFree
  | live n => Ok n
  end.

Definition is_null p : bool :=
  match p with
  | nullptr => true
  | _ => false
  end.

(** Induction on a tree, with the property at hand for every child. *)
Fixpoint ptr_nested_ind (P : ptr T -> Prop)
         (Hnull : P nullptr) (Hdangling : P dangling)
         (Hlive : forall n,
             Forall (fun kc => P (snd kc)) (children_ n) -> P (live n))
         (p : ptr T) : P p :=
  match p with
  | nullptr => Hnull
  | dangling => Hdangling
  | live n =>
      Hlive n
        ((fix all (ch : list (byte * ptr T))
            : Forall (fun kc => P (snd kc)) ch :=
            match ch with
            | [] => Forall_nil _
            | kc :: ch' =>
                Forall_cons kc
                  (ptr_nested_ind P Hnull Hdangling Hlive (snd kc))
                  (all ch')
            end) (children_ n))
  end.

End Contract.

End Node.

(* ================================================================== *)
(** * The tree *)
(* ================================================================== *)

Module Art.
Import Node.

Section Tree.
Context {T : Type}.

(** An [art<T>] object has one field, [node<T> *root_]. *)
Definition art : Type := ptr T.

(** The tree after construction: [root_ = nullptr]. *)
Definition empty : art := nullptr.

(** ** Operations as state transformers that may fault *)

Definition M (A : Type) : Type := art -> result (A * art).

Definition ret {A} (a : A) : M A := fun r => Ok (a, r).

Definition bind {A B} (m : M A) (f : A -> M B) : M B :=
  fun r =>
    match m r with
    | Ok (a, r') => f a r'
    | Fault e => Fault e
    end.

Definition fail {A} (e : fault) : M A := fun _ => Fault e.

Definition lift {A} (x : result A) : M A :=
  fun r =>
    match x with
    | Ok a => Ok (a, r)
    | Fault e => Fault e
    end.

Notation "x <- m ;; k" := (bind m (fun x => k))
  (at level 61, m at next level, right associativity).
Notation "m ;;; k" := (bind m (fun _ => k))
  (at level 61, right associativity).

(** ** Slot pointers

    A [node<T> **] is [&root_] or the address of a child slot of a
    live node: the partial keys of the child slots passed on the way
    down from [&root_]. *)
Definition slot : Type := list byte.

Definition root_slot : slot := [].

(** [*s], read. *)
Fixpoint slot_load (s : slot) (p : ptr T) : result (ptr T) :=
  match s with
  | [] => Ok p
  | k :: s' =>
      match deref p with
      | Ok n =>
          match find_child n k with
          | Some c => slot_load s' c
          | None => Fault OutOfBounds
          end
      | Fault e => Fault e
      end
  end.

(** [*s = x]. *)
Fixpoint slot_store (s : slot) (x : ptr T) (p : ptr T)
  : result (ptr T) :=
  match s with
  | [] => Ok x
  | k :: s' =>
      match deref p with
      | Ok n =>
          match find_child n k with
          | Some c =>
              match slot_store s' x c with
              | Ok c' => Ok (live (put_child n k c'))
              | Fault e => Fault e
              end
          | None => Fault OutOfBounds
          end
      | Fault e => Fault e
      end
  end.

Definition load (s : slot) : M (ptr T) :=
  fun r => match slot_load s r with
           | Ok p => Ok (p, r)
           | Fault e => Fault e
           end.

Definition store (s : slot) (x : ptr T) : M unit :=
  fun r => match slot_store s x r with
           | Ok r' => Ok (tt, r')
           | Fault e => Fault e
           end.

(** The node behind a slot, a double dereference of [s]. *)
Definition node_at (s : slot) : M (node T) :=
  p <- load s ;; lift (deref p).

(** A field of the node behind [s] assigned: that node becomes [n]. *)
Definition put_node (s : slot) (n : node T) : M unit :=
  store s (live n).

(** [find_child(k)] on the node behind [s]: the child slot, or a null
    slot pointer. *)
Definition child_slot (s : slot) (k : byte) : M (option slot) :=
  n <- node_at s ;;
  ret (match find_child n k with
       | Some _ => Some (s ++ [k])
       | None => None
       end).

(** The prefix of the node behind [s] and the node itself are
    [delete]d: the node is gone and the slot keeps its address. *)
Definition delete_at (s : slot) : M unit :=
  _ <- node_at s ;; store s dangling.

(** An operation run on the subtree behind a slot: what it does to
    the whole tree. *)
Definition within {A} (s : slot) (m : M A) : M A :=
  fun r =>
    match slot_load s r with
    | Ok sub =>
        match m sub with
        | Ok (a, sub') =>
            match slot_store s sub' r with
            | Ok r' => Ok (a, r')
            | Fault e => Fault e
            end
        | Fault e => Fault e
        end
    | Fault e => Fault e
    end.

(** [local s m m']: on every tree in which the slot [s] can be read, [m]
    does to the whole tree what [m'] does to the subtree behind [s]. *)
Definition local {A} (s : slot) (m m' : M A) : Prop :=
  forall r sub, slot_load s r = Ok sub -> m r = within s m' r.

(** ** [get] (lines 109-128) *)

Fixpoint get_loop (fuel : nat) (key : list byte) (cur : ptr T)
         (depth : nat) : result (option T) :=
  if is_null cur then Ok None
  else
    match fuel with
    | 0 => Fault OutOfFuel
    | S fuel' =>
        match deref cur with
        | Fault e => Fault e
        | Ok n =>
            if negb (prefix_len_ n
                     =? check_prefix n (skipn depth key))
            then Ok None                          (* prefix mismatch *)
            else if prefix_len_ n =? List.length key - depth
            then Ok (value_ n)                    (* exact match *)
            else
              let depth := depth + prefix_len_ n in
              match index key depth with
              | Fault e => Fault e
              | Ok k =>
                  let cur := match find_child n k with
                             | Some c => c
                             | None => nullptr
                             end in
                  get_loop fuel' key cur (depth + 1)
              end
        end
    end.

(** The loop runs at most once per key byte and once more. *)
Definition budget (key : list byte) : nat := S (List.length key).

Definition get (key : list byte) : M (option T) :=
  root <- load root_slot ;;
  lift (get_loop (budget key) key root 0).

(** ** [set] (lines 134-290) *)

(** [new node_0<T>()] with a copy of the key bytes [rest] as its prefix
    and [value] in its value slot. *)
Definition new_leaf (rest : list byte) (value : option T) : node T :=
  with_value (with_prefix node_0 rest) value.

Fixpoint set_loop (fuel : nat) (key : list byte) (value : option T)
         (cur : slot) (depth : nat) : M (option T) :=
  match fuel with
  | 0 => fail OutOfFuel
  | S fuel' =>
      n <- node_at cur ;;
      let rest := List.length key - depth in
      let prefix_match_len := check_prefix n (skipn depth key) in
      let is_prefix_match :=
        Nat.min (prefix_len_ n) rest =? prefix_match_len in
      if is_prefix_match && (prefix_len_ n =? rest) then
        (* exact match: replace *)
        let old_value := value_ n in
        put_node cur (with_value n value) ;;;
        ret old_value
      else if is_prefix_match && (rest <? prefix_len_ n) then
        (* the key is a prefix of the node's key: expand.  The child
           slot of the new node and [*cur] hold the same address, so
           the prefix shift made through [cur] shows in the child. *)
        k <- lift (index (prefix_ n) prefix_match_len) ;;
        let shifted :=
          with_prefix n (skipn (prefix_match_len + 1) (prefix_ n)) in
        let new_node :=
          set_child
            (with_prefix (with_value node_4 value)
                         (firstn prefix_match_len (prefix_ n)))
            k (live shifted) in
        store cur (live new_node) ;;;
        ret None
      else if negb is_prefix_match then
        (* prefix mismatch: new parent over the node and a new leaf *)
        k <- lift (index (prefix_ n) prefix_match_len) ;;
        let shifted :=
          with_prefix n (skipn (prefix_match_len + 1) (prefix_ n)) in
        let new_parent :=
          set_child
            (with_prefix node_4 (firstn prefix_match_len (prefix_ n)))
            k (live shifted) in
        let new_node :=
          new_leaf (skipn (depth + prefix_match_len + 1) key) value in
        k' <- lift (index key (depth + prefix_match_len)) ;;
        let new_parent := set_child new_parent k' (live new_node) in
        store cur (live new_parent) ;;;
        ret None
      else
        child_partial_key <- lift (index key (depth + prefix_len_ n)) ;;
        child <- child_slot cur child_partial_key ;;
        match child with
        | None =>
            (* no child under the next byte: new leaf *)
            (if is_full n
             then g <- lift (grow n) ;; put_node cur g
             else ret tt) ;;;
            n' <- node_at cur ;;
            let new_node :=
              new_leaf (skipn (depth + prefix_len_ n' + 1) key) value in
            put_node cur (set_child n' child_partial_key (live new_node)) ;;;
            ret None
        | Some child =>
            (* propagate down and repeat *)
            set_loop fuel' key value child (depth + (prefix_len_ n + 1))
        end
  end.

Definition set (key : list byte) (value : option T) : M (option T) :=
  root <- load root_slot ;;
  if is_null root then
    store root_slot (live (new_leaf key value)) ;;;
    ret None
  else
    set_loop (budget key) key value root_slot 0.

(** ** [del] (lines 296-455) *)

(** The prefix given to the sibling when its parent is collapsed
    (lines 369-375): a fresh buffer, the parent's prefix copied to its
    start, the sibling's partial key stored at index
    [prefix_len_ + 1], the sibling's old prefix copied from offset
    [prefix_len_ + 1] on. *)
Definition sibling_prefix (par_prefix : list byte)
           (sibling_partial_key : byte) (old_prefix : list byte)
  : result (list byte) :=
  let par_len := List.length par_prefix in
  let old_prefix_len := List.length old_prefix in
  let b0 := Buffer.alloc (par_len + 1 + old_prefix_len) in
  and_then (Buffer.memcpy b0 0 par_prefix par_len) (fun b1 =>
  and_then (Buffer.poke b1 (par_len + 1) sibling_partial_key) (fun b2 =>
  and_then (Buffer.memcpy b2 (par_len + 1) old_prefix old_prefix_len)
           Buffer.freeze)).

(** The prefix given to the only child of a node that is merged into
    it (lines 428-433): the node's prefix, the child's partial key at
    offset [prefix_len_], the child's old prefix from offset
    [prefix_len_ + 1] on. *)
Definition child_prefix (cur_prefix : list byte)
           (child_partial_key : byte) (old_prefix : list byte)
  : result (list byte) :=
  let cur_len := List.length cur_prefix in
  let old_prefix_len := List.length old_prefix in
  let b0 := Buffer.alloc (cur_len + 1 + old_prefix_len) in
  and_then (Buffer.memcpy b0 0 cur_prefix cur_len) (fun b1 =>
  and_then (Buffer.memcpy b1 cur_len [child_partial_key] 1) (fun b2 =>
  and_then (Buffer.memcpy b2 (cur_len + 1) old_prefix old_prefix_len)
           Buffer.freeze)).

(** A slot pointer that must not be null where it is dereferenced. *)
Definition through (s : option slot) : M slot :=
  match s with
  | Some s => ret s
  | None => fail NullDeref
  end.

(** [cur_partial_key] is declared without an initialiser. *)
Definition read_key (k : option byte) : M byte :=
  match k with
  | Some k => ret k
  | None => fail Indeterminate
  end.

(** The child pointer in the slot [find_child(k)] returns. *)
Definition child_of (n : node T) (k : byte) : M (ptr T) :=
  match find_child n k with
  | Some c => ret c
  | None => fail NullDeref
  end.

Definition no_value (n : node T) : bool :=
  match value_ n with
  | None => true
  | Some _ => false
  end.

(** The exact-match branch (lines 318-447).  [par] and
    [cur_partial_key] are the variables of [del] as the loop left
    them. *)
Definition del_here (par : option slot) (cur : slot)
           (cur_partial_key : option byte) (n : node T)
  : M (option T) :=
  let value := value_ n in
  put_node cur (with_value n None) ;;;
  let n_children := n_children n in
  n_siblings <- match par with
                | Some p =>
                    pn <- node_at p ;;
                    ret (Z.of_nat (Node.n_children pn) - 1)%Z
                | None => ret 0%Z
                end ;;
  collapse <- (if (n_children =? 0) && (n_siblings =? 1)%Z
               then p <- through par ;;
                    pn <- node_at p ;; ret (no_value pn)
               else ret false) ;;
  (if (n_children =? 0) && (n_siblings =? 0)%Z then
     (* delete leaf node *)
     match par with
     | Some p =>
         k <- read_key cur_partial_key ;;
         pn <- node_at p ;;
         put_node p (del_child pn k)
     | None => ret tt
     end ;;;
     delete_at cur
   else if collapse then
     (* delete leaf node, replace parent with sibling *)
     p <- through par ;;
     pn <- node_at p ;;
     k <- read_key cur_partial_key ;;
     first <- lift (next_partial_key pn x00) ;;
     sibling_partial_key <-
       (if Byte.eqb first k
        then lift (next_partial_key pn (Bytes.succ k))
        else ret first) ;;
     sibling <- child_of pn sibling_partial_key ;;
     sn <- lift (deref sibling) ;;
     new_prefix <- lift (sibling_prefix (prefix_ pn) sibling_partial_key
                                        (prefix_ sn)) ;;
     delete_at cur ;;;
     store cur nullptr ;;;
     delete_at p ;;;
     store p (live (with_prefix sn new_prefix))
   else if (n_children =? 0) && (1 <? n_siblings)%Z then
     (* delete leaf node *)
     delete_at cur ;;;
     store cur nullptr ;;;
     p <- through par ;;
     k <- read_key cur_partial_key ;;
     pn <- node_at p ;;
     put_node p (del_child pn k)
   else if n_children =? 1 then
     (* node with 1 child: replace node with child *)
     n1 <- node_at cur ;;
     child_partial_key <- lift (next_partial_key n1 x00) ;;
     child <- child_of n1 child_partial_key ;;
     cn <- lift (deref child) ;;
     new_prefix <- lift (child_prefix (prefix_ n1) child_partial_key
                                      (prefix_ cn)) ;;
     delete_at cur ;;;
     store cur (live (with_prefix cn new_prefix))
   else ret tt) ;;;
  match par with
  | Some p =>
      pn <- node_at p ;;
      if is_underfull pn
      then s <- lift (shrink pn) ;; put_node p s
      else ret tt
  | None => ret tt
  end ;;;
  ret value.

(** The loop of [del].  Its last statements (lines 450-452) assign
    [cur_partial_key], [depth] and [cur]; nothing assigns [par], which
    keeps the value it is given. *)
Fixpoint del_loop (fuel : nat) (key : list byte) (par : option slot)
         (cur : option slot) (cur_partial_key : option byte)
         (depth : nat) : M (option T) :=
  match cur with
  | None => ret None
  | Some cur =>
      match fuel with
      | 0 => fail OutOfFuel
      | S fuel' =>
          n <- node_at cur ;;
          if negb (prefix_len_ n =? check_prefix n (skipn depth key))
          then ret None          (* prefix mismatch: no such key *)
          else if List.length key =? depth + prefix_len_ n
          then del_here par cur cur_partial_key n
          else
            (* propagate down and repeat *)
            k <- lift (index key (depth + prefix_len_ n)) ;;
            child <- child_slot cur k ;;
            del_loop fuel' key par child (Some k)
                     (depth + (prefix_len_ n + 1))
      end
  end.

Definition del (key : list byte) : M (option T) :=
  root <- load root_slot ;;
  if is_null root then ret None
  else del_loop (budget key) key None (Some root_slot) None 0.

End Tree.

Arguments art T : clear implicits.
Arguments M T A : clear implicits.
Arguments empty {T}.

End Art.

(* ================================================================== *)
(** * What a tree holds *)
(* ================================================================== *)

Module Tree.
Import Node Art.

Section Shape.
Context {T : Type}.

(** Partial keys in strictly ascending order. *)
Fixpoint ascending (ch : list (byte * ptr T)) : bool :=
  match ch with
  | [] => true
  | (k, _) :: ch' =>
      match ch' with
      | [] => true
      | (k', _) :: _ => Bytes.ltb k k' && ascending ch'
      end
  end.

(** A well-formed subtree: every child slot holds a live node and
    every child map is in strictly ascending key order. *)
Fixpoint wf (p : ptr T) : bool :=
  match p with
  | live n =>
      ascending (children_ n)
      && forallb (fun kc => wf (snd kc)) (children_ n)
  | _ => false
  end.

(** A well-formed tree is empty or has a well-formed root. *)
Definition wf_tree (t : art T) : bool := is_null t || wf t.

(** The bindings below a pointer, in traversal order: the node's own
    binding, then those of its children in child-map order.  The key
    of a binding is the concatenation of the prefixes and partial keys
    on the way to its node. *)
Fixpoint entries (p : ptr T) : list (list byte * T) :=
  match p with
  | live n =>
      map (fun e => (prefix_ n ++ fst e, snd e))
          ((match value_ n with
            | Some v => [([], v)]
            | None => []
            end)
           ++ flat_map (fun kc =>
                          map (fun e => (fst kc :: fst e, snd e))
                              (entries (snd kc)))
                       (children_ n))
  | _ => []
  end.

(** [key] is bound to [v] in the tree. *)
Definition binds (t : art T) (key : list byte) (v : T) : Prop :=
  In (key, v) (entries t).

(** The bindings [new] are the bindings [old] with [key] bound to [v]. *)
Definition updated (old : list (list byte * T)) (key : list byte) (v : T)
           (new : list (list byte * T)) : Prop :=
  forall k x, In (k, x) new <->
              (k = key /\ x = v) \/ (k <> key /\ In (k, x) old).

(** Section 3, invariant 2, as [del] reads it: a live node with an empty
    value slot has an [n_children()] of two or more. *)
Fixpoint compressed (p : ptr T) : bool :=
  match p with
  | live n =>
      (negb (no_value n) || (2 <=? n_children n))
      && forallb (fun kc => compressed (snd kc)) (children_ n)
  | _ => true
  end.

(** The descent of [del] for [rest] from a node ends without a binding:
    at a prefix mismatch, at a missing child, or on a node whose value
    slot is empty. *)
Inductive unbound_in : node T -> list byte -> Prop :=
| unbound_mismatch n rest :
    check_prefix n rest <> prefix_len_ n -> unbound_in n rest
| unbound_no_child n b rest :
    find_child n b = None -> unbound_in n (prefix_ n ++ b :: rest)
| unbound_no_value n :
    value_ n = None -> unbound_in n (prefix_ n)
| unbound_below n b c rest :
    find_child n b = Some (live c) -> unbound_in c rest ->
    unbound_in n (prefix_ n ++ b :: rest).

(** The same for a tree, whose root may be missing. *)
Definition unbound (t : art T) (key : list byte) : Prop :=
  t = nullptr \/ exists n, t = live n /\ unbound_in n key.

(** The children of a node: the nodes its child slots point to.  A
    slot that holds the address of a deleted node points to none. *)
Definition is_live (p : ptr T) : bool :=
  match p with
  | live _ => true
  | _ => false
  end.

Definition child_nodes (n : node T) : nat :=
  List.length (filter (fun kc => is_live (snd kc)) (children_ n)).

(** The compression invariant of section 8: no node has fewer than two
    children, an empty value slot and a parent, all at once. *)
Fixpoint compression_below (has_parent : bool) (p : ptr T) : bool :=
  match p with
  | live n =>
      negb ((child_nodes n <? 2) && no_value n && has_parent)
      && forallb (fun kc => compression_below true (snd kc))
                 (children_ n)
  | _ => true
  end.

Definition compression_invariant (t : art T) : bool :=
  compression_below false t.

(** ** Sequences of mutations *)

Inductive op : Type :=
| Set_ (key : list byte) (value : T)
| Del_ (key : list byte).

Definition apply (o : op) : M T (option T) :=
  match o with
  | Set_ key value => set key (Some value)
  | Del_ key => del key
  end.

(** The tree after a sequence of mutations, each run on the tree the
    one before left. *)
Fixpoint run (ops : list op) (t : art T) : result (art T) :=
  match ops with
  | [] => Ok t
  | o :: ops' =>
      match apply o t with
      | Ok (_, t') => run ops' t'
      | Fault e => Fault e
      end
  end.

(** What a map holds for [key] after the same sequence: the value of
    the last [set] on [key] unless a [del] on [key] follows it. *)
Fixpoint expected (ops : list op) (key : list byte) (now : option T)
  : option T :=
  match ops with
  | [] => now
  | Set_ k v :: ops' =>
      expected ops' key (if list_eq_dec Byte.byte_eq_dec k key
                         then Some v else now)
  | Del_ k :: ops' =>
      expected ops' key (if list_eq_dec Byte.byte_eq_dec k key
                         then None else now)
  end.

(** The value an operation returned, without the tree it left. *)
Definition returned {A} (r : result (A * art T)) : result A :=
  match r with
  | Ok (a, _) => Ok a
  | Fault e => Fault e
  end.

End Shape.

Arguments op T : clear implicits.

End Tree.

(* ================================================================== *)
(** * Sequences of mutations used as examples *)
(* ================================================================== *)

Module Examples.
Import Bytes Tree.

(** The trees of the examples hold numbers. *)
Definition ops_leaf : list (op nat) :=
  [Set_ (of_string "a") 1; Set_ (of_string "ab") 2; Del_ (of_string "ab")].

Definition ops_reuse : list (op nat) :=
  [Set_ (of_string "a") 1; Del_ (of_string "a"); Set_ (of_string "b") 2].

Definition ops_collapse : list (op nat) :=
  [Set_ (of_string "abc") 1; Set_ (of_string "abd") 2;
   Del_ (of_string "abc")].

Definition ops_single_child : list (op nat) :=
  [Set_ (of_string "a") 1; Set_ (of_string "abc") 2;
   Set_ (of_string "abd") 3; Del_ (of_string "abc")].

(** The tree of scenario 6 of the specification. *)
Definition ops_seek : list (op nat) :=
  [Set_ (of_string "a") 1; Set_ (of_string "b") 2;
   Set_ (of_string "ba") 3; Set_ (of_string "bb") 4;
   Set_ (of_string "c") 5].

Definition tree_seek : Art.art nat :=
  match run ops_seek Art.empty with
  | Ok t => t
  | Fault _ => Node.nullptr
  end.

End Examples.

(* ================================================================== *)
(** * The iterator *)
(* ================================================================== *)

Module TreeIt.
Import Bytes Node Art Tree.

(** [tree_it.hpp], with the class [tree_it<T>], its constructor and
    [tree_it<T>::greater_equal], which [begin] and [end] (lines 457-463)
    call, is not part of the sources at hand.  The iterator below is
    modelled from section 4.5 of the specification: an in-order traversal
    that visits the value of a node before its children and the children in
    ascending order of their partial keys, and the seek that section
    describes. *)
Section Iterator.
Context {T : Type}.

(** Modelled from the spec: a step of the traversal stack of the missing
    [tree_it<T>]: a node, the next partial key to visit there and the
    bytes on the way to the node. *)
Record step : Type := mk_step {
  node_ : node T;
  next_ : option byte;            (* None: no child left to visit *)
  key_ : list byte                (* full key of [node_] *)
}.

(** Modelled from the spec: the state of the missing [tree_it<T>]: the
    binding it is positioned at, none when it is finished, and the steps
    to go on from. *)
Record tree_it : Type := mk_it {
  current_ : option (list byte * T);
  stack_ : list step
}.

(** Modelled from the spec: the default-constructed [tree_it<T>()] that
    [end()] returns. *)
Definition end_ : tree_it := mk_it None [].

(** The partial key after [b], none after 255. *)
Definition after (b : byte) : option byte := Byte.of_nat (S (Byte.to_nat b)).

(** The children a step has still to visit: those at or above its next
    partial key. *)
Definition pending (s : step) : list (byte * ptr T) :=
  match next_ s with
  | None => []
  | Some floor =>
      filter (fun kc => Bytes.leb floor (fst kc)) (children_ (node_ s))
  end.

(** The first result a function gives on the members of a list. *)
Fixpoint first_of {A B : Type} (f : A -> option B) (l : list A)
  : option B :=
  match l with
  | [] => None
  | a :: l' =>
      match f a with
      | Some r => Some r
      | None => first_of f l'
      end
  end.

(** Modelled from the spec: the descent of the missing [tree_it<T>] to
    the leftmost binding of the subtree behind [p], whose keys all start
    with [key]: the value of the node itself if it has one, else the
    leftmost binding of its first child that has any; with it, the steps to
    go on from, on top of the steps [below]. *)
Fixpoint leftmost (key : list byte) (p : ptr T) (below : list step)
  : option ((list byte * T) * list step) :=
  match p with
  | live n =>
      let key := key ++ prefix_ n in
      match value_ n with
      | Some v => Some ((key, v), mk_step n (Some x00) key :: below)
      | None =>
          first_of (fun kc =>
                      leftmost (key ++ [fst kc]) (snd kc)
                               (mk_step n (after (fst kc)) key :: below))
                   (children_ n)
      end
  | _ => None
  end.

(** The leftmost binding among the children [ch] of the node [n], whose
    key is [key]. *)
Definition among (key : list byte) (n : node T) (below : list step)
           (ch : list (byte * ptr T))
  : option ((list byte * T) * list step) :=
  first_of (fun kc =>
              leftmost (key ++ [fst kc]) (snd kc)
                       (mk_step n (after (fst kc)) key :: below))
           ch.

(** Modelled from the spec: the move of the missing [tree_it<T>] to the
    next binding in order after those visited: the leftmost one among
    the children the top step has still to visit, else the next of the
    steps below. *)
Fixpoint resume (stack : list step)
  : option ((list byte * T) * list step) :=
  match stack with
  | [] => None
  | s :: below =>
      match among (key_ s) (node_ s) below (pending s) with
      | Some r => Some r
      | None => resume below
      end
  end.

(** How the prefix of a node compares to the seek bytes that face it. *)
Inductive prefix_cmp : Type :=
| PrefixLess
| PrefixGreater
| SeekEnds
| SeekContinues (b : byte) (rest : list byte).

Fixpoint compare_prefix (p seek : list byte) : prefix_cmp :=
  match p, seek with
  | [], [] => SeekEnds
  | [], b :: rest => SeekContinues b rest
  | _ :: _, [] => PrefixGreater
  | a :: p', b :: seek' =>
      if Bytes.ltb a b then PrefixLess
      else if Bytes.ltb b a then PrefixGreater
      else compare_prefix p' seek'
  end.

(** What [f] makes of the first member of a list that passes [test],
    [d] where there is none. *)
Fixpoint on_first {A B : Type} (test : A -> bool) (f : A -> B) (d : B)
         (l : list A) : B :=
  match l with
  | [] => d
  | a :: l' => if test a then f a else on_first test f d l'
  end.

(** Modelled from the spec: the seek of the missing
    [tree_it<T>::greater_equal] (section 4.5, seek semantics): the first
    binding at or after [seek] in the subtree behind [p],
    else the next binding of the steps [below].  A subtree whose prefix is
    less than the seek bytes is skipped; one whose prefix is greater, or at
    whose root the seek key ends, is entered at its leftmost binding; else
    the seek goes on in the child under the next seek byte, and where there
    is none, at the next child after that byte. *)
Fixpoint seek_from (key : list byte) (p : ptr T) (seek : list byte)
         (below : list step) : option ((list byte * T) * list step) :=
  match p with
  | live n =>
      match compare_prefix (prefix_ n) seek with
      | PrefixLess => resume below
      | PrefixGreater | SeekEnds =>
          match leftmost key p below with
          | Some r => Some r
          | None => resume below
          end
      | SeekContinues b rest =>
          let key := key ++ prefix_ n in
          let here := mk_step n (after b) key in
          on_first (fun kc => Byte.eqb (fst kc) b)
                   (fun kc =>
                      seek_from (key ++ [b]) (snd kc) rest (here :: below))
                   (resume (here :: below))
                   (children_ n)
      end
  | _ => resume below
  end.

Definition position (r : option ((list byte * T) * list step)) : tree_it :=
  match r with
  | Some (e, stack) => mk_it (Some e) stack
  | None => end_
  end.

(** Modelled from the spec: [tree_it<T>(root_)], the iterator of
    [begin()]. *)
Definition min (root : ptr T) : tree_it := position (leftmost [] root []).

(** Modelled from the spec: [tree_it<T>::greater_equal(root_, key)], the
    iterator of [begin(key)]. *)
Definition greater_equal (root : ptr T) (key : list byte) : tree_it :=
  position (seek_from [] root key []).

(** Modelled from the spec: [operator++] of the missing [tree_it<T>]. *)
Definition advance (it : tree_it) : tree_it := position (resume (stack_ it)).

(** Modelled from the spec: [operator*] of the missing [tree_it<T>],
    with the key. *)
Definition deref (it : tree_it) : option (list byte * T) := current_ it.

(** Bindings with [key] put before their keys. *)
Definition shift (key : list byte) (l : list (list byte * T))
  : list (list byte * T) :=
  map (fun e => (key ++ fst e, snd e)) l.

(** The binding of a node itself, under the key [key]. *)
Definition own (key : list byte) (n : node T) : list (list byte * T) :=
  match value_ n with
  | Some v => [(key, v)]
  | None => []
  end.

(** The bindings below the children [ch] of a node whose key is [key]. *)
Definition child_entries (key : list byte) (ch : list (byte * ptr T))
  : list (list byte * T) :=
  flat_map (fun kc => shift (key ++ [fst kc]) (entries (snd kc))) ch.

(** The children above the partial key [b]. *)
Definition above (b : byte) (ch : list (byte * ptr T))
  : list (byte * ptr T) :=
  filter (fun kc => Bytes.ltb b (fst kc)) ch.

(** The bindings at or after [seek]. *)
Definition from (seek : list byte) (l : list (list byte * T))
  : list (list byte * T) :=
  filter (fun e => Bytes.lex_leb seek (fst e)) l.

(** The bindings a stack of steps has still to yield. *)
Definition step_entries (s : step) : list (list byte * T) :=
  child_entries (key_ s) (pending s).

Definition stack_entries (stack : list step) : list (list byte * T) :=
  flat_map step_entries stack.

(** The bindings an iterator has still to yield, the current one first. *)
Definition remaining (it : tree_it) : list (list byte * T) :=
  match current_ it with
  | Some e => e :: stack_entries (stack_ it)
  | None => []
  end.

(** Every step of a stack stands on a well-formed node. *)
Definition steps_wf (stack : list step) : Prop :=
  Forall (fun s => wf (live (node_ s)) = true) stack.

(** An iterator in order: its steps stand on well-formed nodes, and it
    has no steps left when it is finished. *)
Definition it_wf (it : tree_it) : Prop :=
  steps_wf (stack_ it) /\ (current_ it = None -> stack_ it = []).

(** Keys in strictly ascending lexicographic order. *)
Definition key_lt (a b : list byte * T) : Prop :=
  Bytes.lex_ltb (fst a) (fst b) = true.

End Iterator.

Arguments step T : clear implicits.
Arguments tree_it T : clear implicits.

End TreeIt.

(** [art<T>::begin()], [begin(key)] and [end()] (lines 457-463). *)
Module ArtIt.
Import Node Art TreeIt.

Definition begin {T} (t : art T) : tree_it T := TreeIt.min t.

Definition begin_at {T} (t : art T) (key : list byte) : tree_it T :=
  greater_equal t key.

Definition end_ {T} : tree_it T := TreeIt.end_.

End ArtIt.

(* ================================================================== *)
(** * The destructor *)
(* ================================================================== *)

Module Drop.
Import Node Art.

Section Destructor.
Context {T : Type}.

(** Modelled from the spec: the child iterator of a node, from [begin()]
    to [end()], of the missing node classes: the partial keys present, in
    ascending order (section 4.1, ordered enumeration). *)
Definition partial_keys (n : node T) : list byte := map fst (children_ n).

(** The [for] loop of lines 97-99: for every partial key of [cur], the
    pointer in the slot [find_child] returns is pushed. *)
Fixpoint push_children (cur : node T) (keys : list byte)
         (node_stack : list (ptr T)) : result (list (ptr T)) :=
  match keys with
  | [] => Ok node_stack
  | k :: keys' =>
      match find_child cur k with
      | Some c => push_children cur keys' (c :: node_stack)
      | None => Fault NullDeref
      end
  end.

(** The [while] loop of lines 93-106.  The top of the stack is popped,
    its children are pushed, its prefix and the node itself are deleted.
    The nodes deleted are listed in the order of their deletion. *)
Fixpoint destroy_loop (fuel : nat) (node_stack : list (ptr T))
         (deleted : list (node T)) : result (list (node T)) :=
  match node_stack with
  | [] => Ok deleted
  | cur :: node_stack' =>
      match deref cur with
      | Fault e => Fault e
      | Ok n =>
          match fuel with
          | 0 => Fault OutOfFuel
          | S fuel' =>
              match push_children n (partial_keys n) node_stack' with
              | Ok node_stack'' =>
                  destroy_loop fuel' node_stack'' (deleted ++ [n])
              | Fault e => Fault e
              end
          end
      end
  end.

(** The number of nodes below a pointer; the loop runs once for each. *)
Fixpoint size (p : ptr T) : nat :=
  match p with
  | live n => S (list_sum (map (fun kc => size (snd kc)) (children_ n)))
  | _ => 0
  end.

(** [~art()] (lines 87-107). *)
Definition destructor (t : art T) : result (list (node T)) :=
  if is_null t then Ok []
  else destroy_loop (size t) [t] [].

(** The nodes below a pointer, a node before its children and the
    children in the order of the child map. *)
Fixpoint all_nodes (p : ptr T) : list (node T) :=
  match p with
  | live n => n :: flat_map (fun kc => all_nodes (snd kc)) (children_ n)
  | _ => []
  end.

(** The same, the children in the reverse order of the child map: the
    order in which a stack that was filled in ascending order is
    emptied. *)
Fixpoint drop_order (p : ptr T) : list (node T) :=
  match p with
  | live n =>
      n :: fold_left (fun later kc => drop_order (snd kc) ++ later)
                     (children_ n) []
  | _ => []
  end.

End Destructor.

End Drop.

(* ================================================================== *)
(** * Trees with deleted leaves, and what operations keep *)
(* ================================================================== *)

Module Reach.
Import Bytes Node Art Tree.

Section Shape.
Context {T : Type}.

(** A subtree as the operations leave it: every child map is in
    strictly ascending key order and every child slot holds a node or the
    address of a deleted one, never null. *)
Fixpoint ordered (p : ptr T) : bool :=
  match p with
  | nullptr => false
  | dangling => true
  | live n =>
      ascending (children_ n)
      && forallb (fun kc => ordered (snd kc)) (children_ n)
  end.

Definition ordered_tree (t : art T) : bool := is_null t || ordered t.

(** Some slot below holds the address of a deleted node. *)
Fixpoint stale (p : ptr T) : bool :=
  match p with
  | nullptr => false
  | dangling => true
  | live n => existsb (fun kc => stale (snd kc)) (children_ n)
  end.

(** The bindings [new] are the bindings [old] without those of [key]. *)
Definition removed (old : list (list byte * T)) (key : list byte)
           (new : list (list byte * T)) : Prop :=
  forall k x, In (k, x) new <-> k <> key /\ In (k, x) old.

(** A tree holds the bindings of a map. *)
Definition models (t : art T) (m : list byte -> option T) : Prop :=
  forall k x, binds t k x <-> m k = Some x.

(** The smallest size class that holds [count] children. *)
Definition class_for (count : nat) : node_class :=
  if count =? 0 then N0
  else if count <=? 4 then N4
  else if count <=? 16 then N16
  else if count <=? 48 then N48
  else N256.

Definition class_eqb (c d : node_class) : bool :=
  match c, d with
  | N0, N0 | N4, N4 | N16, N16 | N48, N48 | N256, N256 => true
  | _, _ => false
  end.

(** Every node is of the smallest class that holds its children. *)
Fixpoint tight (p : ptr T) : bool :=
  match p with
  | live n =>
      class_eqb (class_ n) (class_for (n_children n))
      && forallb (fun kc => tight (snd kc)) (children_ n)
  | _ => true
  end.

Definition is_set (o : op T) : bool :=
  match o with
  | Set_ _ _ => true
  | Del_ _ => false
  end.

(** The binding of [key] put at its place in a list of bindings in key
    order, instead of the one the key had. *)
Fixpoint upsert (key : list byte) (v : T) (l : list (list byte * T))
  : list (list byte * T) :=
  match l with
  | [] => [(key, v)]
  | (k, x) :: l' =>
      if lex_ltb key k then (key, v) :: l
      else if lex_ltb k key then (k, x) :: upsert key v l'
      else (key, v) :: l'
  end.

(** The bindings of other keys than [key]. *)
Definition without (key : list byte) (l : list (list byte * T))
  : list (list byte * T) :=
  filter (fun e => if list_eq_dec Byte.byte_eq_dec (fst e) key
                   then false else true) l.

End Shape.

End Reach.

(* ================================================================== *)
(** * Trees used as examples *)
(* ================================================================== *)

Module Samples.
Import Bytes Node Art.

(** The tree of the keys "a" and "ab". *)
Definition tree_a_ab : art nat :=
  live (mk_node (of_string "a") (Some 1) N4
          [("b"%byte, live (new_leaf [] (Some 2)))]).

(** The tree of the key "ab". *)
Definition tree_ab : art nat := live (new_leaf (of_string "ab") (Some 2)).

End Samples.

(* ================================================================== *)
(** * Bytes, prefixes and child maps *)
(* ================================================================== *)

Module BytesFacts.

Lemma eqb_refl (a : byte) : Byte.eqb a a = true.
Proof. now apply Byte.byte_dec_lb. Qed.

Lemma eqb_eq (a b : byte) : Byte.eqb a b = true <-> a = b.
Proof.
  split; [apply Byte.byte_dec_bl | apply Byte.byte_dec_lb].
Qed.

Lemma eqb_neq (a b : byte) : Byte.eqb a b = false <-> a <> b.
Proof.
  split.
  - apply Byte.eqb_false.
  - intros H. destruct (Byte.eqb a b) eqn:E; [|reflexivity].
    apply eqb_eq in E. contradiction.
Qed.

Lemma to_nat_inj (a b : byte) : Byte.to_nat a = Byte.to_nat b -> a = b.
Proof.
  intros H.
  pose proof (Byte.of_to_nat a) as Ha.
  pose proof (Byte.of_to_nat b) as Hb.
  rewrite H in Ha. congruence.
Qed.

Lemma ltb_lt (a b : byte) :
  Bytes.ltb a b = true <-> Byte.to_nat a < Byte.to_nat b.
Proof. unfold Bytes.ltb. apply Nat.ltb_lt. Qed.

Lemma ltb_irrefl (a : byte) : Bytes.ltb a a = false.
Proof. unfold Bytes.ltb. apply Nat.ltb_irrefl. Qed.

Lemma ltb_trans (a b c : byte) :
  Bytes.ltb a b = true -> Bytes.ltb b c = true -> Bytes.ltb a c = true.
Proof. rewrite !ltb_lt. lia. Qed.

Lemma ltb_neq (a b : byte) : Bytes.ltb a b = true -> a <> b.
Proof. intros H ->. rewrite ltb_irrefl in H. discriminate. Qed.

(** Two different bytes are ordered one way or the other. *)
Lemma ltb_total (a b : byte) :
  a <> b -> Bytes.ltb a b = false -> Bytes.ltb b a = true.
Proof.
  intros Hne H. apply ltb_lt.
  unfold Bytes.ltb in H. apply Nat.ltb_ge in H.
  destruct (Nat.eq_dec (Byte.to_nat a) (Byte.to_nat b)) as [E|E].
  - apply to_nat_inj in E. contradiction.
  - lia.
Qed.

End BytesFacts.

Module PrefixFacts.
Import Bytes Node BytesFacts.

Lemma classify (p rest : list byte) : prefix_case p rest.
Proof.
  revert rest. induction p as [|a p IH]; intros [|b rest].
  - now apply pc_exact.
  - now apply pc_continue with b rest.
  - now apply pc_shorter with a p.
  - destruct (Byte.byte_eq_dec a b) as [->|Hab].
    + destruct (IH rest) as [E|x p' E|c x p' y k' E1 E2 Hxy|x k' E].
      * apply pc_exact. now rewrite E.
      * apply pc_shorter with x p'. now rewrite E.
      * apply pc_diverge with (b :: c) x p' y k'; simpl; congruence.
      * apply pc_continue with x k'. now rewrite E.
    + now apply pc_diverge with [] a p b rest.
Qed.

Lemma mismatch_same (p : list byte) : mismatch p p = List.length p.
Proof.
  induction p as [|a p IH]; simpl; [reflexivity|].
  now rewrite eqb_refl, IH.
Qed.

Lemma mismatch_app_l (p q : list byte) :
  mismatch p (p ++ q) = List.length p.
Proof.
  induction p as [|a p IH]; simpl.
  - now destruct q.
  - now rewrite eqb_refl, IH.
Qed.

Lemma mismatch_app_r (p q : list byte) :
  mismatch (p ++ q) p = List.length p.
Proof.
  induction p as [|a p IH]; simpl.
  - now destruct q.
  - now rewrite eqb_refl, IH.
Qed.

Lemma mismatch_diverge (c : list byte) a p' b k' :
  a <> b -> mismatch (c ++ a :: p') (c ++ b :: k') = List.length c.
Proof.
  intros Hab. induction c as [|x c IH]; simpl.
  - apply eqb_neq in Hab. now rewrite Hab.
  - now rewrite eqb_refl, IH.
Qed.

Lemma mismatch_le (p key : list byte) :
  mismatch p key <= Nat.min (List.length p) (List.length key).
Proof.
  revert key. induction p as [|a p IH]; intros [|b key]; simpl; try lia.
  destruct (Byte.eqb a b); [|lia].
  specialize (IH key). lia.
Qed.

Lemma index_app {A} (l : list A) x r :
  index (l ++ x :: r) (List.length l) = Ok x.
Proof.
  unfold index. rewrite nth_error_app2 by lia.
  now rewrite Nat.sub_diag.
Qed.

(** [key[depth + i]] is the [i]-th byte of the rest of the key. *)
Lemma index_skipn {A} (key : list A) depth i :
  index key (depth + i) = index (skipn depth key) i.
Proof.
  unfold index. now rewrite nth_error_skipn.
Qed.

Lemma skipn_skipn_rest {A} (key : list A) depth (l : list A) x r :
  skipn depth key = l ++ x :: r ->
  skipn (depth + (List.length l + 1)) key = r.
Proof.
  intros H. rewrite Nat.add_comm, <- skipn_skipn, H.
  rewrite skipn_app, skipn_all2 by lia.
  replace (List.length l + 1 - List.length l) with 1 by lia.
  reflexivity.
Qed.

Lemma firstn_length_app {A} (l r : list A) :
  firstn (List.length l) (l ++ r) = l.
Proof.
  rewrite firstn_app, Nat.sub_diag, firstn_all. simpl. apply app_nil_r.
Qed.

Lemma skipn_length_app {A} (l : list A) x r :
  skipn (List.length l + 1) (l ++ x :: r) = r.
Proof.
  rewrite skipn_app, skipn_all2 by lia.
  replace (List.length l + 1 - List.length l) with 1 by lia.
  reflexivity.
Qed.

End PrefixFacts.

(* ================================================================== *)
(** * Slots: reading and writing through a slot pointer *)
(* ================================================================== *)

Module SlotFacts.
Import Node Art BytesFacts.

Section WithT.
Context {T : Type}.
Implicit Types (ch : list (byte * ptr T)) (p r x : ptr T) (n : node T).

Lemma assoc_replace ch k x c :
  assoc ch k = Some c -> assoc (replace ch k x) k = Some x.
Proof.
  induction ch as [|[k' c'] ch IH]; simpl; [discriminate|].
  destruct (Byte.eqb k' k) eqn:E; simpl; rewrite E; auto.
Qed.

Lemma replace_replace ch k x y :
  replace (replace ch k x) k y = replace ch k y.
Proof.
  induction ch as [|[k' c'] ch IH]; simpl; [reflexivity|].
  destruct (Byte.eqb k' k) eqn:E; simpl; rewrite E; congruence.
Qed.

Lemma replace_same ch k c :
  assoc ch k = Some c -> replace ch k c = ch.
Proof.
  induction ch as [|[k' c'] ch IH]; simpl; [reflexivity|].
  destruct (Byte.eqb k' k) eqn:E; intros H.
  - congruence.
  - now rewrite IH.
Qed.

Lemma replace_length ch k x :
  List.length (replace ch k x) = List.length ch.
Proof.
  induction ch as [|[k' c'] ch IH]; simpl; [reflexivity|].
  destruct (Byte.eqb k' k); simpl; congruence.
Qed.

Lemma find_put_child n k x c :
  find_child n k = Some c -> find_child (put_child n k x) k = Some x.
Proof. apply assoc_replace. Qed.

Lemma put_put_child n k x y :
  put_child (put_child n k x) k y = put_child n k y.
Proof.
  unfold put_child, with_children; simpl. now rewrite replace_replace.
Qed.

Lemma put_child_same n k c :
  find_child n k = Some c -> put_child n k c = n.
Proof.
  intros H. unfold put_child, with_children.
  rewrite (replace_same _ _ _ H). now destruct n.
Qed.

(** Reading a slot that was just written yields what was written. *)
Lemma load_store s : forall r x r',
  slot_store s x r = Ok r' -> slot_load s r' = Ok x.
Proof.
  induction s as [|k s IH]; simpl; intros r x r' H.
  - congruence.
  - destruct r as [| |n]; simpl in *; try discriminate.
    destruct (find_child n k) as [c|] eqn:Hc; [|discriminate].
    destruct (slot_store s x c) as [c'|] eqn:Hs; [|discriminate].
    inversion H; subst; simpl.
    rewrite (find_put_child _ _ _ _ Hc). eauto.
Qed.

(** The second of two writes to a slot wins. *)
Lemma store_store s : forall r x y r',
  slot_store s x r = Ok r' -> slot_store s y r' = slot_store s y r.
Proof.
  induction s as [|k s IH]; simpl; intros r x y r' H.
  - reflexivity.
  - destruct r as [| |n]; simpl in *; try discriminate.
    destruct (find_child n k) as [c|] eqn:Hc; [|discriminate].
    destruct (slot_store s x c) as [c'|] eqn:Hs; [|discriminate].
    inversion H; subst; simpl.
    rewrite (find_put_child _ _ _ _ Hc).
    rewrite (IH _ _ y _ Hs).
    destruct (slot_store s y c); [|reflexivity].
    now rewrite put_put_child.
Qed.

(** Writing back what a slot holds changes nothing. *)
Lemma store_load s : forall r sub,
  slot_load s r = Ok sub -> slot_store s sub r = Ok r.
Proof.
  induction s as [|k s IH]; simpl; intros r sub H.
  - congruence.
  - destruct r as [| |n]; simpl in *; try discriminate.
    destruct (find_child n k) as [c|] eqn:Hc; [|discriminate].
    rewrite (IH _ _ H). now rewrite (put_child_same _ _ _ Hc).
Qed.

(** A slot that can be read can be written. *)
Lemma store_defined s : forall r sub x,
  slot_load s r = Ok sub -> exists r', slot_store s x r = Ok r'.
Proof.
  induction s as [|k s IH]; simpl; intros r sub x H.
  - eauto.
  - destruct r as [| |n]; simpl in *; try discriminate.
    destruct (find_child n k) as [c|] eqn:Hc; [|discriminate].
    destruct (IH _ _ x H) as [c' Hc']. rewrite Hc'. eauto.
Qed.

Lemma load_app s c : forall r,
  slot_load (s ++ c) r = and_then (slot_load s r) (slot_load c).
Proof.
  induction s as [|k s IH]; simpl; intros r; [reflexivity|].
  destruct (deref r) as [n|e]; [|reflexivity].
  destruct (find_child n k); [apply IH|reflexivity].
Qed.

Lemma store_app s c x : forall r,
  slot_store (s ++ c) x r =
  and_then (slot_load s r) (fun sub =>
  and_then (slot_store c x sub) (fun sub' => slot_store s sub' r)).
Proof.
  induction s as [|k s IH]; simpl; intros r.
  - now destruct (slot_store c x r).
  - destruct (deref r) as [n|e]; [|reflexivity].
    destruct (find_child n k) as [d|]; [|reflexivity].
    rewrite IH. destruct (slot_load s d) as [sub|]; simpl; [|reflexivity].
    now destruct (slot_store c x sub).
Qed.

(** ** Operations on a subtree *)

Local Abbreviation local := (Art.local (T:=T)).

Lemma local_ret {A} s (a : A) : local s (ret a) (ret a).
Proof.
  intros r sub H. unfold within, ret. rewrite H.
  now rewrite (store_load _ _ _ H).
Qed.

Lemma local_fail {A} s e : local s (@fail T A e) (fail e).
Proof. intros r sub H. unfold within, fail. now rewrite H. Qed.

Lemma local_lift {A} s (x : result A) : local s (lift x) (lift x).
Proof.
  intros r sub H. unfold within, lift. rewrite H.
  destruct x; [|reflexivity]. now rewrite (store_load _ _ _ H).
Qed.

Lemma local_bind {A B} s (m m' : M T A) (f f' : A -> M T B) :
  local s m m' -> (forall a, local s (f a) (f' a)) ->
  local s (bind m f) (bind m' f').
Proof.
  intros Hm Hf r sub H. unfold bind. rewrite (Hm _ _ H).
  unfold within. rewrite H.
  destruct (m' sub) as [[a sub']|e]; [|reflexivity].
  destruct (store_defined _ _ _ sub' H) as [r' Hr']. rewrite Hr'.
  pose proof (load_store _ _ _ _ Hr') as Hl.
  rewrite (Hf a _ _ Hl). unfold within. rewrite Hl.
  destruct (f' a sub') as [[b sub'']|e]; [|reflexivity].
  now rewrite (store_store _ _ _ sub'' _ Hr').
Qed.

Lemma local_load s c : local s (load (s ++ c)) (load c).
Proof.
  intros r sub H. unfold within, load. rewrite load_app, H. simpl.
  destruct (slot_load c sub); [|reflexivity].
  now rewrite (store_load _ _ _ H).
Qed.

Lemma local_store s c x : local s (store (s ++ c) x) (store c x).
Proof.
  intros r sub H. unfold within, store. rewrite store_app, H. simpl.
  destruct (slot_store c x sub) as [sub'|]; simpl; [|reflexivity].
  now destruct (slot_store s sub' r).
Qed.

Lemma local_node_at s c : local s (node_at (s ++ c)) (node_at c).
Proof.
  unfold node_at. apply local_bind; [apply local_load|].
  intros a. apply local_lift.
Qed.

Lemma local_put_node s c n : local s (put_node (s ++ c) n) (put_node c n).
Proof. apply local_store. Qed.

Lemma local_delete_at s c : local s (delete_at (s ++ c)) (delete_at c).
Proof.
  unfold delete_at. apply local_bind; [apply local_node_at|].
  intros _. apply local_store.
Qed.

Lemma local_fail_bind {A B} s e (f f' : A -> M T B) :
  local s (bind (fail e) f) (bind (fail e) f').
Proof. intros r sub H. unfold within, bind, fail. now rewrite H. Qed.

Lemma local_child_of s n k : local s (child_of n k) (child_of n k).
Proof.
  unfold child_of. destruct (find_child n k);
    [apply local_ret|apply local_fail].
Qed.

(** Reading a node leaves the tree as it is. *)
Lemma node_at_pure c r n r' : node_at c r = Ok (n, r') -> r' = r.
Proof.
  unfold node_at, bind, load, lift.
  destruct (slot_load c r) as [p|]; [|discriminate].
  destruct (deref p); intros H; inversion H; reflexivity.
Qed.

(** The child slot found below [s ++ c] is the one found below [c],
    seen from the root. *)
Lemma local_child_slot {B} s c k (f f' : option slot -> M T B) :
  local s (f None) (f' None) ->
  local s (f (Some (s ++ c ++ [k]))) (f' (Some (c ++ [k]))) ->
  local s (bind (child_slot (s ++ c) k) f) (bind (child_slot c k) f').
Proof.
  intros HN HS r sub H. unfold child_slot, bind.
  rewrite (local_node_at s c r sub H).
  unfold within, ret. rewrite H.
  destruct (node_at c sub) as [[n sub']|e] eqn:Hn; [|reflexivity].
  apply node_at_pure in Hn. subst sub'.
  rewrite (store_load _ _ _ H).
  destruct (find_child n k); cbv iota.
  - rewrite <- app_assoc. rewrite (HS _ _ H).
    unfold within. now rewrite H.
  - transitivity (within s (f' None) r); [exact (HN _ _ H)|].
    unfold within. now rewrite H.
Qed.

End WithT.
End SlotFacts.

(* ================================================================== *)
(** * Buffers: what the prefix merges of [del] write *)
(* ================================================================== *)

Module BufferFacts.
Import Buffer.

Lemma poke_at (pre : buffer) c post b :
  poke (pre ++ c :: post) (List.length pre) b = Ok (pre ++ Some b :: post).
Proof.
  induction pre as [|x pre IH]; simpl; [reflexivity|]. now rewrite IH.
Qed.

Lemma poke_past (buf : buffer) i b :
  List.length buf <= i -> poke buf i b = Fault OutOfBounds.
Proof.
  revert i. induction buf as [|x buf IH]; intros i H; simpl.
  - reflexivity.
  - destruct i as [|i]; simpl in H; [lia|]. rewrite IH by lia. reflexivity.
Qed.

(** [memcpy] overwrites as many cells as it copies bytes. *)
Lemma memcpy_over (src : list byte) : forall (pre mid post : buffer),
  List.length mid = List.length src ->
  memcpy (pre ++ mid ++ post) (List.length pre) src (List.length src)
  = Ok (pre ++ map Some src ++ post).
Proof.
  induction src as [|b src IH]; intros pre mid post H.
  - destruct mid; [reflexivity|discriminate].
  - destruct mid as [|c mid]; [discriminate|]. simpl in H.
    simpl. rewrite poke_at.
    replace (pre ++ Some b :: mid ++ post)
      with ((pre ++ [Some b]) ++ mid ++ post)
      by (rewrite <- app_assoc; reflexivity).
    replace (S (List.length pre)) with (List.length (pre ++ [Some b]))
      by (rewrite length_app; simpl; lia).
    rewrite IH by lia. now rewrite <- app_assoc.
Qed.

Lemma memcpy_at (pre mid post : buffer) (src : list byte) off n :
  off = List.length pre -> n = List.length src ->
  List.length mid = List.length src ->
  memcpy (pre ++ mid ++ post) off src n = Ok (pre ++ map Some src ++ post).
Proof. intros -> -> H. now apply memcpy_over. Qed.

Lemma freeze_written (l : list byte) : freeze (map Some l) = Ok l.
Proof. induction l as [|b l IH]; simpl; [reflexivity|]. now rewrite IH. Qed.

Lemma freeze_gap (l : list byte) (post : buffer) :
  freeze (map Some l ++ None :: post) = Fault Indeterminate.
Proof. induction l as [|b l IH]; simpl; [reflexivity|]. now rewrite IH. Qed.

End BufferFacts.

(* ================================================================== *)
(** * The loops of [set] and [del] act on the subtree behind [cur] *)
(* ================================================================== *)

Module LoopFacts.
Import Node Art BytesFacts PrefixFacts SlotFacts.

Ltac local_step :=
  first [ apply local_ret | apply local_fail | apply local_lift
        | apply local_fail_bind | apply local_child_of
        | apply local_node_at | apply local_put_node
        | apply local_delete_at
        | apply local_store | apply local_load
        | (apply local_bind; [|intros ?]) ].

(** Comparisons of lengths that [lia] settles. *)
Ltac bool_nat :=
  repeat match goal with
         | |- context [?a =? ?b] =>
             first [ replace (a =? b) with true
                       by (symmetry; apply Nat.eqb_eq; lia)
                   | replace (a =? b) with false
                       by (symmetry; apply Nat.eqb_neq; lia) ]
         | |- context [?a <? ?b] =>
             first [ replace (a <? b) with true
                       by (symmetry; apply Nat.ltb_lt; lia)
                   | replace (a <? b) with false
                       by (symmetry; apply Nat.ltb_ge; lia) ]
         | |- context [?a <=? ?b] =>
             first [ replace (a <=? b) with true
                       by (symmetry; apply Nat.leb_le; lia)
                   | replace (a <=? b) with false
                       by (symmetry; apply Nat.leb_gt; lia) ]
         end; simpl.

(** Running the state transformers on a given tree. *)
Ltac run_monad :=
  unfold bind, node_at, put_node, child_slot, delete_at, load, store,
    lift, ret, fail; simpl.

Ltac local_auto :=
  repeat first
    [ local_step
    | match goal with
      | |- local _ (if ?b then _ else _) _ => destruct b
      end ].

Section WithT.
Context {T : Type}.
Implicit Types (p r x : ptr T) (n : node T) (v : option T).

Local Abbreviation local := (Art.local (T:=T)).

Lemma set_loop_local key v s : forall fuel c depth,
  local s (set_loop fuel key v (s ++ c) depth)
          (set_loop fuel key v c depth).
Proof.
  induction fuel as [|fuel IH]; intros c depth; simpl.
  - apply local_fail.
  - apply local_bind; [apply local_node_at|]. intros n.
    repeat match goal with
           | |- local _ (if ?b then _ else _) _ => destruct b
           end; try (repeat local_step; fail).
    apply local_bind; [apply local_lift|]. intros k.
    apply local_child_slot.
    + destruct (is_full n); repeat local_step.
    + apply IH.
Qed.

Lemma del_here_local s c cpk n :
  local s (del_here None (s ++ c) cpk n) (del_here None c cpk n).
Proof.
  unfold del_here, through. local_auto.
Qed.

Lemma del_loop_local key s : forall fuel c cpk depth,
  local s (del_loop fuel key None (Some (s ++ c)) cpk depth)
          (del_loop fuel key None (Some c) cpk depth).
Proof.
  induction fuel as [|fuel IH]; intros c cpk depth; simpl.
  - apply local_fail.
  - apply local_bind; [apply local_node_at|]. intros n.
    repeat match goal with
           | |- local _ (if ?b then _ else _) _ => destruct b
           end.
    + apply local_ret.
    + apply del_here_local.
    + apply local_bind; [apply local_lift|]. intros k.
      apply local_child_slot.
      * destruct fuel; apply local_ret.
      * apply IH.
Qed.

(** ** One turn of each loop, by the way prefix and key relate *)

Lemma rest_length (key rest : list byte) depth :
  skipn depth key = rest -> List.length key - depth = List.length rest.
Proof. intros <-. now rewrite length_skipn. Qed.

Lemma get_loop_null fuel key depth :
  get_loop (T:=T) fuel key nullptr depth = Ok None.
Proof. now destruct fuel. Qed.

Lemma get_exact fuel key depth n :
  skipn depth key = prefix_ n ->
  get_loop (S fuel) key (live n) depth = Ok (value_ n).
Proof.
  intros H. pose proof (rest_length _ _ _ H) as L. simpl.
  unfold check_prefix, prefix_len_. rewrite H, mismatch_same, L.
  now rewrite !Nat.eqb_refl.
Qed.

Lemma get_shorter fuel key depth n b pt :
  prefix_ n = skipn depth key ++ b :: pt ->
  get_loop (S fuel) key (live n) depth = Ok None.
Proof.
  intros H. simpl. unfold check_prefix, prefix_len_.
  rewrite H, mismatch_app_r, length_app. simpl.
  now bool_nat.
Qed.

Lemma get_diverge fuel key depth n c a pt b k' :
  prefix_ n = c ++ a :: pt -> skipn depth key = c ++ b :: k' -> a <> b ->
  get_loop (S fuel) key (live n) depth = Ok None.
Proof.
  intros H1 H2 Hab. simpl. unfold check_prefix, prefix_len_.
  rewrite H1, H2, (mismatch_diverge _ _ _ _ _ Hab), length_app. simpl.
  now bool_nat.
Qed.

Lemma get_continue fuel key depth n b k' :
  skipn depth key = prefix_ n ++ b :: k' ->
  get_loop (S fuel) key (live n) depth =
  get_loop fuel key
           (match find_child n b with Some c => c | None => nullptr end)
           (depth + prefix_len_ n + 1).
Proof.
  intros H. pose proof (rest_length _ _ _ H) as L. simpl.
  unfold check_prefix. rewrite H, mismatch_app_l.
  fold (prefix_len_ n). rewrite Nat.eqb_refl. simpl.
  rewrite L, length_app. simpl. fold (prefix_len_ n).
  bool_nat. rewrite index_skipn, H. unfold prefix_len_.
  now rewrite index_app.
Qed.

Lemma set_exact fuel key v depth n :
  skipn depth key = prefix_ n ->
  set_loop (S fuel) key v [] depth (live n)
  = Ok (value_ n, live (with_value n v)).
Proof.
  intros H. pose proof (rest_length _ _ _ H) as L. simpl. run_monad.
  unfold check_prefix, prefix_len_. rewrite H, mismatch_same, L.
  rewrite Nat.min_id, !Nat.eqb_refl. reflexivity.
Qed.

Lemma set_shorter fuel key v depth n b pt :
  prefix_ n = skipn depth key ++ b :: pt ->
  set_loop (S fuel) key v [] depth (live n)
  = Ok (None,
        live (set_child
                (with_prefix (with_value node_4 v) (skipn depth key))
                b (live (with_prefix n pt)))).
Proof.
  intros H. pose proof (rest_length key _ depth eq_refl) as L.
  simpl. run_monad.
  unfold check_prefix, prefix_len_.
  rewrite H, mismatch_app_r, L, length_app. simpl.
  rewrite Nat.min_r by lia. rewrite Nat.eqb_refl. bool_nat.
  rewrite index_app, firstn_length_app, skipn_length_app.
  reflexivity.
Qed.

Lemma set_diverge fuel key v depth n c a pt b k' :
  prefix_ n = c ++ a :: pt -> skipn depth key = c ++ b :: k' -> a <> b ->
  set_loop (S fuel) key v [] depth (live n)
  = Ok (None,
        live (set_child
                (set_child (with_prefix node_4 c) a (live (with_prefix n pt)))
                b (live (new_leaf k' v)))).
Proof.
  intros H1 H2 Hab. pose proof (rest_length _ _ _ H2) as L.
  pose proof H2 as R. apply skipn_skipn_rest in R.
  simpl. run_monad.
  unfold check_prefix, prefix_len_.
  rewrite H1, H2, (mismatch_diverge _ _ _ _ _ Hab), L, !length_app. simpl.
  bool_nat.
  rewrite index_app, firstn_length_app, skipn_length_app.
  rewrite index_skipn, H2, index_app.
  rewrite <- Nat.add_assoc, R. reflexivity.
Qed.

Lemma set_new_leaf fuel key v depth n b k' :
  skipn depth key = prefix_ n ++ b :: k' ->
  find_child n b = None ->
  set_loop (S fuel) key v [] depth (live n)
  = and_then (if is_full n then grow n else Ok n)
             (fun n' => Ok (None, live (set_child n' b (live (new_leaf k' v))))).
Proof.
  intros H Hc. pose proof (rest_length _ _ _ H) as L.
  pose proof H as R. apply skipn_skipn_rest in R.
  simpl. run_monad.
  unfold check_prefix. rewrite H, mismatch_app_l, L, length_app. simpl.
  fold (prefix_len_ n). rewrite Nat.min_l by lia. rewrite Nat.eqb_refl.
  bool_nat. rewrite index_skipn, H. unfold prefix_len_ at 1.
  rewrite index_app. run_monad. rewrite Hc.
  destruct (is_full n); run_monad.
  - unfold grow. destruct (class_ n); simpl; try reflexivity;
      unfold prefix_len_; simpl; rewrite <- Nat.add_assoc, R; reflexivity.
  - unfold prefix_len_. rewrite <- Nat.add_assoc, R. reflexivity.
Qed.

Lemma set_descend fuel key v depth n b k' c :
  skipn depth key = prefix_ n ++ b :: k' ->
  find_child n b = Some c ->
  set_loop (S fuel) key v [] depth (live n)
  = match set_loop fuel key v [] (depth + (prefix_len_ n + 1)) c with
    | Ok (a, c') => Ok (a, live (put_child n b c'))
    | Fault e => Fault e
    end.
Proof.
  intros H Hc. pose proof (rest_length _ _ _ H) as L.
  simpl. run_monad.
  unfold check_prefix. rewrite H, mismatch_app_l, L, length_app. simpl.
  fold (prefix_len_ n). rewrite Nat.min_l by lia. rewrite Nat.eqb_refl.
  bool_nat. rewrite index_skipn, H. unfold prefix_len_ at 1.
  rewrite index_app. run_monad. rewrite Hc.
  assert (Hl : slot_load [b] (live n) = Ok c) by (simpl; now rewrite Hc).
  rewrite (set_loop_local key v [b] fuel [] _ (live n) c Hl).
  unfold within. rewrite Hl. simpl. rewrite Hc.
  destruct (set_loop fuel key v [] (depth + (prefix_len_ n + 1)) c)
    as [[a c']|e]; reflexivity.
Qed.

(** ** The two prefix merges of [del] *)

(** Lines 428-433 write the three parts of the merged prefix one after
    the other. *)
Lemma child_prefix_concat (cur_prefix : list byte) k (old : list byte) :
  child_prefix cur_prefix k old = Ok (cur_prefix ++ k :: old).
Proof.
  unfold child_prefix, Buffer.alloc.
  replace (repeat None (List.length cur_prefix + 1 + List.length old))
    with ([] ++ repeat (@None byte) (List.length cur_prefix)
             ++ ([None] ++ repeat None (List.length old)))
    by (simpl; rewrite <- Nat.add_assoc, repeat_app; reflexivity).
  rewrite BufferFacts.memcpy_at;
    [|reflexivity|reflexivity|apply repeat_length].
  cbn [and_then]. rewrite app_nil_l.
  rewrite (BufferFacts.memcpy_at (map Some cur_prefix) [None] _ [k]);
    [|now rewrite length_map|reflexivity|reflexivity].
  cbn [and_then].
  rewrite app_assoc, <- (app_nil_r (repeat None (List.length old))).
  rewrite BufferFacts.memcpy_at;
    [|rewrite length_app, length_map; reflexivity|reflexivity
     |apply repeat_length].
  cbn [and_then]. rewrite app_nil_r, <- !map_app.
  rewrite BufferFacts.freeze_written. now rewrite <- app_assoc.
Qed.

(** Lines 369-375 store the sibling's partial key one cell too far: the
    cell at [prefix_len_] is never written, and the store lands past the
    end when the sibling had no prefix. *)
Lemma sibling_prefix_faults (par_prefix : list byte) k (old : list byte) :
  sibling_prefix par_prefix k old
  = Fault (match old with [] => OutOfBounds | _ :: _ => Indeterminate end).
Proof.
  unfold sibling_prefix, Buffer.alloc.
  replace (repeat None (List.length par_prefix + 1 + List.length old))
    with ([] ++ repeat (@None byte) (List.length par_prefix)
             ++ ([None] ++ repeat None (List.length old)))
    by (simpl; rewrite <- Nat.add_assoc, repeat_app; reflexivity).
  rewrite BufferFacts.memcpy_at;
    [|reflexivity|reflexivity|apply repeat_length].
  cbn [and_then]. rewrite app_nil_l.
  destruct old as [|o old].
  - rewrite BufferFacts.poke_past; [reflexivity|].
    rewrite length_app, length_map. simpl. lia.
  - cbn [List.length repeat].
    replace (List.length par_prefix + 1)
      with (List.length (map Some par_prefix ++ [None]))
      by (rewrite length_app, length_map; reflexivity).
    rewrite app_assoc, BufferFacts.poke_at. cbn [and_then].
    rewrite <- (app_nil_r (Some k :: repeat None (List.length old))).
    rewrite BufferFacts.memcpy_at;
      [|reflexivity|reflexivity|simpl; now rewrite repeat_length].
    cbn [and_then]. rewrite app_nil_r, <- app_assoc.
    apply BufferFacts.freeze_gap.
Qed.

(** ** One turn of the loop of [del], with [par] null as [del] leaves it *)

Lemma del_shorter fuel key cpk depth n b pt :
  prefix_ n = skipn depth key ++ b :: pt ->
  del_loop (S fuel) key None (Some []) cpk depth (live n)
  = Ok (None, live n).
Proof.
  intros H. simpl. run_monad. unfold check_prefix, prefix_len_.
  rewrite H, mismatch_app_r, length_app. simpl. now bool_nat.
Qed.

Lemma del_diverge fuel key cpk depth n c a pt b k' :
  prefix_ n = c ++ a :: pt -> skipn depth key = c ++ b :: k' -> a <> b ->
  del_loop (S fuel) key None (Some []) cpk depth (live n)
  = Ok (None, live n).
Proof.
  intros H1 H2 Hab. simpl. run_monad. unfold check_prefix, prefix_len_.
  rewrite H1, H2, (mismatch_diverge _ _ _ _ _ Hab), length_app. simpl.
  now bool_nat.
Qed.

Lemma del_exact fuel key cpk depth n :
  depth <= List.length key ->
  skipn depth key = prefix_ n ->
  del_loop (S fuel) key None (Some []) cpk depth (live n)
  = del_here None [] cpk n (live n).
Proof.
  intros Hd H. pose proof (rest_length _ _ _ H) as L. simpl. run_monad.
  unfold check_prefix, prefix_len_ in *. rewrite H, mismatch_same.
  rewrite Nat.eqb_refl. simpl. now bool_nat.
Qed.

Lemma del_here_leaf cpk n :
  children_ n = [] ->
  del_here None [] cpk n (live n) = Ok (value_ n, dangling).
Proof.
  intros H. unfold del_here, n_children. rewrite H. reflexivity.
Qed.

Lemma del_here_one cpk n k c :
  children_ n = [(k, c)] ->
  del_here None [] cpk n (live n)
  = match deref c with
    | Ok cn =>
        Ok (value_ n, live (with_prefix cn (prefix_ n ++ k :: prefix_ cn)))
    | Fault e => Fault e
    end.
Proof.
  intros H. unfold del_here, n_children. rewrite H. simpl. run_monad.
  unfold next_partial_key, child_of, find_child. simpl. rewrite H. simpl.
  rewrite eqb_refl. simpl.
  destruct (deref c) as [cn|e]; [|reflexivity]. simpl.
  rewrite child_prefix_concat. reflexivity.
Qed.

Lemma del_here_many cpk n :
  2 <= n_children n ->
  del_here None [] cpk n (live n) = Ok (value_ n, live (with_value n None)).
Proof.
  intros H. unfold del_here.
  destruct (n_children n) as [|[|m]] eqn:E; [lia|lia|]. reflexivity.
Qed.

Lemma del_no_child fuel key cpk depth n b k' :
  skipn depth key = prefix_ n ++ b :: k' ->
  find_child n b = None ->
  del_loop (S fuel) key None (Some []) cpk depth (live n)
  = Ok (None, live n).
Proof.
  intros H Hc. pose proof (rest_length _ _ _ H) as L. simpl. run_monad.
  unfold check_prefix. rewrite H, mismatch_app_l.
  fold (prefix_len_ n). rewrite Nat.eqb_refl. simpl.
  rewrite length_app in L. simpl in L. fold (prefix_len_ n) in L.
  bool_nat. rewrite index_skipn, H. unfold prefix_len_ at 1.
  rewrite index_app. run_monad. rewrite Hc. now destruct fuel.
Qed.

Lemma del_descend fuel key cpk depth n b k' c :
  skipn depth key = prefix_ n ++ b :: k' ->
  find_child n b = Some c ->
  del_loop (S fuel) key None (Some []) cpk depth (live n)
  = match del_loop fuel key None (Some []) (Some b)
                   (depth + (prefix_len_ n + 1)) c with
    | Ok (a, c') => Ok (a, live (put_child n b c'))
    | Fault e => Fault e
    end.
Proof.
  intros H Hc. pose proof (rest_length _ _ _ H) as L. simpl. run_monad.
  unfold check_prefix. rewrite H, mismatch_app_l.
  fold (prefix_len_ n). rewrite Nat.eqb_refl. simpl.
  rewrite length_app in L. simpl in L. fold (prefix_len_ n) in L.
  bool_nat. rewrite index_skipn, H. unfold prefix_len_ at 1.
  rewrite index_app. run_monad. rewrite Hc.
  assert (Hl : slot_load [b] (live n) = Ok c) by (simpl; now rewrite Hc).
  rewrite (del_loop_local key [b] fuel [] (Some b) _ (live n) c Hl).
  unfold within. rewrite Hl. simpl. rewrite Hc.
  destruct (del_loop fuel key None (Some []) (Some b)
                     (depth + (prefix_len_ n + 1)) c)
    as [[a c']|e]; reflexivity.
Qed.

End WithT.
End LoopFacts.

(* ================================================================== *)
(** * Well-formed trees and their bindings *)
(* ================================================================== *)

Module TreeFacts.
Import Node Art Tree BytesFacts PrefixFacts.

Section WithT.
Context {T : Type}.
Implicit Types (ch : list (byte * ptr T)) (n : node T).

Lemma assoc_in ch k c : assoc ch k = Some c -> In (k, c) ch.
Proof.
  induction ch as [|[k' c'] ch IH]; simpl; [discriminate|].
  destruct (Byte.eqb k' k) eqn:E.
  - apply eqb_eq in E. intros H. inversion H; subst. now left.
  - intros H. right. auto.
Qed.

Lemma assoc_none ch k c : assoc ch k = None -> ~ In (k, c) ch.
Proof.
  induction ch as [|[k' c'] ch IH]; simpl; [tauto|].
  destruct (Byte.eqb k' k) eqn:E; [discriminate|].
  intros H [H'|H']; [|now apply IH].
  inversion H'; subst. rewrite eqb_refl in E. discriminate.
Qed.

Lemma ascending_tail k c ch : ascending ((k, c) :: ch) = true ->
  ascending ch = true.
Proof.
  simpl. destruct ch as [|[k' c'] ch]; [reflexivity|].
  intros H. now apply andb_true_iff in H.
Qed.

(** In an ascending child map the first key is below all the others. *)
Lemma ascending_head k c ch k' c' :
  ascending ((k, c) :: ch) = true -> In (k', c') ch ->
  Bytes.ltb k k' = true.
Proof.
  revert k c. induction ch as [|[k1 c1] ch IH]; intros k c H Hin.
  - destruct Hin.
  - simpl in H. apply andb_true_iff in H. destruct H as [H1 H2].
    destruct Hin as [E|Hin].
    + inversion E; subst. exact H1.
    + apply ltb_trans with k1; [exact H1|]. now apply IH with c1.
Qed.

(** An ascending child map holds one child per key. *)
Lemma in_assoc ch k c :
  ascending ch = true -> In (k, c) ch -> assoc ch k = Some c.
Proof.
  induction ch as [|[k' c'] ch IH]; intros H Hin; [destruct Hin|].
  simpl. destruct Hin as [E|Hin].
  - inversion E; subst. now rewrite eqb_refl.
  - pose proof (ascending_head _ _ _ _ _ H Hin) as Hlt.
    apply ltb_neq in Hlt. apply eqb_neq in Hlt. rewrite Hlt.
    apply IH; [|exact Hin]. exact (ascending_tail _ _ _ H).
Qed.

Lemma wf_live n :
  wf (live n) = true <->
  ascending (children_ n) = true
  /\ forall k c, In (k, c) (children_ n) -> wf c = true.
Proof.
  simpl. rewrite andb_true_iff, forallb_forall. split.
  - intros [H1 H2]. split; [exact H1|].
    intros k c Hin. apply (H2 (k, c) Hin).
  - intros [H1 H2]. split; [exact H1|].
    intros [k c] Hin. simpl. now apply H2 with k.
Qed.

Lemma wf_child n k c :
  wf (live n) = true -> find_child n k = Some c -> wf c = true.
Proof.
  intros H Hc. apply wf_live in H. destruct H as [_ H].
  apply H with k. now apply assoc_in.
Qed.

Lemma wf_is_live (p : ptr T) : wf p = true -> exists n, p = live n.
Proof. destruct p; simpl; try discriminate. eauto. Qed.

(** A strictly ascending run of bytes, none below [lo], has at most
    [256 - lo] members. *)
Lemma ascending_length ch : forall lo,
  lo <= 256 ->
  ascending ch = true ->
  (forall k c, In (k, c) ch -> lo <= Byte.to_nat k) ->
  List.length ch + lo <= 256.
Proof.
  induction ch as [|[k c] ch IH]; intros lo L H Hlo.
  - simpl. lia.
  - pose proof (Byte.to_nat_bounded k) as Hk.
    assert (lo <= Byte.to_nat k) by (apply Hlo with c; now left).
    assert (List.length ch + S (Byte.to_nat k) <= 256).
    { apply IH; [lia|exact (ascending_tail _ _ _ H)|].
      intros k' c' Hin.
      pose proof (ascending_head _ _ _ _ _ H Hin) as Hlt.
      apply ltb_lt in Hlt. lia. }
    simpl. lia.
Qed.

(** If a byte at or above [lo] is missing from it, the run is shorter
    still: a full node of class N256 has a child under every byte. *)
Lemma ascending_gap ch b : forall lo,
  ascending ch = true ->
  (forall k c, In (k, c) ch -> lo <= Byte.to_nat k) ->
  lo <= Byte.to_nat b ->
  assoc ch b = None ->
  List.length ch + lo <= 255.
Proof.
  induction ch as [|[k c] ch IH]; intros lo H Hlo Hb Hnone; simpl.
  - pose proof (Byte.to_nat_bounded b). lia.
  - simpl in Hnone. destruct (Byte.eqb k b) eqn:E; [discriminate|].
    apply eqb_neq in E.
    assert (Hk : lo <= Byte.to_nat k) by (apply Hlo with c; now left).
    assert (Hrest : forall k' c', In (k', c') ch ->
                                  S (Byte.to_nat k) <= Byte.to_nat k').
    { intros k' c' Hin. pose proof (ascending_head _ _ _ _ _ H Hin) as Hlt.
      apply ltb_lt in Hlt. lia. }
    pose proof (ascending_tail _ _ _ H) as Ht.
    destruct (Nat.lt_ge_cases (Byte.to_nat k) (Byte.to_nat b)) as [Lt|Ge].
    + specialize (IH (S (Byte.to_nat k)) Ht Hrest Lt Hnone). lia.
    + assert (Byte.to_nat k <> Byte.to_nat b)
        by (intros Heq; apply E; now apply to_nat_inj).
      pose proof (Byte.to_nat_bounded k).
      assert (List.length ch + S (Byte.to_nat k) <= 256)
        by (apply ascending_length; [lia|exact Ht|exact Hrest]).
      lia.
Qed.

(** On a well-formed node [grow] is only asked for where it is defined. *)
Lemma grow_defined n b :
  wf (live n) = true -> find_child n b = None ->
  exists n', (if is_full n then grow n else Ok n) = Ok n'
             /\ prefix_ n' = prefix_ n /\ value_ n' = value_ n
             /\ children_ n' = children_ n.
Proof.
  intros H Hb. apply wf_live in H. destruct H as [Ha _].
  destruct (is_full n) eqn:F; [|eauto].
  unfold grow. destruct (class_ n) eqn:C; simpl; eauto.
  exfalso. unfold is_full in F. rewrite C in F. cbn [capacity] in F.
  apply Nat.leb_le in F.
  assert (List.length (children_ n) + 0 <= 255).
  { apply ascending_gap with b; auto; intros; lia. }
  unfold n_children in F. lia.
Qed.

(** ** The bindings of a node, by the way prefix and key relate *)

Lemma entries_live n key x :
  In (key, x) (entries (live n)) <->
  (key = prefix_ n /\ value_ n = Some x)
  \/ (exists b c rest, key = prefix_ n ++ b :: rest
                       /\ In (b, c) (children_ n)
                       /\ In (rest, x) (entries c)).
Proof.
  simpl. rewrite in_map_iff. split.
  - intros [[k y] [E Hin]]. simpl in E. inversion E; subst.
    apply in_app_iff in Hin. destruct Hin as [Hin|Hin].
    + left. destruct (value_ n) as [v|]; [|destruct Hin].
      destruct Hin as [Hin|[]]. inversion Hin; subst.
      now rewrite app_nil_r.
    + right. apply in_flat_map in Hin. destruct Hin as [[b c] [Hc Hin]].
      apply in_map_iff in Hin. destruct Hin as [[r z] [E' Hin]].
      simpl in E'. inversion E'; subst. now exists b, c, r.
  - intros [[-> Hv]|[b [c [rest [-> [Hc Hin]]]]]].
    + exists ([], x). split; [simpl; now rewrite app_nil_r|].
      apply in_app_iff. left. rewrite Hv. now left.
    + exists (b :: rest, x). split; [reflexivity|].
      apply in_app_iff. right. apply in_flat_map.
      exists (b, c). split; [exact Hc|].
      apply in_map_iff. now exists (rest, x).
Qed.

Lemma app_cons_not_self {A} (l : list A) x r : l <> l ++ x :: r.
Proof.
  intros H. apply (f_equal (@List.length A)) in H.
  rewrite length_app in H. simpl in H. lia.
Qed.

Lemma app_cons_not_self' {A} (l : list A) x r : l ++ x :: r <> l.
Proof. intros H. symmetry in H. now apply app_cons_not_self in H. Qed.

Lemma entries_exact n x :
  In (prefix_ n, x) (entries (live n)) <-> value_ n = Some x.
Proof.
  rewrite entries_live. split.
  - intros [[_ H]|[b [c [rest [E _]]]]]; [exact H|].
    now apply app_cons_not_self in E.
  - intros H. now left.
Qed.

Lemma entries_shorter n rest b pt x :
  prefix_ n = rest ++ b :: pt -> ~ In (rest, x) (entries (live n)).
Proof.
  intros H Hin. apply entries_live in Hin.
  destruct Hin as [[E _]|[b' [c [r [E _]]]]].
  - rewrite E in H. now apply app_cons_not_self in H.
  - rewrite H, <- app_assoc in E. now apply app_cons_not_self in E.
Qed.

Lemma entries_diverge n c a pt b k' x :
  prefix_ n = c ++ a :: pt -> a <> b ->
  ~ In (c ++ b :: k', x) (entries (live n)).
Proof.
  intros H Hab Hin. apply entries_live in Hin.
  destruct Hin as [[E _]|[b' [c' [r [E _]]]]].
  - rewrite H in E. apply app_inv_head in E. congruence.
  - rewrite H, <- app_assoc in E. apply app_inv_head in E.
    simpl in E. congruence.
Qed.

Lemma entries_continue n b k' x :
  wf (live n) = true ->
  In (prefix_ n ++ b :: k', x) (entries (live n)) <->
  exists c, find_child n b = Some c /\ In (k', x) (entries c).
Proof.
  intros W. apply wf_live in W. destruct W as [Ha _].
  rewrite entries_live. split.
  - intros [[E _]|[b' [c [r [E [Hc Hin]]]]]].
    + symmetry in E. now apply app_cons_not_self in E.
    + apply app_inv_head in E. inversion E; subst.
      exists c. split; [now apply in_assoc|exact Hin].
  - intros [c [Hc Hin]]. right. exists b, c, k'.
    split; [reflexivity|]. split; [now apply assoc_in|exact Hin].
Qed.

(** ** Child maps under [set_child] and under a write through a slot *)

Lemma in_insert ch k0 (c0 : ptr T) k c :
  In (k, c) (insert ch k0 c0) <-> (k = k0 /\ c = c0) \/ In (k, c) ch.
Proof.
  induction ch as [|[k1 c1] ch IH]; simpl.
  - split; [intros [E|[]]; inversion E; auto|].
    intros [[-> ->]|[]]. now left.
  - destruct (Bytes.ltb k0 k1); simpl.
    + split; [intros [E|H]; [inversion E|]; auto|].
      intros [[-> ->]|H]; auto.
    + rewrite IH. tauto.
Qed.

Lemma ascending_cons k (c : ptr T) ch :
  ascending ch = true ->
  (forall k' c', In (k', c') ch -> Bytes.ltb k k' = true) ->
  ascending ((k, c) :: ch) = true.
Proof.
  intros H Hlt. simpl. destruct ch as [|[k1 c1] ch]; [reflexivity|].
  rewrite H, (Hlt k1 c1) by now left. reflexivity.
Qed.

Lemma ascending_insert ch k0 (c0 : ptr T) :
  ascending ch = true -> assoc ch k0 = None ->
  ascending (insert ch k0 c0) = true.
Proof.
  induction ch as [|[k1 c1] ch IH]; intros H Hn; [reflexivity|].
  simpl in Hn. destruct (Byte.eqb k1 k0) eqn:E; [discriminate|].
  apply eqb_neq in E. cbn [insert].
  destruct (Bytes.ltb k0 k1) eqn:L.
  - apply ascending_cons; [exact H|].
    intros k' c' [Heq|Hin].
    + inversion Heq; subst. exact L.
    + apply ltb_trans with k1; [exact L|].
      exact (ascending_head _ _ _ _ _ H Hin).
  - apply ascending_cons.
    + apply IH; [exact (ascending_tail _ _ _ H)|exact Hn].
    + intros k' c' Hin. apply in_insert in Hin.
      destruct Hin as [[-> ->]|Hin].
      * apply ltb_total; [congruence|exact L].
      * exact (ascending_head _ _ _ _ _ H Hin).
Qed.

Lemma in_replace ch k0 (c0 c1 : ptr T) k c :
  ascending ch = true -> assoc ch k0 = Some c1 ->
  In (k, c) (replace ch k0 c0) <->
  (k = k0 /\ c = c0) \/ (k <> k0 /\ In (k, c) ch).
Proof.
  induction ch as [|[k1 d] ch IH]; intros H Hs; [discriminate|].
  simpl in Hs. cbn [replace]. destruct (Byte.eqb k1 k0) eqn:E.
  - apply eqb_eq in E. subst k1. simpl. split.
    + intros [Heq|Hin]; [inversion Heq; auto|]. right. split; [|auto].
      pose proof (ascending_head _ _ _ _ _ H Hin) as L.
      apply ltb_neq in L. congruence.
    + intros [[-> ->]|[Hne [Heq|Hin]]]; auto.
      inversion Heq; congruence.
  - pose proof E as Hne. apply eqb_neq in Hne. simpl.
    rewrite (IH (ascending_tail _ _ _ H) Hs). split.
    + intros [Heq|[[-> ->]|[Hk Hin]]]; auto.
      inversion Heq; subst. right. auto.
    + intros [[-> ->]|[Hk [Heq|Hin]]]; auto.
Qed.

Lemma replace_keys ch k0 (c0 : ptr T) :
  map fst (replace ch k0 c0) = map fst ch.
Proof.
  induction ch as [|[k1 d] ch IH]; [reflexivity|].
  cbn [replace]. destruct (Byte.eqb k1 k0); simpl; congruence.
Qed.

Lemma ascending_keys ch ch' :
  map fst ch = map fst ch' -> ascending ch = ascending (T:=T) ch'.
Proof.
  revert ch'. induction ch as [|[k c] ch IH]; intros [|[k' c'] ch'] H;
    try discriminate; [reflexivity|].
  simpl in H. inversion H; subst. specialize (IH ch' H2).
  simpl. destruct ch as [|[k1 c1] ch], ch' as [|[k1' c1'] ch'];
    try discriminate; [reflexivity|].
  simpl in H2. inversion H2; subst. now rewrite IH.
Qed.

Lemma ascending_replace ch k0 (c0 : ptr T) :
  ascending (replace ch k0 c0) = ascending ch.
Proof. apply ascending_keys, replace_keys. Qed.

(** ** Bindings under a change of prefix *)

Lemma entries_with_prefix n q key x :
  In (key, x) (entries (live (with_prefix n q))) <->
  exists k0, key = q ++ k0 /\ In (prefix_ n ++ k0, x) (entries (live n)).
Proof.
  simpl. rewrite in_map_iff. split.
  - intros [[k y] [E Hin]]. simpl in E. inversion E; subst.
    exists k. split; [reflexivity|]. apply in_map_iff. now exists (k, x).
  - intros [k0 [-> Hin]]. apply in_map_iff in Hin.
    destruct Hin as [[k y] [E Hin]]. simpl in E. inversion E; subst.
    apply app_inv_head in H0. subst. now exists (k0, x).
Qed.

(** Every key below a node starts with the prefix of the node. *)
Lemma entries_prefixed n key x :
  In (key, x) (entries (live n)) -> exists k0, key = prefix_ n ++ k0.
Proof.
  simpl. rewrite in_map_iff. intros [[k y] [E _]].
  simpl in E. inversion E. now exists k.
Qed.

Lemma wf_with_prefix n q : wf (live (with_prefix n q)) = wf (live n).
Proof. reflexivity. Qed.

Lemma wf_with_value n v : wf (live (with_value n v)) = wf (live n).
Proof. reflexivity. Qed.

End WithT.
End TreeFacts.

(* ================================================================== *)
(** * [get] *)
(* ================================================================== *)

Module GetFacts.
Import Bytes Node Art Tree BytesFacts PrefixFacts SlotFacts LoopFacts TreeFacts.

Section WithT.
Context {T : Type}.
Implicit Types (n : node T).

(** On a well-formed subtree the loop of [get] returns, and what it
    returns is the binding of the rest of the key. *)
Lemma get_loop_spec key : forall fuel depth (p : ptr T),
  wf p = true ->
  List.length (skipn depth key) < fuel ->
  exists r, get_loop fuel key p depth = Ok r
            /\ forall x, r = Some x <-> In (skipn depth key, x) (entries p).
Proof.
  induction fuel as [|fuel IH]; intros depth p W F; [lia|].
  destruct (wf_is_live _ W) as [n ->].
  destruct (classify (prefix_ n) (skipn depth key))
    as [E|b pt E|c a pt b k' E1 E2 Hab|b k' E].
  - exists (value_ n). split; [now apply get_exact|].
    intros x. rewrite <- E. now rewrite entries_exact.
  - exists None. split; [now apply get_shorter with b pt|].
    intros x. split; [discriminate|].
    intros H. now apply (entries_shorter _ _ _ _ _ E) in H.
  - exists None. split; [now apply get_diverge with c a pt b k'|].
    intros x. split; [discriminate|].
    intros H. rewrite E2 in H.
    now apply (entries_diverge _ _ _ _ _ _ _ E1 Hab) in H.
  - rewrite (get_continue _ _ _ _ _ _ E).
    pose proof E as R. apply skipn_skipn_rest in R.
    rewrite <- Nat.add_assoc. unfold prefix_len_.
    destruct (find_child n b) as [c|] eqn:Hc.
    + destruct (IH (depth + (List.length (prefix_ n) + 1)) c)
        as [r [Hr Hx]].
      * now apply wf_child with n b.
      * rewrite R. rewrite E, length_app in F. simpl in F. lia.
      * exists r. split; [exact Hr|]. intros x.
        rewrite Hx, R, E, (entries_continue n b k' x W), Hc.
        split; [intros H; now exists c|].
        intros [c' [Hc' H]]. congruence.
    + exists None. split; [apply get_loop_null|].
      intros x. rewrite E, (entries_continue n b k' x W), Hc.
      split; [discriminate|]. intros [c' [Hc' _]]. discriminate.
Qed.

(** On a well-formed tree [get] returns. *)
Lemma get_total (t : art T) key :
  wf_tree t = true -> exists r, get key t = Ok (r, t).
Proof.
  intros W. unfold get, bind, load, lift, root_slot, slot_load.
  unfold wf_tree in W. apply orb_true_iff in W. destruct W as [N|W].
  - destruct t; try discriminate. simpl. eauto.
  - destruct (get_loop_spec key (budget key) 0 t W) as [r [Hr _]].
    + unfold budget. simpl. lia.
    + rewrite Hr. eauto.
Qed.

(** C10: for every tree state and every key, [get] leaves the tree as it
    found it: when it returns, the tree it leaves is the tree it was given,
    node for node; it fails to return only on a tree that is not well
    formed (one that holds a null or stale child pointer), where it reads
    through that pointer. *)
Theorem get_leaves_tree_unchanged (t : art T) (key : list byte) :
  (exists r, get key t = Ok (r, t))
  \/ (exists e, get key t = Fault e /\ wf_tree t = false).
Proof.
  destruct (wf_tree t) eqn:W.
  - left. now apply get_total.
  - unfold get, bind, load, lift, root_slot, slot_load.
    destruct (get_loop (budget key) key t 0) as [r|e]; eauto.
Qed.

End WithT.
End GetFacts.

(* ================================================================== *)
(** * [set] *)
(* ================================================================== *)

Module SetFacts.
Import Bytes Node Art Tree BytesFacts PrefixFacts SlotFacts LoopFacts TreeFacts.
Import GetFacts.

Section WithT.
Context {T : Type}.
Implicit Types (n : node T).

(** On a well-formed subtree the loop of [set] returns, and the value it
    returns is the one the loop of [get] finds for the same key. *)
Lemma set_loop_returns key v : forall fuel depth (p : ptr T),
  wf p = true ->
  List.length (skipn depth key) < fuel ->
  exists r p', set_loop fuel key v [] depth p = Ok (r, p')
               /\ get_loop fuel key p depth = Ok r.
Proof.
  induction fuel as [|fuel IH]; intros depth p W F; [lia|].
  destruct (wf_is_live _ W) as [n ->].
  destruct (classify (prefix_ n) (skipn depth key))
    as [E|b pt E|c a pt b k' E1 E2 Hab|b k' E].
  - symmetry in E.
    rewrite (set_exact fuel key v depth n E), (get_exact fuel key depth n E).
    eauto.
  - rewrite (set_shorter fuel key v depth n b pt E).
    rewrite (get_shorter fuel key depth n b pt E). eauto.
  - rewrite (set_diverge fuel key v depth n c a pt b k' E1 E2 Hab).
    rewrite (get_diverge fuel key depth n c a pt b k' E1 E2 Hab). eauto.
  - rewrite (get_continue fuel key depth n b k' E).
    destruct (find_child n b) as [c|] eqn:Hc.
    + rewrite (set_descend fuel key v depth n b k' c E Hc).
      rewrite <- Nat.add_assoc.
      destruct (IH (depth + (prefix_len_ n + 1)) c) as [r [c' [Hs Hg]]].
      * now apply wf_child with n b.
      * unfold prefix_len_. rewrite (skipn_skipn_rest _ _ _ _ _ E).
        rewrite E, length_app in F. simpl in F. lia.
      * rewrite Hs, Hg. eauto.
    + rewrite (set_new_leaf fuel key v depth n b k' E Hc).
      destruct (grow_defined n b W Hc) as [n' [G _]]. rewrite G. simpl.
      rewrite get_loop_null. eauto.
Qed.

(** ** What [set] does to the bindings, branch by branch *)

Lemma updated_replace n v :
  updated (entries (live n)) (prefix_ n) v
          (entries (live (with_value n (Some v)))).
Proof.
  intros k x. rewrite !entries_live. simpl. split.
  - intros [[-> H]|[b [c [r [-> H]]]]].
    + left. split; congruence.
    + right. split; [apply app_cons_not_self'|].
      right. now exists b, c, r.
  - intros [[-> ->]|[Hne [[-> _]|H]]]; auto. congruence.
Qed.

Lemma updated_expand n rest b pt v :
  prefix_ n = rest ++ b :: pt ->
  updated (entries (live n)) rest v
          (entries (live (set_child
                            (with_prefix (with_value node_4 (Some v)) rest)
                            b (live (with_prefix n pt))))).
Proof.
  intros P k x. rewrite entries_live.
  cbn [set_child with_children with_prefix with_value node_4 prefix_
       value_ children_ insert]. split.
  - intros [[-> H]|[b' [c [r [-> [[E|[]] H]]]]]].
    + left. split; congruence.
    + inversion E; subst. apply entries_with_prefix in H.
      destruct H as [k0 [-> H]]. right.
      split; [apply app_cons_not_self'|].
      rewrite P, <- app_assoc in H. exact H.
  - intros [[-> ->]|[Hne H]]; auto.
    right. destruct (entries_prefixed _ _ _ H) as [k0 ->].
    exists b, (live (with_prefix n pt)), (pt ++ k0).
    split; [now rewrite P, <- app_assoc|]. split; [now left|].
    apply entries_with_prefix. now exists k0.
Qed.

Lemma entries_new_leaf rest (v : T) key x :
  In (key, x) (entries (live (new_leaf rest (Some v)))) <->
  key = rest /\ x = v.
Proof.
  simpl. rewrite app_nil_r. split.
  - intros [E|[]]. inversion E. auto.
  - intros [-> ->]. now left.
Qed.

Lemma updated_split n c a pt b k' v :
  prefix_ n = c ++ a :: pt -> a <> b ->
  updated (entries (live n)) (c ++ b :: k') v
          (entries (live (set_child
                            (set_child (with_prefix node_4 c) a
                                       (live (with_prefix n pt)))
                            b (live (new_leaf k' (Some v)))))).
Proof.
  intros P Hab k x. rewrite entries_live.
  cbn [set_child with_children with_prefix node_4 prefix_ value_
       children_]. split.
  - intros [[_ H]|[b' [d [r [-> [Hin H]]]]]]; [discriminate|].
    apply in_insert in Hin. destruct Hin as [[-> ->]|Hin].
    + apply entries_new_leaf in H. destruct H as [-> ->]. now left.
    + destruct Hin as [E|[]]. inversion E; subst.
      apply entries_with_prefix in H. destruct H as [k0 [-> H]].
      right. split.
      * intros E'. apply app_inv_head in E'. congruence.
      * rewrite P, <- app_assoc in H. exact H.
  - intros [[-> ->]|[Hne H]].
    + right. exists b, (live (new_leaf k' (Some v))), k'.
      split; [reflexivity|]. split; [apply in_insert; now left|].
      now apply entries_new_leaf.
    + right. destruct (entries_prefixed _ _ _ H) as [k0 ->].
      exists a, (live (with_prefix n pt)), (pt ++ k0).
      split; [now rewrite P, <- app_assoc|].
      split; [apply in_insert; right; now left|].
      apply entries_with_prefix. now exists k0.
Qed.

Lemma updated_new_leaf n n' b k' v :
  prefix_ n' = prefix_ n -> value_ n' = value_ n ->
  children_ n' = children_ n ->
  find_child n b = None ->
  updated (entries (live n)) (prefix_ n ++ b :: k') v
          (entries (live (set_child n' b (live (new_leaf k' (Some v)))))).
Proof.
  intros P V C Hn k x. rewrite !entries_live.
  cbn [set_child with_children prefix_ value_ children_].
  rewrite P, V, C. split.
  - intros [[-> H]|[b' [d [r [-> [Hin H]]]]]].
    + right. split; [apply app_cons_not_self|]. now left.
    + apply in_insert in Hin. destruct Hin as [[-> ->]|Hin].
      * apply entries_new_leaf in H. destruct H as [-> ->]. now left.
      * right. split.
        -- intros E. apply app_inv_head in E. inversion E; subst.
           now apply (assoc_none _ _ d Hn).
        -- right. now exists b', d, r.
  - intros [[-> ->]|[Hne [H|[b' [d [r [-> [Hin H]]]]]]]].
    + right. exists b, (live (new_leaf k' (Some v))), k'.
      split; [reflexivity|]. split; [apply in_insert; now left|].
      now apply entries_new_leaf.
    + now left.
    + right. exists b', d, r. split; [reflexivity|].
      split; [apply in_insert; now right|exact H].
Qed.

Lemma updated_below n b c c' k' v :
  wf (live n) = true -> find_child n b = Some c ->
  updated (entries c) k' v (entries c') ->
  updated (entries (live n)) (prefix_ n ++ b :: k') v
          (entries (live (put_child n b c'))).
Proof.
  intros W Hc U k x. apply wf_live in W. destruct W as [Ha _].
  rewrite !entries_live.
  cbn [put_child with_children prefix_ value_ children_]. split.
  - intros [[-> H]|[b' [d [r [-> [Hin H]]]]]].
    + right. split; [apply app_cons_not_self|]. now left.
    + apply (in_replace _ _ _ _ _ _ Ha Hc) in Hin.
      destruct Hin as [[-> ->]|[Hne Hin]].
      * apply U in H. destruct H as [[-> ->]|[Hne H]]; [now left|].
        right. split.
        -- intros E. apply app_inv_head in E. congruence.
        -- right. exists b, c, r. split; [reflexivity|].
           split; [now apply assoc_in|exact H].
      * right. split.
        -- intros E. apply app_inv_head in E. congruence.
        -- right. now exists b', d, r.
  - intros [[-> ->]|[Hne [H|[b' [d [r [-> [Hin H]]]]]]]].
    + right. exists b, c', k'. split; [reflexivity|].
      split; [apply (in_replace _ _ _ _ _ _ Ha Hc); now left|].
      apply U. now left.
    + now left.
    + right. destruct (Byte.byte_eq_dec b' b) as [->|Hb].
      * assert (d = c) as ->
            by (pose proof (in_assoc _ _ _ Ha Hin); unfold find_child in Hc;
                congruence).
        exists b, c', r. split; [reflexivity|].
        split; [apply (in_replace _ _ _ _ _ _ Ha Hc); now left|].
        apply U. right. split; [congruence|exact H].
      * exists b', d, r. split; [reflexivity|].
        split; [apply (in_replace _ _ _ _ _ _ Ha Hc); now right|exact H].
Qed.

Lemma wf_live_intro n :
  ascending (children_ n) = true ->
  (forall k c, In (k, c) (children_ n) -> wf c = true) ->
  wf (live n) = true.
Proof. intros H1 H2. apply wf_live. auto. Qed.

(** On a well-formed subtree the loop of [set] returns a well-formed
    subtree that binds the rest of the key to the new value and every
    other key as before. *)
Lemma set_loop_updates key v : forall fuel depth (p : ptr T),
  wf p = true ->
  List.length (skipn depth key) < fuel ->
  exists r p', set_loop fuel key (Some v) [] depth p = Ok (r, p')
               /\ wf p' = true
               /\ updated (entries p) (skipn depth key) v (entries p').
Proof.
  induction fuel as [|fuel IH]; intros depth p W F; [lia|].
  destruct (wf_is_live _ W) as [n ->].
  pose proof W as W'. apply wf_live in W'. destruct W' as [Ha Hch].
  destruct (classify (prefix_ n) (skipn depth key))
    as [E|b pt E|c a pt b k' E1 E2 Hab|b k' E].
  - symmetry in E. rewrite (set_exact fuel key (Some v) depth n E).
    eexists. eexists. split; [reflexivity|]. split; [exact W|].
    rewrite E. apply updated_replace.
  - rewrite (set_shorter fuel key (Some v) depth n b pt E).
    eexists. eexists. split; [reflexivity|]. split.
    + apply wf_live_intro; [reflexivity|].
      intros k c [H|[]]. inversion H; subst. exact W.
    + now apply updated_expand.
  - rewrite (set_diverge fuel key (Some v) depth n c a pt b k' E1 E2 Hab).
    eexists. eexists. split; [reflexivity|]. split.
    + apply wf_live_intro.
      * cbn [set_child with_children children_ with_prefix node_4].
        apply ascending_insert; [reflexivity|].
        simpl. apply eqb_neq in Hab. now rewrite Hab.
      * cbn [set_child with_children children_ with_prefix node_4].
        intros k d Hin. apply in_insert in Hin.
        destruct Hin as [[-> ->]|[H|[]]]; [reflexivity|].
        inversion H; subst. exact W.
    + rewrite E2. now apply updated_split.
  - destruct (find_child n b) as [c|] eqn:Hc.
    + rewrite (set_descend fuel key (Some v) depth n b k' c E Hc).
      destruct (IH (depth + (prefix_len_ n + 1)) c) as [r [c' [Hs [Wc U]]]].
      * now apply wf_child with n b.
      * unfold prefix_len_. rewrite (skipn_skipn_rest _ _ _ _ _ E).
        rewrite E, length_app in F. simpl in F. lia.
      * rewrite Hs. eexists. eexists. split; [reflexivity|]. split.
        -- apply wf_live_intro.
           ++ cbn [put_child with_children children_].
              now rewrite ascending_replace.
           ++ cbn [put_child with_children children_].
              intros k d Hin. apply (in_replace _ _ _ _ _ _ Ha Hc) in Hin.
              destruct Hin as [[-> ->]|[_ Hin]]; [exact Wc|].
              now apply Hch with k.
        -- rewrite E. apply updated_below with c; [exact W|exact Hc|].
           unfold prefix_len_ in U.
           now rewrite (skipn_skipn_rest _ _ _ _ _ E) in U.
    + rewrite (set_new_leaf fuel key (Some v) depth n b k' E Hc).
      destruct (grow_defined n b W Hc) as [n' [G [P [V C]]]].
      rewrite G. simpl.
      eexists. eexists. split; [reflexivity|]. split.
      * apply wf_live_intro.
        -- cbn [set_child with_children children_]. rewrite C.
           now apply ascending_insert.
        -- cbn [set_child with_children children_]. rewrite C.
           intros k d Hin. apply in_insert in Hin.
           destruct Hin as [[-> ->]|Hin]; [reflexivity|].
           now apply Hch with k.
      * rewrite E. now apply updated_new_leaf.
Qed.

(** [set] on a well-formed tree. *)
Lemma set_updates (t : art T) key v :
  wf_tree t = true ->
  exists old t', set key (Some v) t = Ok (old, t')
                 /\ wf_tree t' = true
                 /\ updated (entries t) key v (entries t').
Proof.
  intros W. unfold wf_tree in W. apply orb_true_iff in W.
  destruct W as [N|W].
  - destruct t; try discriminate. exists None. eexists.
    split; [reflexivity|]. split; [reflexivity|].
    intros k x. rewrite entries_new_leaf. simpl. tauto.
  - destruct (wf_is_live _ W) as [n ->].
    destruct (set_loop_updates key v (budget key) 0 (live n) W)
      as [r [p' [Hs [W' U]]]]; [unfold budget; simpl; lia|].
    exists r, p'. split; [exact Hs|]. split; [|exact U].
    unfold wf_tree. rewrite W'. apply orb_true_r.
Qed.

(** [get] on a well-formed tree. *)
Lemma get_binding (t : art T) key :
  wf_tree t = true ->
  exists r, get key t = Ok (r, t) /\ forall x, r = Some x <-> binds t key x.
Proof.
  intros W. unfold wf_tree in W. apply orb_true_iff in W.
  destruct W as [N|W].
  - destruct t; try discriminate. exists None.
    split; [reflexivity|]. intros x. unfold binds. simpl.
    split; [discriminate|tauto].
  - destruct (get_loop_spec key (budget key) 0 t W) as [r [Hr Hx]];
      [unfold budget; simpl; lia|].
    exists r. split; [|exact Hx].
    unfold get, bind, load, lift, root_slot, slot_load. now rewrite Hr.
Qed.

(** A tree binds a key to one value at most: what [get] returns is fixed
    by the bindings. *)
Lemma binding_unique (r r' : option T) (P : T -> Prop) :
  (forall x, r = Some x <-> P x) -> (forall x, r' = Some x <-> P x) ->
  r = r'.
Proof.
  intros H H'. destruct r as [x|].
  - symmetry. apply H'. now apply H.
  - destruct r' as [x|]; [|reflexivity].
    apply H. now apply H'.
Qed.

(** What [set] returns is the binding the key had. *)
Lemma set_returns_bound (t : art T) (key : list byte) (v : T) :
  wf_tree t = true ->
  exists old t', set key (Some v) t = Ok (old, t')
                 /\ forall x, old = Some x <-> binds t key x.
Proof.
  intros W. unfold wf_tree in W. apply orb_true_iff in W.
  destruct W as [N|W].
  - destruct t; try discriminate. exists None. eexists.
    split; [reflexivity|]. intros x. unfold binds. simpl.
    split; [discriminate|tauto].
  - destruct (wf_is_live _ W) as [n ->].
    destruct (set_loop_returns key (Some v) (budget key) 0 (live n) W)
      as [r [p' [Hs Hg]]]; [unfold budget; simpl; lia|].
    destruct (get_loop_spec key (budget key) 0 (live n) W)
      as [r' [Hg' Hx]]; [unfold budget; simpl; lia|].
    assert (r' = r) as -> by congruence.
    exists r, p'. split; [|exact Hx].
    unfold set, bind, load, root_slot, slot_load. simpl is_null. cbv iota.
    exact Hs.
Qed.

(** C7: for every key, of any length, and every value handle, [set] on a
    well-formed tree returns the handle that was bound to exactly that key,
    and no handle if the key was not bound: the handle returned is not
    null only when the key ends on a node that holds a value, the
    exact-match replace case. *)
Theorem set_returns_previous_binding (t : art T) (key : list byte) (v : T) :
  wf_tree t = true ->
  exists old t', set key (Some v) t = Ok (old, t')
                 /\ forall x, old = Some x <-> binds t key x.
Proof. apply set_returns_bound. Qed.

(** After [set] on a well-formed tree, [get] finds the new value under
    the key and, under every other key, what it found before. *)
Lemma set_then_get (t : art T) key v :
  wf_tree t = true ->
  exists old t',
    set key (Some v) t = Ok (old, t')
    /\ wf_tree t' = true
    /\ returned (get key t') = Ok (Some v)
    /\ forall k, k <> key -> returned (get k t') = returned (get k t).
Proof.
  intros W. destruct (set_updates t key v W) as [old [t' [Hs [W' U]]]].
  exists old, t'. split; [exact Hs|]. split; [exact W'|]. split.
  - destruct (get_binding t' key W') as [r [Hg Hx]]. rewrite Hg. simpl.
    f_equal. apply Hx. apply U. now left.
  - intros k Hk.
    destruct (get_binding t' k W') as [r1 [Hg1 Hx1]].
    destruct (get_binding t k W) as [r2 [Hg2 Hx2]].
    rewrite Hg1, Hg2. simpl. f_equal.
    apply binding_unique with (fun x => binds t k x); [|exact Hx2].
    intros x. rewrite Hx1. unfold binds. rewrite (U k x). tauto.
Qed.

(** Two [set]s of one key in a row: the second returns the value of the
    first, and [get] then finds the value of the second. *)
Lemma set_twice (t : art T) key v1 v2 :
  wf_tree t = true ->
  exists old t1 t2,
    set key (Some v1) t = Ok (old, t1)
    /\ set key (Some v2) t1 = Ok (Some v1, t2)
    /\ returned (get key t2) = Ok (Some v2).
Proof.
  intros W. destruct (set_updates t key v1 W) as [old [t1 [Hs1 [W1 U1]]]].
  destruct (set_returns_bound t1 key v2 W1) as [old2 [t2 [Hs2 Hx]]].
  destruct (set_then_get t1 key v2 W1) as [old2' [t2' [Hs2' [_ [Hg _]]]]].
  assert (old2 = Some v1) as ->
      by (apply Hx; unfold binds; apply U1; now left).
  rewrite Hs2 in Hs2'. inversion Hs2'; subst.
  now exists old, t1, t2'.
Qed.

(** C8: the empty key is a key.  [set] of the empty key on the empty tree
    makes a root with an empty prefix that holds the value, and [get] of
    the empty key then returns it, where it returned nothing before.  On
    every well-formed tree, [set] of the empty key binds it and leaves
    what [get] returns for every non-empty key as it was, and [set] of a
    non-empty key leaves what [get] returns for the empty key as it
    was. *)
Theorem empty_key_is_a_key (v : T) :
  returned (get [] (@empty T)) = Ok None
  /\ set [] (Some v) empty = Ok (None, live (mk_node [] (Some v) N0 []))
  /\ get [] (live (mk_node [] (Some v) N0 []))
     = Ok (Some v, live (mk_node [] (Some v) N0 []))
  /\ forall t : art T, wf_tree t = true ->
       (exists old t',
           set [] (Some v) t = Ok (old, t')
           /\ returned (get [] t') = Ok (Some v)
           /\ forall k, k <> [] ->
                        returned (get k t') = returned (get k t))
       /\ (forall k, k <> [] ->
            exists old t',
              set k (Some v) t = Ok (old, t')
              /\ returned (get [] t') = returned (get [] t)).
Proof.
  split; [reflexivity|]. split; [reflexivity|]. split; [reflexivity|].
  intros t W. split.
  - destruct (set_then_get t [] v W) as [old [t' [Hs [_ [Hg Hk]]]]].
    now exists old, t'.
  - intros k Hk.
    destruct (set_then_get t k v W) as [old [t' [Hs [_ [_ Hf]]]]].
    exists old, t'. split; [exact Hs|]. apply Hf. congruence.
Qed.

End WithT.

Lemma empty_key_is_a_key_witness :
  let t := live (new_leaf (of_string "a") (Some 1)) in
  wf_tree t = true
  /\ (exists old t',
         set [] (Some 2) t = Ok (old, t')
         /\ returned (get [] t') = Ok (Some 2)
         /\ returned (get (of_string "a") t')
            = returned (get (of_string "a") t))
  /\ (exists old t',
         set (of_string "b") (Some 2) t = Ok (old, t')
         /\ returned (get [] t') = returned (get [] t)).
Proof.
  split; [reflexivity|].
  destruct (proj2 (proj2 (proj2 (empty_key_is_a_key 2)))
              (live (new_leaf (of_string "a") (Some 1))) eq_refl)
    as [[old [t' [Hs [Hg Hk]]]] Hn].
  split.
  - exists old, t'. split; [exact Hs|]. split; [exact Hg|].
    apply Hk. discriminate.
  - apply Hn. discriminate.
Defined.

Lemma set_returns_previous_binding_witness :
  let t := live (new_leaf (of_string "a") (Some 1)) in
  wf_tree t = true
  /\ exists old t', set (of_string "a") (Some 2) t = Ok (old, t')
                    /\ forall x, old = Some x <-> binds t (of_string "a") x.
Proof.
  split; [reflexivity|].
  apply (set_returns_previous_binding
           (live (new_leaf (of_string "a") (Some 1))) (of_string "a") 2).
  reflexivity.
Defined.

End SetFacts.

(* ================================================================== *)
(** * [del] on a key that is not bound *)
(* ================================================================== *)

Module DelFacts.
Import Bytes Node Art Tree BytesFacts PrefixFacts SlotFacts LoopFacts TreeFacts.

Section WithT.
Context {T : Type}.
Implicit Types (n : node T).

Lemma compressed_child n k (c : ptr T) :
  compressed (live n) = true -> find_child n k = Some c ->
  compressed c = true.
Proof.
  simpl. intros H Hc. apply andb_true_iff in H. destruct H as [_ H].
  rewrite forallb_forall in H. apply (H (k, c)). now apply assoc_in.
Qed.

Lemma compressed_no_value n :
  compressed (live n) = true -> value_ n = None -> 2 <= n_children n.
Proof.
  cbn [compressed]. intros H Hv.
  apply andb_true_iff in H. destruct H as [H _].
  unfold no_value in H. rewrite Hv in H. cbn [negb orb] in H.
  now apply Nat.leb_le in H.
Qed.

Lemma with_value_same n : with_value n (value_ n) = n.
Proof. now destruct n. Qed.

(** A descent that ends without a binding leaves the subtree as it is. *)
Lemma del_loop_unbound n rest :
  unbound_in n rest ->
  compressed (live n) = true ->
  forall fuel key depth cpk,
    skipn depth key = rest -> depth <= List.length key ->
    List.length rest < fuel ->
    del_loop fuel key None (Some []) cpk depth (live n) = Ok (None, live n).
Proof.
  induction 1 as [n rest Hm|n b rest Hc|n Hv|n b c rest Hc Hu IH];
    intros C fuel key depth cpk E D F;
    (destruct fuel as [|fuel]; [lia|]).
  - simpl. run_monad. rewrite E.
    replace (prefix_len_ n =? check_prefix n rest) with false
      by (symmetry; apply Nat.eqb_neq; congruence).
    reflexivity.
  - exact (del_no_child fuel key cpk depth n b rest E Hc).
  - rewrite (del_exact fuel key cpk depth n D E).
    rewrite (del_here_many cpk n (compressed_no_value n C Hv)).
    rewrite Hv. rewrite <- Hv at 2. now rewrite with_value_same.
  - rewrite (del_descend fuel key cpk depth n b rest (live c) E Hc).
    rewrite IH.
    + now rewrite (put_child_same n b (live c) Hc).
    + now apply compressed_child with n b.
    + unfold prefix_len_. now apply skipn_skipn_rest with b.
    + pose proof (rest_length _ _ _ E) as L.
      rewrite length_app in L. simpl in L. unfold prefix_len_. lia.
    + rewrite length_app in F. simpl in F. lia.
Qed.

(** ** Invariant 2 holds in every tree the operations produce *)

Lemma compressed_live n :
  compressed (live n) = true <->
  (value_ n = None -> 2 <= n_children n)
  /\ forall k (c : ptr T), In (k, c) (children_ n) -> compressed c = true.
Proof.
  cbn [compressed]. rewrite andb_true_iff, forallb_forall, orb_true_iff.
  unfold no_value. split.
  - intros [H1 H2]. split.
    + intros Hv. rewrite Hv in H1. destruct H1 as [H1|H1];
        [discriminate|now apply Nat.leb_le].
    + intros k c Hin. apply (H2 (k, c) Hin).
  - intros [H1 H2]. split.
    + destruct (value_ n); [now left|right].
      apply Nat.leb_le. now apply H1.
    + intros [k c] Hin. now apply H2 with k.
Qed.

Lemma insert_length ch k (c : ptr T) :
  List.length (insert ch k c) = S (List.length ch).
Proof.
  induction ch as [|[k1 c1] ch IH]; [reflexivity|]. simpl.
  destruct (Bytes.ltb k k1); simpl; congruence.
Qed.

(** A write through a child slot puts the new child where the old one
    was. *)
Lemma in_replace_inv ch k0 (c0 : ptr T) k c :
  In (k, c) (replace ch k0 c0) -> c = c0 \/ In (k, c) ch.
Proof.
  induction ch as [|[k1 d] ch IH]; [intros []|]. cbn [replace].
  destruct (Byte.eqb k1 k0); simpl.
  - intros [E|H]; [inversion E; auto|auto].
  - intros [E|H]; [auto|]. destruct (IH H); auto.
Qed.

Lemma grow_keeps n n' :
  (if is_full n then grow n else Ok n) = Ok n' ->
  value_ n' = value_ n /\ children_ n' = children_ n.
Proof.
  destruct (is_full n).
  - unfold grow. destruct (class_ n); intros H; inversion H; now split.
  - intros H. inversion H. now split.
Qed.

Lemma set_loop_compressed key v : forall fuel depth (p p' : ptr T) r,
  compressed p = true ->
  set_loop fuel key (Some v) [] depth p = Ok (r, p') ->
  compressed p' = true.
Proof.
  induction fuel as [|fuel IH]; intros depth p p' r C H; [discriminate|].
  destruct p as [| |n]; try discriminate.
  pose proof C as C'. apply compressed_live in C'. destruct C' as [Cv Cc].
  destruct (classify (prefix_ n) (skipn depth key))
    as [E|b pt E|c a pt b k' E1 E2 Hab|b k' E].
  - symmetry in E. rewrite (set_exact fuel key (Some v) depth n E) in H.
    inversion H; subst. apply compressed_live. split; [discriminate|].
    exact Cc.
  - rewrite (set_shorter fuel key (Some v) depth n b pt E) in H.
    inversion H; subst. apply compressed_live. split; [discriminate|].
    intros k d [Heq|[]]. inversion Heq; subst. exact C.
  - rewrite (set_diverge fuel key (Some v) depth n c a pt b k' E1 E2 Hab)
      in H.
    inversion H; subst. apply compressed_live. split.
    + intros _. unfold n_children.
      cbn [set_child with_children children_ with_prefix node_4].
      rewrite !insert_length. simpl. lia.
    + cbn [set_child with_children children_ with_prefix node_4].
      intros k d Hin. apply in_insert in Hin.
      destruct Hin as [[-> ->]|[Heq|[]]]; [reflexivity|].
      inversion Heq; subst. exact C.
  - destruct (find_child n b) as [c|] eqn:Hc.
    + rewrite (set_descend fuel key (Some v) depth n b k' c E Hc) in H.
      destruct (set_loop fuel key (Some v) [] (depth + (prefix_len_ n + 1))
                         c) as [[a c']|e] eqn:Hs; [|discriminate].
      inversion H; subst. apply compressed_live. split.
      * intros Hv. unfold n_children. cbn [put_child with_children children_].
        rewrite replace_length. now apply Cv.
      * cbn [put_child with_children children_]. intros k d Hin.
        apply in_replace_inv in Hin. destruct Hin as [->|Hin];
          [|now apply Cc with k].
        apply (IH (depth + (prefix_len_ n + 1)) c c' r); [|exact Hs].
        now apply compressed_child with n b.
    + rewrite (set_new_leaf fuel key (Some v) depth n b k' E Hc) in H.
      match type of H with
      | context [and_then ?x _] => destruct x as [n'|] eqn:G
      end; [|discriminate].
      apply grow_keeps in G. destruct G as [V Ch]. simpl in H.
      inversion H; subst. apply compressed_live. split.
      * intros Hv. unfold n_children. cbn [set_child with_children children_].
        rewrite insert_length, Ch. cbn [set_child with_children value_] in Hv.
        rewrite V in Hv. specialize (Cv Hv). unfold n_children in Cv. lia.
      * cbn [set_child with_children children_]. rewrite Ch.
        intros k d Hin. apply in_insert in Hin.
        destruct Hin as [[-> ->]|Hin]; [reflexivity|]. now apply Cc with k.
Qed.

Lemma del_loop_compressed key : forall fuel depth cpk (p p' : ptr T) r,
  depth <= List.length key ->
  compressed p = true ->
  del_loop fuel key None (Some []) cpk depth p = Ok (r, p') ->
  compressed p' = true.
Proof.
  induction fuel as [|fuel IH]; intros depth cpk p p' r D C H;
    [discriminate|].
  destruct p as [| |n]; try discriminate.
  pose proof C as C'. apply compressed_live in C'. destruct C' as [Cv Cc].
  destruct (classify (prefix_ n) (skipn depth key))
    as [E|b pt E|c a pt b k' E1 E2 Hab|b k' E].
  - symmetry in E. rewrite (del_exact fuel key cpk depth n D E) in H.
    destruct (children_ n) as [|[k c] [|kc2 ch]] eqn:Ch.
    + rewrite (del_here_leaf cpk n Ch) in H. now inversion H.
    + rewrite (del_here_one cpk n k c Ch) in H.
      destruct c as [| |cn]; try discriminate. simpl in H.
      inversion H; subst.
      assert (Cn : compressed (live cn) = true)
        by (apply Cc with k; now left).
      exact Cn.
    + rewrite (del_here_many cpk n) in H
        by (unfold n_children; rewrite Ch; simpl; lia).
      inversion H; subst. apply compressed_live. split.
      * intros _. unfold n_children. cbn [with_value children_].
        rewrite Ch. simpl. lia.
      * cbn [with_value children_]. rewrite Ch. exact Cc.
  - rewrite (del_shorter fuel key cpk depth n b pt E) in H.
    now inversion H; subst.
  - rewrite (del_diverge fuel key cpk depth n c a pt b k' E1 E2 Hab) in H.
    now inversion H; subst.
  - destruct (find_child n b) as [c|] eqn:Hc.
    + rewrite (del_descend fuel key cpk depth n b k' c E Hc) in H.
      destruct (del_loop fuel key None (Some []) (Some b)
                         (depth + (prefix_len_ n + 1)) c)
        as [[a c']|e] eqn:Hs; [|discriminate].
      inversion H; subst. apply compressed_live. split.
      * intros Hv. unfold n_children. cbn [put_child with_children children_].
        rewrite replace_length. now apply Cv.
      * cbn [put_child with_children children_]. intros k d Hin.
        apply in_replace_inv in Hin. destruct Hin as [->|Hin];
          [|now apply Cc with k].
        apply (IH (depth + (prefix_len_ n + 1)) (Some b) c c' r);
          [| |exact Hs].
        -- pose proof (rest_length _ _ _ E) as L.
           rewrite length_app in L. simpl in L. unfold prefix_len_. lia.
        -- now apply compressed_child with n b.
    + rewrite (del_no_child fuel key cpk depth n b k' E Hc) in H.
      now inversion H; subst.
Qed.

(** Every tree reached from the empty tree by [set]s and [del]s satisfies
    invariant 2 on its live nodes. *)
Lemma run_compressed (ops : list (op T)) : forall t0 t,
  compressed t0 = true -> run ops t0 = Ok t -> compressed t = true.
Proof.
  induction ops as [|o ops IH]; intros t0 t C H.
  - simpl in H. now inversion H; subst.
  - cbn [run] in H. destruct (apply o t0) as [[r t1]|e] eqn:A;
      [|discriminate].
    apply (IH t1 t); [|exact H]. clear IH H.
    destruct o as [key v|key]; cbn [apply] in A.
    + unfold set, bind, load, root_slot, slot_load in A.
      destruct t0 as [| |n]; cbn [is_null] in A.
      * inversion A; subst. reflexivity.
      * discriminate.
      * now apply (set_loop_compressed key v (budget key) 0 (live n) t1 r).
    + unfold del, bind, load, root_slot, slot_load in A.
      destruct t0 as [| |n]; cbn [is_null] in A.
      * inversion A; subst. reflexivity.
      * discriminate.
      * apply (del_loop_compressed key (budget key) 0 None (live n) t1 r);
          [lia|exact C|exact A].
Qed.

(** X26: [del] for a key whose descent goes through nodes only, none of
    them deleted, and ends at a prefix mismatch, at a missing child or on a
    node with an empty value slot returns no handle and leaves the tree as
    it was: on every tree whose value-less nodes have two children or more
    (invariant 2 of the data model), and so on every tree reached from the
    empty tree by [set]s and [del]s.  A descent that meets the address of
    a deleted node is none of these. *)
Theorem del_through_live_nodes_is_noop (t : art T) (key : list byte) :
  unbound t key ->
  (compressed t = true -> del key t = Ok (None, t))
  /\ (forall ops, run ops empty = Ok t -> del key t = Ok (None, t)).
Proof.
  intros U.
  assert (H : compressed t = true -> del key t = Ok (None, t)).
  { intros C. destruct U as [->|[n [-> U]]]; [reflexivity|].
    unfold del, bind, load, root_slot, slot_load. simpl is_null. cbv iota.
    apply del_loop_unbound with key; auto; unfold budget; lia. }
  split; [exact H|].
  intros ops R. apply H. now apply (run_compressed ops empty t).
Qed.

End WithT.

Lemma del_through_live_nodes_is_noop_witness :
  let t := live (mk_node (of_string "ab") None N4
                   [("c"%byte, live (new_leaf [] (Some 1)));
                    ("d"%byte, live (new_leaf [] (Some 2)))]) in
  unbound t (of_string "ab")
  /\ compressed t = true
  /\ run [Set_ (of_string "abc") 1; Set_ (of_string "abd") 2] empty = Ok t
  /\ del (of_string "ab") t = Ok (None, t).
Proof.
  assert (U : unbound
                (live (mk_node (of_string "ab") None N4
                         [("c"%byte, live (new_leaf [] (Some 1)));
                          ("d"%byte, live (new_leaf [] (Some 2)))]))
                (of_string "ab")).
  { right. eexists. split; [reflexivity|].
    apply (unbound_no_value
             (mk_node (of_string "ab") None N4
                [("c"%byte, live (new_leaf [] (Some 1)));
                 ("d"%byte, live (new_leaf [] (Some 2)))])).
    reflexivity. }
  split; [exact U|]. split; [reflexivity|]. split; [reflexivity|].
  apply (proj1 (del_through_live_nodes_is_noop _ _ U)). reflexivity.
Defined.

End DelFacts.

(* ================================================================== *)
(** * [del] on a key that is bound: the leaf branch *)
(* ================================================================== *)

Module DelLeaf.
Import Bytes Node Art Tree BytesFacts PrefixFacts SlotFacts LoopFacts TreeFacts.
Import SetFacts Examples.

Section WithT.
Context {T : Type}.

(** [del] of the only key of a tree: the root is a leaf, [par] is null,
    the node is deleted and [root_] is left as it was. *)
Lemma del_only_key (key : list byte) (v : T) :
  del key (live (new_leaf key (Some v))) = Ok (Some v, dangling).
Proof.
  unfold del, bind, load, root_slot, slot_load. cbn [is_null].
  unfold budget.
  transitivity (del_here None [] None (new_leaf key (Some v))
                         (live (new_leaf key (Some v)))).
  - apply del_exact; [lia|reflexivity].
  - now rewrite del_here_leaf.
Qed.

(** Every [get] on a tree whose root was deleted reads the deleted node. *)
Lemma get_stale_root (k : list byte) :
  get k (@dangling T) = Fault UseAfterFree.
Proof. reflexivity. Qed.

(** C6: [set(k, v)] on the empty tree followed by [del(k)]: [del]
    returns [v], but the [get(k)] that follows does not return absent, it
    reads the node [del] has deleted, for every key and value. *)
Theorem set_del_get_reads_deleted_node (key : list byte) (v : T) :
  exists t1,
    set key (Some v) empty = Ok (None, t1)
    /\ del key t1 = Ok (Some v, dangling)
    /\ get key (@dangling T) = Fault UseAfterFree.
Proof.
  exists (live (new_leaf key (Some v))).
  split; [reflexivity|]. split; [apply del_only_key|reflexivity].
Qed.

(** C4: [del] of the only key of a tree deletes the root node and
    leaves [root_] pointing to it: the tree is not the empty tree, and
    every later [get] reads the deleted node.  A leaf below a parent is
    deleted the same way, and stays in the child map of its parent. *)
Theorem del_last_key_leaves_stale_root (key : list byte) (v : T) :
  run [Set_ key v; Del_ key] empty = Ok dangling
  /\ @dangling T <> empty
  /\ (forall k, get k (@dangling T) = Fault UseAfterFree)
  /\ run [Set_ (of_string "a") v; Set_ (of_string "ab") v;
          Del_ (of_string "ab")] empty
     = Ok (live (mk_node (of_string "a") (Some v) N4
                         [("b"%byte, dangling)])).
Proof.
  split.
  - cbn [run apply]. change (set key (Some v) empty)
      with (Ok (@None T, live (new_leaf key (Some v)))).
    cbv iota. now rewrite del_only_key.
  - split; [discriminate|]. split; [intros k; reflexivity|reflexivity].
Qed.

End WithT.

(** C1: after [set("a", 1); set("ab", 2); del("ab")] the key ["ab"] is
    deleted and [get("ab")] should return absent; it reads the deleted
    leaf instead.  After [set("a", 1); del("a"); set("b", 2)] the key
    ["b"] should be bound to 2; the [set] reads the deleted root and no
    tree is left to look it up in. *)
Theorem get_after_del_reads_deleted_node :
  (exists t, run ops_leaf empty = Ok t
             /\ expected ops_leaf (of_string "ab") None = None
             /\ get (of_string "ab") t = Fault UseAfterFree)
  /\ expected ops_reuse (of_string "b") None = Some 2
  /\ run ops_reuse empty = Fault UseAfterFree.
Proof.
  split; [eexists; split; [reflexivity|split; reflexivity]|].
  split; reflexivity.
Qed.

(** C5: [del] of a key that is not bound should return no handle and
    leave the tree as it was, in every tree state.  After
    [set("a", 1); set("ab", 2); del("ab")] the key ["ab"] is not bound: no
    node on the way holds a value for it, and the slot under ["a"], ['b']
    should be empty.  A second [del("ab")] reads the leaf the first one
    deleted.  After [set(k, v); del(k)], for every key [k], no key is
    bound and [del] of every key reads the deleted root. *)
Theorem del_of_deleted_key_reads_deleted_node :
  (exists t,
      run ops_leaf empty = Ok t
      /\ expected ops_leaf (of_string "ab") None = None
      /\ (forall x, ~ binds t (of_string "ab") x)
      /\ del (of_string "ab") t = Fault UseAfterFree
      /\ del (of_string "ab") t <> Ok (None, t))
  /\ forall (T : Type) (key : list byte) (v : T) (k : list byte),
       run [Set_ key v; Del_ key] empty = Ok dangling
       /\ (forall x, ~ binds (@dangling T) k x)
       /\ del k (@dangling T) = Fault UseAfterFree.
Proof.
  split.
  - eexists. split; [reflexivity|]. split; [reflexivity|].
    split; [|split; [reflexivity|discriminate]].
    intros x [H|[]]. discriminate.
  - intros T key v k. split; [|split; [intros x []|reflexivity]].
    cbn [run apply]. change (set key (Some v) empty)
      with (Ok (@None T, live (new_leaf key (Some v)))).
    cbv iota. now rewrite del_only_key.
Qed.

(** C2: [del("abc")] on the tree of ["abc"] and ["abd"] removes a leaf
    with one sibling under a parent without a value.  The sibling keeps
    its empty prefix and the root slot keeps the parent, whose child map
    still lists the deleted leaf; the collapse branch is not taken.  Were
    it taken, the prefix it computes would not be the concatenation
    either. *)
Theorem del_does_not_collapse_parent :
  run ops_collapse empty
  = Ok (live (mk_node (of_string "ab") None N4
                [("c"%byte, dangling);
                 ("d"%byte, live (mk_node [] (Some 2) N0 []))]))
  /\ run ops_collapse empty
     <> Ok (live (mk_node (of_string "abd") (Some 2) N0 []))
  /\ forall par_prefix k old,
       @sibling_prefix par_prefix k old <> Ok (par_prefix ++ k :: old).
Proof.
  split; [reflexivity|]. split; [discriminate|].
  intros p k old. rewrite sibling_prefix_faults. discriminate.
Qed.

(** C3: after [set("a", 1); set("abc", 2); set("abd", 3); del("abc")]
    the node under ["a"], ["b"] has a parent, an empty value slot and one
    child, the leaf of ["abd"]; the other slot of its child map holds the
    address of the deleted leaf.  The compression invariant does not
    hold. *)
Theorem del_breaks_compression_invariant :
  exists t m,
    run ops_single_child empty = Ok t
    /\ slot_load ["b"%byte] t = Ok (live m)
    /\ value_ m = None
    /\ child_nodes m = 1
    /\ children_ m = [("c"%byte, dangling);
                      ("d"%byte, live (mk_node [] (Some 3) N0 []))]
    /\ compression_invariant t = false.
Proof.
  eexists. eexists. split; [reflexivity|].
  split; [reflexivity|]. repeat split.
Qed.

End DelLeaf.

(* ================================================================== *)
(** * Lexicographic order of keys *)
(* ================================================================== *)

Module OrderFacts.
Import Bytes BytesFacts TreeIt.

Lemma ltb_asym (a b : byte) : ltb a b = true -> ltb b a = false.
Proof.
  unfold ltb. intros H. apply Nat.ltb_lt in H. apply Nat.ltb_ge. lia.
Qed.

(** Two bytes neither of which is below the other are one byte. *)
Lemma ltb_neither (a b : byte) : ltb a b = false -> ltb b a = false -> a = b.
Proof.
  unfold ltb. intros H1 H2. apply Nat.ltb_ge in H1, H2.
  apply to_nat_inj. lia.
Qed.

Lemma lex_ltb_irrefl (a : list byte) : lex_ltb a a = false.
Proof.
  induction a as [|x a IH]; simpl; [reflexivity|].
  now rewrite ltb_irrefl, eqb_refl.
Qed.

Lemma lex_ltb_asym (a : list byte) : forall b,
  lex_ltb a b = true -> lex_ltb b a = false.
Proof.
  induction a as [|x a IH]; intros [|y b]; simpl; try discriminate;
    try reflexivity.
  destruct (ltb x y) eqn:L.
  - intros _. rewrite (ltb_asym _ _ L).
    apply ltb_neq in L. apply not_eq_sym in L. apply eqb_neq in L.
    now rewrite L.
  - destruct (Byte.eqb x y) eqn:E; [|discriminate].
    apply eqb_eq in E. subst y. rewrite L, eqb_refl. apply IH.
Qed.

Lemma lex_ltb_app (p a b : list byte) :
  lex_ltb (p ++ a) (p ++ b) = lex_ltb a b.
Proof.
  induction p as [|x p IH]; simpl; [reflexivity|].
  now rewrite ltb_irrefl, eqb_refl.
Qed.

Lemma lex_ltb_cons (x : byte) (a b : list byte) :
  lex_ltb (x :: a) (x :: b) = lex_ltb a b.
Proof. simpl. now rewrite ltb_irrefl, eqb_refl. Qed.

Lemma lex_ltb_head (x y : byte) (a b : list byte) :
  ltb x y = true -> lex_ltb (x :: a) (y :: b) = true.
Proof. intros H. simpl. now rewrite H. Qed.

Lemma lex_leb_refl (a : list byte) : lex_leb a a = true.
Proof. unfold lex_leb. now rewrite lex_ltb_irrefl. Qed.

Lemma lex_ltb_leb (a b : list byte) :
  lex_ltb a b = true -> lex_leb a b = true.
Proof. intros H. unfold lex_leb. now rewrite (lex_ltb_asym _ _ H). Qed.

Lemma lex_leb_app (p a b : list byte) :
  lex_leb (p ++ a) (p ++ b) = lex_leb a b.
Proof. unfold lex_leb. now rewrite lex_ltb_app. Qed.

(** ** What the comparison of a prefix with the seek bytes says about the
    keys that start with the prefix *)

Lemma compare_less (p : list byte) : forall seek k0,
  compare_prefix p seek = PrefixLess -> lex_leb seek (p ++ k0) = false.
Proof.
  induction p as [|a p IH]; intros [|b seek] k0; simpl; try discriminate.
  unfold lex_leb. simpl.
  destruct (ltb a b) eqn:L1; [reflexivity|].
  destruct (ltb b a) eqn:L2; [discriminate|].
  rewrite (ltb_neither _ _ L1 L2), eqb_refl. intros H.
  apply (IH seek k0) in H. unfold lex_leb in H. exact H.
Qed.

Lemma compare_greater (p : list byte) : forall seek k0,
  compare_prefix p seek = PrefixGreater -> lex_leb seek (p ++ k0) = true.
Proof.
  induction p as [|a p IH]; intros [|b seek] k0; simpl; try discriminate;
    try reflexivity.
  unfold lex_leb. simpl.
  destruct (ltb a b) eqn:L1; [discriminate|].
  destruct (ltb b a) eqn:L2.
  - intros _. apply ltb_neq in L2. apply not_eq_sym in L2.
    apply eqb_neq in L2. now rewrite L2.
  - rewrite (ltb_neither _ _ L1 L2), eqb_refl. intros H.
    apply (IH seek k0) in H. unfold lex_leb in H. exact H.
Qed.

Lemma compare_ends (p : list byte) : forall seek,
  compare_prefix p seek = SeekEnds -> seek = p.
Proof.
  induction p as [|a p IH]; intros [|b seek]; simpl; try discriminate;
    try reflexivity.
  destruct (ltb a b) eqn:L1; [discriminate|].
  destruct (ltb b a) eqn:L2; [discriminate|].
  intros H. rewrite (ltb_neither _ _ L1 L2). f_equal. now apply IH.
Qed.

Lemma compare_continues (p : list byte) : forall seek b rest,
  compare_prefix p seek = SeekContinues b rest -> seek = p ++ b :: rest.
Proof.
  induction p as [|a p IH]; intros [|c seek] b rest; simpl;
    try discriminate.
  - intros H. now inversion H.
  - destruct (ltb a c) eqn:L1; [discriminate|].
    destruct (ltb c a) eqn:L2; [discriminate|].
    intros H. rewrite (ltb_neither _ _ L1 L2). f_equal. now apply IH.
Qed.

Lemma lex_leb_app_self (p k0 : list byte) : lex_leb p (p ++ k0) = true.
Proof.
  rewrite <- (app_nil_r p) at 1. rewrite lex_leb_app.
  unfold lex_leb. now destruct k0.
Qed.

End OrderFacts.

(* ================================================================== *)
(** * The iterator yields the bindings in order *)
(* ================================================================== *)

Module ItFacts.
Import Bytes Node Art Tree TreeIt BytesFacts TreeFacts OrderFacts.

Section WithT.
Context {T : Type}.
Implicit Types (n : node T) (ch : list (byte * ptr T)).

(** ** Bindings under a longer key *)

Lemma shift_app key (a b : list (list byte * T)) :
  shift key (a ++ b) = shift key a ++ shift key b.
Proof. apply map_app. Qed.

Lemma shift_shift k1 k2 (l : list (list byte * T)) :
  shift k1 (shift k2 l) = shift (k1 ++ k2) l.
Proof.
  unfold shift. rewrite map_map. apply map_ext.
  intros [k x]. simpl. now rewrite app_assoc.
Qed.

Lemma shift_nil (l : list (list byte * T)) : shift [] l = l.
Proof.
  unfold shift. rewrite <- (map_id l) at 2. apply map_ext.
  now intros [k x].
Qed.

Lemma shift_child_entries key k2 ch :
  shift key (child_entries k2 ch) = child_entries (key ++ k2) ch.
Proof.
  induction ch as [|[b c] ch IH]; [reflexivity|].
  unfold child_entries in *. simpl.
  now rewrite shift_app, shift_shift, IH, app_assoc.
Qed.

Lemma entries_live_shift n :
  entries (live n)
  = own (prefix_ n) n ++ child_entries (prefix_ n) (children_ n).
Proof.
  change (entries (live n))
    with (shift (prefix_ n) (own [] n ++ child_entries [] (children_ n))).
  rewrite shift_app, shift_child_entries, app_nil_r. f_equal. unfold own.
  destruct (value_ n); [|reflexivity]. simpl. now rewrite app_nil_r.
Qed.

Lemma shift_entries_live key n :
  shift key (entries (live n))
  = own (key ++ prefix_ n) n
    ++ child_entries (key ++ prefix_ n) (children_ n).
Proof.
  rewrite entries_live_shift, shift_app, shift_child_entries. f_equal.
  unfold own. now destruct (value_ n).
Qed.

Lemma child_entries_cons key b (c : ptr T) ch :
  child_entries key ((b, c) :: ch)
  = shift (key ++ [b]) (entries c) ++ child_entries key ch.
Proof. reflexivity. Qed.

(** ** The children a step has still to visit *)

Lemma filter_drops {A} (xs : list A) (keep : A -> bool)
      (H : forall x, In x xs -> keep x = false) :
  filter keep xs = [].
Proof.
  induction xs as [|x xs IH]; simpl; [reflexivity|].
  rewrite (H x (or_introl eq_refl)). apply IH.
  intros y Hy. apply H. now right.
Qed.

Lemma filter_keeps {A} (xs : list A) (keep : A -> bool)
      (H : forall x, In x xs -> keep x = true) :
  filter keep xs = xs.
Proof.
  induction xs as [|x xs IH]; simpl; [reflexivity|].
  rewrite (H x (or_introl eq_refl)). f_equal. apply IH.
  intros y Hy. apply H. now right.
Qed.

Lemma pending_above n b key :
  pending (mk_step n (after b) key) = above b (children_ n).
Proof.
  unfold pending, above, after. cbn [next_ node_].
  destruct (Byte.of_nat (S (Byte.to_nat b))) as [f|] eqn:E.
  - apply Byte.to_of_nat in E. apply filter_ext. intros [k c]. simpl.
    unfold leb, ltb. rewrite E. reflexivity.
  - symmetry. apply filter_drops. intros [k c] _. simpl.
    apply Byte.of_nat_None_iff in E.
    pose proof (Byte.to_nat_bounded k). unfold ltb.
    apply Nat.ltb_ge. lia.
Qed.

Lemma pending_all n key :
  pending (mk_step n (Some x00) key) = children_ n.
Proof.
  unfold pending. simpl. apply filter_keeps. intros [k c] _. reflexivity.
Qed.

Lemma ascending_app (pre : list (byte * ptr T)) : forall b c post,
  ascending (pre ++ (b, c) :: post) = true ->
  (forall k d, In (k, d) pre -> ltb k b = true)
  /\ (forall k d, In (k, d) post -> ltb b k = true)
  /\ ascending post = true.
Proof.
  induction pre as [|[k0 d0] pre IH]; intros b c post H.
  - split; [intros k d []|]. split.
    + intros k d Hin. exact (ascending_head _ _ _ _ _ H Hin).
    + exact (ascending_tail _ _ _ H).
  - change (((k0, d0) :: pre) ++ (b, c) :: post)
      with ((k0, d0) :: (pre ++ (b, c) :: post)) in H.
    destruct (IH b c post (ascending_tail _ _ _ H)) as [H1 [H2 H3]].
    split; [|split; assumption].
    intros k d [E|Hin]; [|now apply H1 with d].
    inversion E; subst.
    apply (ascending_head k d (pre ++ (b, c) :: post) b c H).
    apply in_or_app. right. now left.
Qed.

Lemma above_suffix (pre : list (byte * ptr T)) b c post :
  ascending (pre ++ (b, c) :: post) = true ->
  above b (pre ++ (b, c) :: post) = post.
Proof.
  intros H. destruct (ascending_app _ _ _ _ H) as [H1 [H2 _]].
  unfold above. rewrite filter_app. simpl. rewrite ltb_irrefl.
  rewrite filter_drops, filter_keeps; [reflexivity| |].
  - intros [k d] Hin. simpl. now apply H2 with d.
  - intros [k d] Hin. simpl. apply ltb_asym. now apply H1 with d.
Qed.

(** In an ascending child map the children at or above a partial key are
    the last ones. *)
Lemma pending_suffix (s : step T) :
  ascending (children_ (node_ s)) = true ->
  exists pre, children_ (node_ s) = pre ++ pending s.
Proof.
  unfold pending. destruct (next_ s) as [f|];
    [|intros _; exists (children_ (node_ s)); now rewrite app_nil_r].
  generalize (children_ (node_ s)) as ch.
  induction ch as [|[k c] ch IH]; intros H; [now exists []|].
  simpl. destruct (leb f k) eqn:L.
  - exists []. simpl. f_equal. symmetry. apply filter_keeps.
    intros [k' c'] Hin. simpl.
    pose proof (ascending_head _ _ _ _ _ H Hin) as Hlt.
    unfold leb, ltb in *. apply Nat.leb_le in L. apply Nat.ltb_lt in Hlt.
    apply Nat.leb_le. lia.
  - destruct (IH (ascending_tail _ _ _ H)) as [pre E].
    exists ((k, c) :: pre). simpl. now rewrite <- E.
Qed.

(** ** Entering a subtree at its leftmost binding *)

(** What [leftmost], [among] and [resume] owe: the binding found and the
    bindings of the steps left make up the bindings that were to come;
    nothing is found only where nothing was to come. *)
Let yields (r : option ((list byte * T) * list (step T)))
    (due : list (list byte * T)) (below : list (step T)) : Prop :=
  match r with
  | Some (e, st) =>
      e :: stack_entries st = due ++ stack_entries below /\ steps_wf st
  | None => due = []
  end.

Let leftmost_ok (p : ptr T) : Prop :=
  forall key below,
    steps_wf below ->
    yields (leftmost key p below) (shift key (entries p)) below.

Lemma steps_wf_cons n next key (below : list (step T)) :
  wf (live n) = true -> steps_wf below ->
  steps_wf (mk_step n next key :: below).
Proof. intros W H. now constructor. Qed.

Lemma among_spec n key below : forall ch pre,
  wf (live n) = true ->
  children_ n = pre ++ ch ->
  Forall (fun kc => leftmost_ok (snd kc)) ch ->
  steps_wf below ->
  yields (among key n below ch) (child_entries key ch) below.
Proof.
  induction ch as [|[b c] ch IH]; intros pre W E Hok Hb; [reflexivity|].
  inversion Hok as [|kc l Hc Hrest]; subst.
  unfold among. cbn [first_of fst snd]. fold (among key n below ch).
  pose proof (Hc (key ++ [b]) (mk_step n (after b) key :: below)
                 (steps_wf_cons n _ key below W Hb)) as L.
  unfold yields in L |- *. cbn [snd] in L.
  destruct (leftmost (key ++ [b]) c (mk_step n (after b) key :: below))
    as [[e st]|].
  - destruct L as [L Wst]. split; [|exact Wst].
    rewrite L, child_entries_cons, <- app_assoc. f_equal.
    cbn [stack_entries flat_map]. f_equal.
    unfold step_entries. cbn [key_]. rewrite pending_above, E.
    rewrite above_suffix; [reflexivity|].
    rewrite <- E. apply wf_live in W. tauto.
  - rewrite child_entries_cons, L. cbn [app].
    apply (IH (pre ++ [(b, c)])); auto.
    now rewrite <- app_assoc.
Qed.

Lemma leftmost_spec (p : ptr T) : wf p = true -> leftmost_ok p.
Proof.
  induction p as [| |n IH] using ptr_nested_ind; try discriminate.
  intros W key below Hb.
  pose proof W as W'. apply wf_live in W'. destruct W' as [_ Hch].
  rewrite shift_entries_live. cbn [leftmost]. unfold own.
  destruct (value_ n) as [v|].
  - unfold yields. split.
    + cbn [stack_entries flat_map]. unfold step_entries. cbn [key_].
      now rewrite pending_all.
    + now apply steps_wf_cons.
  - apply (among_spec n (key ++ prefix_ n) below (children_ n) []);
      auto.
    rewrite Forall_forall in *. intros [k c] Hin. apply IH; [exact Hin|].
    now apply Hch with k.
Qed.

(** ** Going on from a stack of steps *)

Lemma resume_spec (stack : list (step T)) :
  steps_wf stack ->
  match resume stack with
  | Some (e, st) => e :: stack_entries st = stack_entries stack
                    /\ steps_wf st
  | None => stack_entries stack = []
  end.
Proof.
  induction stack as [|s below IH]; intros H; [reflexivity|].
  inversion H as [|s' l Ws Hb]; subst. cbn [resume].
  pose proof Ws as W'. apply wf_live in W'. destruct W' as [Ha Hch].
  destruct (pending_suffix s Ha) as [pre E].
  assert (Hok : Forall (fun kc => leftmost_ok (snd kc)) (pending s)).
  { apply Forall_forall. intros [k c] Hin. apply leftmost_spec.
    apply Hch with k. rewrite E. apply in_or_app. now right. }
  pose proof (among_spec (node_ s) (key_ s) below (pending s) pre
                         Ws E Hok Hb) as A.
  unfold yields in A.
  destruct (among (key_ s) (node_ s) below (pending s)) as [[e st]|].
  - exact A.
  - specialize (IH Hb). cbn [stack_entries flat_map].
    unfold step_entries. rewrite A. exact IH.
Qed.

(** ** The bindings at or after a seek key *)

Lemma on_first_assoc {B} ch b (f : ptr T -> B) (d : B) :
  on_first (fun kc => Byte.eqb (fst kc) b) (fun kc => f (snd kc)) d ch
  = match assoc ch b with
    | Some c => f c
    | None => d
    end.
Proof.
  induction ch as [|[k c] ch IH]; [reflexivity|]. simpl.
  now destruct (Byte.eqb k b).
Qed.

Lemma from_app seek (a b : list (list byte * T)) :
  from seek (a ++ b) = from seek a ++ from seek b.
Proof. apply filter_app. Qed.

Lemma from_shift k seek (l : list (list byte * T)) :
  from (k ++ seek) (shift k l) = shift k (from seek l).
Proof.
  induction l as [|[k0 x] l IH]; [reflexivity|].
  unfold from, shift in *. simpl. rewrite lex_leb_app.
  destruct (lex_leb seek k0); simpl; now rewrite IH.
Qed.

Lemma from_none seek (l : list (list byte * T)) :
  (forall e, In e l -> lex_leb seek (fst e) = false) -> from seek l = [].
Proof. intros H. now apply filter_drops. Qed.

Lemma from_all seek (l : list (list byte * T)) :
  (forall e, In e l -> lex_leb seek (fst e) = true) -> from seek l = l.
Proof. intros H. now apply filter_keeps. Qed.

Lemma in_shift key (l : list (list byte * T)) e :
  In e (shift key l) -> exists k0, fst e = key ++ k0.
Proof.
  unfold shift. rewrite in_map_iff. intros [[k0 x] [<- _]]. now exists k0.
Qed.

Lemma in_entries_live n e :
  In e (entries (live n)) -> exists k0, fst e = prefix_ n ++ k0.
Proof. destruct e as [k x]. apply entries_prefixed. Qed.

(** The bindings below a child under a smaller byte come before the seek
    key, those below a child under a greater byte after it. *)
Lemma from_child_below prefix b rest b' (l : list (list byte * T)) :
  ltb b' b = true ->
  from (prefix ++ b :: rest) (shift (prefix ++ [b']) l) = [].
Proof.
  intros L. apply from_none. intros e He.
  destruct (in_shift _ _ _ He) as [k0 ->].
  rewrite <- app_assoc. rewrite lex_leb_app. unfold lex_leb. simpl.
  now rewrite L.
Qed.

Lemma from_child_above prefix b rest b' (l : list (list byte * T)) :
  ltb b b' = true ->
  from (prefix ++ b :: rest) (shift (prefix ++ [b']) l)
  = shift (prefix ++ [b']) l.
Proof.
  intros L. apply from_all. intros e He.
  destruct (in_shift _ _ _ He) as [k0 ->].
  rewrite <- app_assoc. rewrite lex_leb_app. apply lex_ltb_leb.
  now apply lex_ltb_head.
Qed.

Lemma from_child_same prefix b rest (l : list (list byte * T)) :
  from (prefix ++ b :: rest) (shift (prefix ++ [b]) l)
  = shift (prefix ++ [b]) (from rest l).
Proof.
  rewrite <- from_shift. f_equal. now rewrite <- app_assoc.
Qed.

Lemma from_children_above prefix b rest ch :
  (forall k d, In (k, d) ch -> ltb b k = true) ->
  from (prefix ++ b :: rest) (child_entries prefix ch)
  = child_entries prefix ch
  /\ above b ch = ch /\ assoc ch b = None.
Proof.
  induction ch as [|[k c] ch IH]; intros H; [now repeat split|].
  assert (L : ltb b k = true) by (apply H with c; now left).
  destruct IH as [I1 [I2 I3]];
    [intros k' d Hin; apply H with d; now right|].
  split; [|split].
  - rewrite child_entries_cons, from_app, I1.
    now rewrite (from_child_above _ _ _ _ _ L).
  - unfold above in *. simpl. now rewrite L, I2.
  - simpl. apply ltb_neq in L. apply not_eq_sym in L.
    apply eqb_neq in L. now rewrite L.
Qed.

Lemma from_children prefix b rest ch :
  ascending ch = true ->
  from (prefix ++ b :: rest) (child_entries prefix ch)
  = match assoc ch b with
    | Some c => shift (prefix ++ [b]) (from rest (entries c))
    | None => []
    end ++ child_entries prefix (above b ch).
Proof.
  induction ch as [|[k c] ch IH]; intros H; [reflexivity|].
  assert (Hrest : forall k' d, In (k', d) ch -> ltb k k' = true)
    by (intros k' d Hin; exact (ascending_head _ _ _ _ _ H Hin)).
  destruct (ltb k b) eqn:L1.
  - rewrite child_entries_cons, from_app.
    rewrite (from_child_below _ _ _ _ _ L1).
    rewrite (IH (ascending_tail _ _ _ H)). simpl.
    pose proof L1 as N. apply ltb_neq in N. apply eqb_neq in N. rewrite N.
    unfold above. simpl. now rewrite (ltb_asym _ _ L1).
  - destruct (Byte.eqb k b) eqn:E.
    + apply eqb_eq in E. subst k.
      destruct (from_children_above prefix b rest ch Hrest)
        as [I1 [I2 _]].
      rewrite child_entries_cons, from_app, I1, from_child_same.
      simpl. rewrite eqb_refl. unfold above in *. simpl.
      now rewrite ltb_irrefl, I2.
    + pose proof E as N. apply eqb_neq in N.
      pose proof (ltb_total _ _ N L1) as L2.
      destruct (from_children_above prefix b rest ((k, c) :: ch))
        as [I1 [I2 I3]].
      { intros k' d [Heq|Hin]; [inversion Heq; subst; exact L2|].
        apply ltb_trans with k; [exact L2|]. now apply Hrest with d. }
      now rewrite I1, I2, I3.
Qed.

(** What a seek owes: the binding found and the bindings of the steps
    left make up the bindings at or after the seek key and those of the
    steps below; nothing is found only where there is none of either. *)
Let seeks (r : option ((list byte * T) * list (step T)))
    (due : list (list byte * T)) (below : list (step T)) : Prop :=
  match r with
  | Some (e, st) =>
      e :: stack_entries st = due ++ stack_entries below /\ steps_wf st
  | None => due = [] /\ stack_entries below = []
  end.

Lemma seeks_resume (below : list (step T)) :
  steps_wf below -> seeks (resume below) [] below.
Proof.
  intros H. pose proof (resume_spec below H) as R. unfold seeks.
  destruct (resume below) as [[e st]|]; [exact R|now split].
Qed.

Lemma seeks_leftmost key (p : ptr T) below :
  wf p = true -> steps_wf below ->
  seeks (match leftmost key p below with
         | Some r => Some r
         | None => resume below
         end)
        (shift key (entries p)) below.
Proof.
  intros W H. pose proof (leftmost_spec p W key below H) as L.
  unfold yields in L.
  destruct (leftmost key p below) as [[e st]|]; [exact L|].
  rewrite L. now apply seeks_resume.
Qed.

Lemma shift_eq_nil key (l : list (list byte * T)) :
  shift key l = [] -> l = [].
Proof. unfold shift. now destruct l. Qed.

Lemma seek_spec (p : ptr T) :
  wf p = true ->
  forall key seek below,
    steps_wf below ->
    seeks (seek_from key p seek below)
          (shift key (from seek (entries p))) below.
Proof.
  induction p as [| |n IH] using ptr_nested_ind; try discriminate.
  intros W key seek below Hb.
  pose proof W as W'. apply wf_live in W'. destruct W' as [Ha Hch].
  cbn [seek_from].
  destruct (compare_prefix (prefix_ n) seek) as [| | |b rest] eqn:C.
  - rewrite from_none; [now apply seeks_resume|].
    intros e He. destruct (in_entries_live _ _ He) as [k0 ->].
    now apply compare_less.
  - rewrite from_all; [now apply seeks_leftmost|].
    intros e He. destruct (in_entries_live _ _ He) as [k0 ->].
    now apply compare_greater.
  - rewrite from_all; [now apply seeks_leftmost|].
    intros e He. destruct (in_entries_live _ _ He) as [k0 ->].
    rewrite (compare_ends _ _ C). apply lex_leb_app_self.
  - rewrite (compare_continues _ _ _ _ C).
    rewrite entries_live_shift, from_app, (from_children _ _ _ _ Ha).
    assert (from (prefix_ n ++ b :: rest) (own (prefix_ n) n) = [])
      as ->.
    { apply from_none. intros e He. unfold own in He.
      destruct (value_ n); [|destruct He]. destruct He as [<-|[]].
      simpl. rewrite <- (app_nil_r (prefix_ n)) at 2.
      now rewrite lex_leb_app. }
    cbn [app]. rewrite shift_app, shift_child_entries.
    set (here := mk_step n (after b) (key ++ prefix_ n)).
    assert (Hh : steps_wf (here :: below)) by now apply steps_wf_cons.
    assert (Eh : stack_entries (here :: below)
                 = child_entries (key ++ prefix_ n)
                                 (above b (children_ n))
                   ++ stack_entries below).
    { cbn [stack_entries flat_map]. unfold step_entries, here.
      cbn [key_]. now rewrite pending_above. }
    rewrite (on_first_assoc (children_ n) b
               (fun c => seek_from ((key ++ prefix_ n) ++ [b]) c rest
                                   (here :: below))).
    destruct (assoc (children_ n) b) as [c|] eqn:A.
    + rewrite shift_shift, app_assoc.
      assert (Wc : wf c = true)
        by (apply Hch with b; now apply assoc_in).
      rewrite Forall_forall in IH.
      pose proof (IH (b, c) (assoc_in _ _ _ A) Wc
                     ((key ++ prefix_ n) ++ [b]) rest (here :: below) Hh)
        as S.
      cbn [snd] in S. unfold seeks in *.
      destruct (seek_from ((key ++ prefix_ n) ++ [b]) c rest
                          (here :: below)) as [[e st]|].
      * destruct S as [S Wst]. split; [|exact Wst].
        now rewrite S, Eh, app_assoc.
      * destruct S as [S1 S2]. rewrite Eh in S2.
        apply app_eq_nil in S2. destruct S2 as [S2 S3].
        rewrite S1, S2. now split.
    + cbn [app shift map].
      pose proof (resume_spec (here :: below) Hh) as R. unfold seeks.
      destruct (resume (here :: below)) as [[e st]|].
      * destruct R as [R Wst]. split; [|exact Wst]. now rewrite R, Eh.
      * rewrite Eh in R. apply app_eq_nil in R. destruct R as [R1 R2].
        rewrite R1. now split.
Qed.

(** ** The bindings of a well-formed tree are in key order *)

Lemma sorted_app {A} (R : A -> A -> Prop) (l1 l2 : list A) :
  StronglySorted R l1 -> StronglySorted R l2 ->
  (forall a b, In a l1 -> In b l2 -> R a b) ->
  StronglySorted R (l1 ++ l2).
Proof.
  induction 1 as [|a l1 H1 IH Ha]; intros H2 Hc; [exact H2|].
  simpl. constructor.
  - apply IH; [exact H2|]. intros x y Hx Hy. apply Hc; [now right|exact Hy].
  - apply Forall_app. split; [exact Ha|].
    apply Forall_forall. intros y Hy. apply Hc; [now left|exact Hy].
Qed.

Lemma sorted_filter {A} (R : A -> A -> Prop) (f : A -> bool) (l : list A) :
  StronglySorted R l -> StronglySorted R (filter f l).
Proof.
  induction 1 as [|a l H IH Ha]; simpl; [constructor|].
  destruct (f a); [|exact IH]. constructor; [exact IH|].
  rewrite Forall_forall in *. intros x Hx. apply filter_In in Hx.
  apply Ha. tauto.
Qed.

Lemma sorted_shift key (l : list (list byte * T)) :
  StronglySorted key_lt l -> StronglySorted key_lt (shift key l).
Proof.
  induction 1 as [|a l H IH Ha]; simpl; constructor; [exact IH|].
  rewrite Forall_forall in *. intros x Hx. unfold shift in Hx.
  apply in_map_iff in Hx. destruct Hx as [y [<- Hy]].
  unfold key_lt. simpl. rewrite lex_ltb_app. now apply Ha.
Qed.

Lemma in_child_entries prefix ch e :
  In e (child_entries prefix ch) ->
  exists b c k0, In (b, c) ch /\ fst e = prefix ++ b :: k0.
Proof.
  unfold child_entries. rewrite in_flat_map.
  intros [[b c] [Hin He]]. destruct (in_shift _ _ _ He) as [k0 E].
  exists b, c, k0. split; [exact Hin|]. now rewrite E, <- app_assoc.
Qed.

Lemma child_entries_sorted prefix ch :
  ascending ch = true ->
  Forall (fun kc => StronglySorted key_lt (entries (snd kc))) ch ->
  StronglySorted key_lt (child_entries prefix ch).
Proof.
  induction ch as [|[b c] ch IH]; intros Ha Hs; [constructor|].
  inversion Hs as [|kc l Hc Hrest]; subst. rewrite child_entries_cons.
  apply sorted_app.
  - now apply sorted_shift.
  - apply IH; [exact (ascending_tail _ _ _ Ha)|exact Hrest].
  - intros x y Hx Hy. destruct (in_shift _ _ _ Hx) as [kx Ex].
    destruct (in_child_entries _ _ _ Hy) as [b' [c' [ky [Hin Ey]]]].
    unfold key_lt. rewrite Ex, Ey, <- app_assoc, lex_ltb_app.
    apply lex_ltb_head. exact (ascending_head _ _ _ _ _ Ha Hin).
Qed.

Lemma entries_sorted (p : ptr T) :
  wf p = true -> StronglySorted key_lt (entries p).
Proof.
  induction p as [| |n IH] using ptr_nested_ind; try discriminate.
  intros W. apply wf_live in W. destruct W as [Ha Hch].
  rewrite entries_live_shift. apply sorted_app.
  - unfold own. destruct (value_ n); repeat constructor.
  - apply child_entries_sorted; [exact Ha|].
    rewrite Forall_forall in *. intros [k c] Hin. apply IH; [exact Hin|].
    now apply Hch with k.
  - intros x y Hx Hy. unfold own in Hx.
    destruct (value_ n); [|destruct Hx]. destruct Hx as [<-|[]].
    destruct (in_child_entries _ _ _ Hy) as [b [c [k0 [_ E]]]].
    unfold key_lt. simpl. rewrite E.
    rewrite <- (app_nil_r (prefix_ n)) at 1. now rewrite lex_ltb_app.
Qed.

(** ** The iterator of [begin(key)] and its advances *)

Lemma tree_entries_sorted (t : art T) :
  wf_tree t = true -> StronglySorted key_lt (entries t).
Proof.
  intros W. unfold wf_tree in W. apply orb_true_iff in W.
  destruct W as [N|W]; [|now apply entries_sorted].
  destruct t; try discriminate. constructor.
Qed.

Lemma remaining_greater_equal (t : art T) seek :
  wf_tree t = true ->
  remaining (greater_equal t seek) = from seek (entries t)
  /\ it_wf (greater_equal t seek).
Proof.
  intros W. unfold wf_tree in W. apply orb_true_iff in W.
  destruct W as [N|W].
  - destruct t; try discriminate. split; [reflexivity|].
    split; [constructor|reflexivity].
  - pose proof (seek_spec t W [] seek [] (Forall_nil _)) as S.
    unfold greater_equal, seeks in *.
    rewrite shift_nil, app_nil_r in S.
    destruct (seek_from [] t seek []) as [[e st]|].
    + destruct S as [S Wst]. split; [exact S|].
      split; [exact Wst|discriminate].
    + destruct S as [S _]. rewrite S. split; [reflexivity|].
      split; [constructor|reflexivity].
Qed.

Lemma remaining_advance (it : tree_it T) :
  it_wf it ->
  remaining (advance it) = tl (remaining it) /\ it_wf (advance it).
Proof.
  intros [Ws He]. unfold advance, remaining at 2.
  destruct (current_ it) as [e|].
  - pose proof (resume_spec (stack_ it) Ws) as R. cbn [tl].
    destruct (resume (stack_ it)) as [[e' st]|].
    + destruct R as [R Wst]. split; [exact R|].
      split; [exact Wst|discriminate].
    + rewrite R. split; [reflexivity|]. split; [constructor|reflexivity].
  - rewrite (He eq_refl). split; [reflexivity|].
    split; [constructor|reflexivity].
Qed.

Lemma remaining_iter (it : tree_it T) : forall i,
  it_wf it ->
  remaining (Nat.iter i advance it) = skipn i (remaining it)
  /\ it_wf (Nat.iter i advance it).
Proof.
  induction i as [|i IH]; intros W; [now split|].
  destruct (IH W) as [R Wi].
  change (Nat.iter (S i) advance it) with (advance (Nat.iter i advance it)).
  destruct (remaining_advance _ Wi) as [A Wa]. split; [|exact Wa].
  rewrite A, R. clear. generalize (remaining it) as l.
  induction i as [|i IH]; intros [|x l]; try reflexivity. apply IH.
Qed.

Lemma deref_remaining (it : tree_it T) : deref it = hd_error (remaining it).
Proof. unfold deref, remaining. now destruct (current_ it). Qed.

Lemma hd_skipn {A} (l : list A) : forall i,
  hd_error (skipn i l) = nth_error l i.
Proof.
  induction l as [|x l IH]; intros [|i]; try reflexivity. apply IH.
Qed.

(** C9: for every well-formed tree and every seek key, the iterator of
    [begin(key)] is positioned at the smallest key at or after the seek key
    among the keys bound in the tree, and is [end()] when there is none;
    the advance number [i] yields the binding number [i] of the bindings at
    or after the seek key, which are in strictly ascending lexicographic
    order of their keys, and nothing once they are used up. *)
Theorem begin_at_seeks_in_order (t : art T) (seek : list byte) :
  wf_tree t = true ->
  StronglySorted key_lt (entries t)
  /\ (forall i,
        deref (Nat.iter i advance (ArtIt.begin_at t seek))
        = nth_error (from seek (entries t)) i)
  /\ (from seek (entries t) = [] -> ArtIt.begin_at t seek = ArtIt.end_)
  /\ (forall e,
        deref (ArtIt.begin_at t seek) = Some e ->
        binds t (fst e) (snd e)
        /\ lex_leb seek (fst e) = true
        /\ forall k v, binds t k v -> lex_leb seek k = true ->
                       lex_leb (fst e) k = true).
Proof.
  intros W. pose proof (tree_entries_sorted t W) as S.
  destruct (remaining_greater_equal t seek W) as [R Wit].
  unfold ArtIt.begin_at, ArtIt.end_.
  split; [exact S|]. split; [|split].
  - intros i. destruct (remaining_iter (greater_equal t seek) i Wit)
      as [Ri _].
    now rewrite deref_remaining, Ri, R, hd_skipn.
  - intros E. rewrite E in R. destruct Wit as [_ He].
    unfold remaining in R.
    destruct (greater_equal t seek) as [[e|] st]; [discriminate|].
    simpl in He. now rewrite (He eq_refl).
  - intros e He. rewrite deref_remaining, R in He.
    pose proof (sorted_filter key_lt
                  (fun e => lex_leb seek (fst e)) (entries t) S) as Sf.
    fold (from seek (entries t)) in Sf.
    destruct (from seek (entries t)) as [|e' rest] eqn:F; [discriminate|].
    inversion He; subst e'.
    assert (Hin : In e (from seek (entries t)))
      by (rewrite F; now left).
    apply filter_In in Hin. destruct Hin as [Hin Hle].
    split; [unfold binds; now destruct e|]. split; [exact Hle|].
    intros k v Hb Hk.
    assert (Hkv : In (k, v) (from seek (entries t)))
      by (apply filter_In; split; [exact Hb|exact Hk]).
    rewrite F in Hkv. destruct Hkv as [Heq|Hkv];
      [rewrite Heq; apply lex_leb_refl|].
    inversion Sf as [|a l _ Hall]; subst.
    rewrite Forall_forall in Hall. apply lex_ltb_leb.
    exact (Hall _ Hkv).
Qed.

End WithT.

Lemma begin_at_seeks_in_order_witness :
  wf_tree Examples.tree_seek = true
  /\ StronglySorted key_lt (entries Examples.tree_seek)
  /\ (forall i,
        deref (Nat.iter i advance
                        (ArtIt.begin_at Examples.tree_seek
                                        (of_string "bab")))
        = nth_error (from (of_string "bab")
                          (entries Examples.tree_seek)) i)
  /\ (from (of_string "bab") (entries Examples.tree_seek) = [] ->
      ArtIt.begin_at Examples.tree_seek (of_string "bab") = ArtIt.end_)
  /\ (forall e,
        deref (ArtIt.begin_at Examples.tree_seek (of_string "bab"))
        = Some e ->
        binds Examples.tree_seek (fst e) (snd e)
        /\ lex_leb (of_string "bab") (fst e) = true
        /\ forall k v, binds Examples.tree_seek k v ->
                       lex_leb (of_string "bab") k = true ->
                       lex_leb (fst e) k = true).
Proof.
  split; [reflexivity|].
  apply (begin_at_seeks_in_order Examples.tree_seek (of_string "bab")).
  reflexivity.
Defined.

(** Scenario 6 of the specification: from ["bab"] the iterator yields
    ["bb"], then ["c"], then it is finished. *)
Example seek_bab :
  map (fun i => deref (Nat.iter i advance
                         (ArtIt.begin_at Examples.tree_seek
                                         (of_string "bab"))))
      [0; 1; 2]
  = [Some (of_string "bb", 4); Some (of_string "c", 5); None]
  /\ ArtIt.begin_at Examples.tree_seek (of_string "z") = ArtIt.end_.
Proof. split; reflexivity. Qed.

End ItFacts.

(* ================================================================== *)
(** * The loop budget is never used up *)
(* ================================================================== *)

Module FuelFacts.
Import Bytes Node Art Tree BytesFacts PrefixFacts SlotFacts LoopFacts.

Section WithT.
Context {T : Type}.

(** Each turn of a loop that does not leave it takes at least one byte
    off the rest of the key. *)
Lemma rest_shrinks (key : list byte) depth (p : list byte) b k' fuel :
  skipn depth key = p ++ b :: k' ->
  List.length (skipn depth key) < S fuel ->
  List.length (skipn (depth + (List.length p + 1)) key) < fuel.
Proof.
  intros E F. rewrite (skipn_skipn_rest _ _ _ _ _ E).
  rewrite E, length_app in F. simpl in F. lia.
Qed.

Lemma get_loop_fuel key : forall fuel depth (p : ptr T),
  List.length (skipn depth key) < fuel ->
  get_loop fuel key p depth <> Fault OutOfFuel.
Proof.
  induction fuel as [|fuel IH]; intros depth p F; [lia|].
  destruct p as [| |n]; try discriminate.
  destruct (classify (prefix_ n) (skipn depth key))
    as [E|b pt E|c a pt b k' E1 E2 Hab|b k' E].
  - symmetry in E. now rewrite (get_exact fuel key depth n E).
  - now rewrite (get_shorter fuel key depth n b pt E).
  - now rewrite (get_diverge fuel key depth n c a pt b k' E1 E2 Hab).
  - rewrite (get_continue fuel key depth n b k' E), <- Nat.add_assoc.
    apply IH. unfold prefix_len_. now apply rest_shrinks with b k'.
Qed.

Lemma set_loop_fuel key v : forall fuel depth (p : ptr T),
  List.length (skipn depth key) < fuel ->
  set_loop fuel key v [] depth p <> Fault OutOfFuel.
Proof.
  induction fuel as [|fuel IH]; intros depth p F; [lia|].
  destruct p as [| |n]; try discriminate.
  destruct (classify (prefix_ n) (skipn depth key))
    as [E|b pt E|c a pt b k' E1 E2 Hab|b k' E].
  - symmetry in E. now rewrite (set_exact fuel key v depth n E).
  - now rewrite (set_shorter fuel key v depth n b pt E).
  - now rewrite (set_diverge fuel key v depth n c a pt b k' E1 E2 Hab).
  - destruct (find_child n b) as [c|] eqn:Hc.
    + rewrite (set_descend fuel key v depth n b k' c E Hc).
      specialize (IH (depth + (prefix_len_ n + 1)) c
                     (rest_shrinks key depth (prefix_ n) b k' fuel E F)).
      destruct (set_loop fuel key v [] (depth + (prefix_len_ n + 1)) c)
        as [[a c']|e]; [discriminate|congruence].
    + rewrite (set_new_leaf fuel key v depth n b k' E Hc).
      destruct (is_full n); [|discriminate].
      unfold grow. destruct (class_ n); discriminate.
Qed.

Lemma del_here_fuel cpk (n : node T) :
  del_here None [] cpk n (live n) <> Fault OutOfFuel.
Proof.
  destruct (children_ n) as [|[k c] [|kc2 ch]] eqn:Ch.
  - now rewrite (del_here_leaf cpk n Ch).
  - rewrite (del_here_one cpk n k c Ch). destruct c; discriminate.
  - rewrite (del_here_many cpk n); [discriminate|].
    unfold n_children. rewrite Ch. simpl. lia.
Qed.

Lemma del_loop_fuel key : forall fuel depth cpk (p : ptr T),
  depth <= List.length key ->
  List.length (skipn depth key) < fuel ->
  del_loop fuel key None (Some []) cpk depth p <> Fault OutOfFuel.
Proof.
  induction fuel as [|fuel IH]; intros depth cpk p D F; [lia|].
  destruct p as [| |n]; try discriminate.
  destruct (classify (prefix_ n) (skipn depth key))
    as [E|b pt E|c a pt b k' E1 E2 Hab|b k' E].
  - symmetry in E. rewrite (del_exact fuel key cpk depth n D E).
    apply del_here_fuel.
  - now rewrite (del_shorter fuel key cpk depth n b pt E).
  - now rewrite (del_diverge fuel key cpk depth n c a pt b k' E1 E2 Hab).
  - destruct (find_child n b) as [c|] eqn:Hc.
    + rewrite (del_descend fuel key cpk depth n b k' c E Hc).
      assert (D' : depth + (prefix_len_ n + 1) <= List.length key).
      { pose proof (rest_length _ _ _ E) as L.
        rewrite length_app in L. simpl in L. unfold prefix_len_. lia. }
      specialize (IH (depth + (prefix_len_ n + 1)) (Some b) c D'
                     (rest_shrinks key depth (prefix_ n) b k' fuel E F)).
      destruct (del_loop fuel key None (Some []) (Some b)
                         (depth + (prefix_len_ n + 1)) c)
        as [[a c']|e]; [discriminate|congruence].
    + now rewrite (del_no_child fuel key cpk depth n b k' E Hc).
Qed.

(** On every tree, well formed or not, the three operations return or
    fault before their loop budget is used up: the budget stands for no
    bound of the code. *)
Lemma budget_suffices (t : art T) (key : list byte) (v : option T) :
  get key t <> Fault OutOfFuel
  /\ set key v t <> Fault OutOfFuel
  /\ del key t <> Fault OutOfFuel.
Proof.
  assert (F : List.length (skipn 0 key) < budget key)
    by (unfold budget; simpl; lia).
  split; [|split].
  - unfold get, bind, load, lift, root_slot, slot_load.
    pose proof (get_loop_fuel key (budget key) 0 t F) as G.
    destruct (get_loop (budget key) key t 0); [discriminate|congruence].
  - unfold set, bind, load, root_slot, slot_load.
    destruct t as [| |n]; cbn [is_null]; try discriminate.
    now apply set_loop_fuel.
  - unfold del, bind, load, root_slot, slot_load.
    destruct t as [| |n]; cbn [is_null]; try discriminate.
    apply del_loop_fuel; [lia|exact F].
Qed.

End WithT.
End FuelFacts.

(* ================================================================== *)
(** * Trees with deleted leaves: what the operations keep *)
(* ================================================================== *)

Module ReachFacts.
Import Bytes Node Art Tree Reach.
Import BytesFacts PrefixFacts SlotFacts LoopFacts TreeFacts.
Import GetFacts SetFacts DelFacts.

Section WithT.
Context {T : Type}.
Implicit Types (n : node T) (ch : list (byte * ptr T)).

Lemma ordered_live n :
  ordered (live n) = true <->
  ascending (children_ n) = true
  /\ forall k c, In (k, c) (children_ n) -> ordered c = true.
Proof.
  simpl. rewrite andb_true_iff, forallb_forall. split.
  - intros [H1 H2]. split; [exact H1|].
    intros k c Hin. apply (H2 (k, c) Hin).
  - intros [H1 H2]. split; [exact H1|].
    intros [k c] Hin. simpl. now apply H2 with k.
Qed.

Lemma ordered_child n k c :
  ordered (live n) = true -> find_child n k = Some c -> ordered c = true.
Proof.
  intros H Hc. apply ordered_live in H. destruct H as [_ H].
  apply H with k. now apply assoc_in.
Qed.

(** A well-formed subtree is one without deleted leaves. *)
Lemma wf_ordered (p : ptr T) : wf p = true -> ordered p = true.
Proof.
  induction p as [| |n IH] using ptr_nested_ind; try discriminate.
  intros W. apply wf_live in W. destruct W as [Ha Hch].
  apply ordered_live. split; [exact Ha|].
  intros k c Hin. rewrite Forall_forall in IH.
  apply (IH (k, c) Hin). now apply Hch with k.
Qed.

Lemma ordered_wf (p : ptr T) :
  ordered p = true -> stale p = false -> wf p = true.
Proof.
  induction p as [| |n IH] using ptr_nested_ind; intros O S;
    try discriminate.
  apply ordered_live in O. destruct O as [Ha Hch].
  apply wf_live. split; [exact Ha|].
  intros k c Hin. rewrite Forall_forall in IH.
  apply (IH (k, c) Hin); [now apply Hch with k|].
  cbn [stale snd] in *.
  destruct (stale c) eqn:Sc; [|reflexivity].
  assert (existsb (fun kc => stale (snd kc)) (children_ n) = true)
    by (apply existsb_exists; now exists (k, c)).
  congruence.
Qed.

Lemma wf_not_stale (p : ptr T) : wf p = true -> stale p = false.
Proof.
  induction p as [| |n IH] using ptr_nested_ind; try discriminate.
  intros W. apply wf_live in W. destruct W as [_ Hch]. cbn [stale].
  destruct (existsb (fun kc => stale (snd kc)) (children_ n)) eqn:E;
    [|reflexivity].
  apply existsb_exists in E. destruct E as [[k c] [Hin Sc]].
  rewrite Forall_forall in IH. cbn [snd] in Sc.
  pose proof (IH (k, c) Hin (Hch k c Hin)) as N. cbn [snd] in N.
  congruence.
Qed.

(** The bindings below a child slot are those whose keys go on, after
    the prefix of the node, with the partial key of the slot. *)
Lemma entries_below n b k' x :
  ascending (children_ n) = true ->
  In (prefix_ n ++ b :: k', x) (entries (live n)) <->
  exists c, find_child n b = Some c /\ In (k', x) (entries c).
Proof.
  intros Ha. rewrite entries_live. split.
  - intros [[E _]|[b' [c [r [E [Hc Hin]]]]]].
    + symmetry in E. now apply app_cons_not_self in E.
    + apply app_inv_head in E. inversion E; subst.
      exists c. split; [now apply in_assoc|exact Hin].
  - intros [c [Hc Hin]]. right. exists b, c, k'.
    split; [reflexivity|]. split; [now apply assoc_in|exact Hin].
Qed.

(** The bindings of a node after a write through one of its child
    slots. *)
Lemma entries_put_child n b c c' k x :
  ascending (children_ n) = true -> find_child n b = Some c ->
  In (k, x) (entries (live (put_child n b c'))) <->
  (exists r, k = prefix_ n ++ b :: r /\ In (r, x) (entries c'))
  \/ ((forall r, k <> prefix_ n ++ b :: r) /\ In (k, x) (entries (live n))).
Proof.
  intros Ha Hc. rewrite !entries_live.
  cbn [put_child with_children prefix_ value_ children_]. split.
  - intros [[-> H]|[b' [d [r [-> [Hin H]]]]]].
    + right. split; [intros r; apply app_cons_not_self|]. now left.
    + apply (in_replace _ _ _ _ _ _ Ha Hc) in Hin.
      destruct Hin as [[-> ->]|[Hne Hin]].
      * left. now exists r.
      * right. split.
        -- intros r' E. apply app_inv_head in E. congruence.
        -- right. now exists b', d, r.
  - intros [[r [-> H]]|[Hne [[-> H]|[b' [d [r [-> [Hin H]]]]]]]].
    + right. exists b, c', r. split; [reflexivity|].
      split; [apply (in_replace _ _ _ _ _ _ Ha Hc); now left|exact H].
    + now left.
    + right. exists b', d, r. split; [reflexivity|]. split; [|exact H].
      apply (in_replace _ _ _ _ _ _ Ha Hc). right. split; [|exact Hin].
      intros ->. now apply (Hne r).
Qed.

Lemma updated_under n b c c' k' v :
  ascending (children_ n) = true -> find_child n b = Some c ->
  updated (entries c) k' v (entries c') ->
  updated (entries (live n)) (prefix_ n ++ b :: k') v
          (entries (live (put_child n b c'))).
Proof.
  intros Ha Hc U k x. rewrite (entries_put_child n b c c' k x Ha Hc). split.
  - intros [[r [-> H]]|[Hne H]].
    + apply U in H. destruct H as [[-> ->]|[Hr H]]; [now left|].
      right. split; [intros E; apply app_inv_head in E; congruence|].
      apply (entries_below n b r x Ha). now exists c.
    + right. split; [apply Hne|exact H].
  - intros [[-> ->]|[Hne H]].
    + left. exists k'. split; [reflexivity|]. apply U. now left.
    + destruct (entries_prefixed _ _ _ H) as [k0 ->].
      destruct k0 as [|b' r].
      * right. split; [|exact H]. intros r E.
        rewrite app_nil_r in E. now apply app_cons_not_self in E.
      * destruct (Byte.byte_eq_dec b' b) as [->|Hb].
        -- left. exists r. split; [reflexivity|].
           apply (entries_below n b r x Ha) in H.
           destruct H as [d [Hd H]].
           assert (d = c) as -> by congruence.
           apply U. right. split; [congruence|exact H].
        -- right. split; [|exact H]. intros r' E.
           apply app_inv_head in E. congruence.
Qed.

Lemma removed_under n b c c' k' :
  ascending (children_ n) = true -> find_child n b = Some c ->
  removed (entries c) k' (entries c') ->
  removed (entries (live n)) (prefix_ n ++ b :: k')
          (entries (live (put_child n b c'))).
Proof.
  intros Ha Hc U k x. rewrite (entries_put_child n b c c' k x Ha Hc). split.
  - intros [[r [-> H]]|[Hne H]].
    + apply U in H. destruct H as [Hr H].
      split; [intros E; apply app_inv_head in E; congruence|].
      apply (entries_below n b r x Ha). now exists c.
    + split; [apply Hne|exact H].
  - intros [Hne H].
    destruct (entries_prefixed _ _ _ H) as [k0 ->].
    destruct k0 as [|b' r].
    + right. split; [|exact H]. intros r E.
      rewrite app_nil_r in E. now apply app_cons_not_self in E.
    + destruct (Byte.byte_eq_dec b' b) as [->|Hb].
      * left. exists r. split; [reflexivity|].
        apply (entries_below n b r x Ha) in H.
        destruct H as [d [Hd H]].
        assert (d = c) as -> by congruence.
        apply U. split; [congruence|exact H].
      * right. split; [|exact H]. intros r' E.
        apply app_inv_head in E. congruence.
Qed.

(** Nothing is removed where the key is not bound. *)
Lemma removed_absent (l : list (list byte * T)) key :
  (forall x, ~ In (key, x) l) -> removed l key l.
Proof.
  intros H k x. split; [|tauto].
  intros Hin. split; [|exact Hin]. intros ->. now apply (H x).
Qed.

(** ** The loops on a tree that may hold deleted leaves *)

(** The loop of [get] returns the binding of the rest of the key, or it
    reads a deleted node. *)
Lemma get_loop_ordered key : forall fuel depth (p : ptr T),
  ordered p = true ->
  List.length (skipn depth key) < fuel ->
  (exists r, get_loop fuel key p depth = Ok r
             /\ forall x, r = Some x <-> In (skipn depth key, x) (entries p))
  \/ get_loop fuel key p depth = Fault UseAfterFree.
Proof.
  induction fuel as [|fuel IH]; intros depth p O F; [lia|].
  destruct p as [| |n]; [discriminate|now right|].
  pose proof O as O'. apply ordered_live in O'. destruct O' as [Ha Hch].
  destruct (classify (prefix_ n) (skipn depth key))
    as [E|b pt E|c a pt b k' E1 E2 Hab|b k' E].
  - left. exists (value_ n). split; [now apply get_exact|].
    intros x. rewrite <- E. now rewrite entries_exact.
  - left. exists None. split; [now apply get_shorter with b pt|].
    intros x. split; [discriminate|].
    intros H. now apply (entries_shorter _ _ _ _ _ E) in H.
  - left. exists None. split; [now apply get_diverge with c a pt b k'|].
    intros x. split; [discriminate|].
    intros H. rewrite E2 in H.
    now apply (entries_diverge _ _ _ _ _ _ _ E1 Hab) in H.
  - rewrite (get_continue _ _ _ _ _ _ E).
    pose proof E as R. apply skipn_skipn_rest in R.
    rewrite <- Nat.add_assoc. unfold prefix_len_.
    destruct (find_child n b) as [c|] eqn:Hc.
    + destruct (IH (depth + (List.length (prefix_ n) + 1)) c)
        as [[r [Hr Hx]]|Hf].
      * now apply ordered_child with n b.
      * rewrite R. rewrite E, length_app in F. simpl in F. lia.
      * left. exists r. split; [exact Hr|]. intros x.
        rewrite Hx, R, E, (entries_below n b k' x Ha), Hc.
        split; [intros H; now exists c|].
        intros [c' [Hc' H]]. congruence.
      * now right.
    + left. exists None. split; [apply get_loop_null|].
      intros x. rewrite E, (entries_below n b k' x Ha), Hc.
      split; [discriminate|]. intros [c' [Hc' _]]. discriminate.
Qed.

Lemma grow_same n n' :
  (if is_full n then grow n else Ok n) = Ok n' ->
  prefix_ n' = prefix_ n /\ value_ n' = value_ n
  /\ children_ n' = children_ n.
Proof.
  destruct (is_full n).
  - unfold grow. destruct (class_ n); intros H; inversion H; now split.
  - intros H. inversion H. now split.
Qed.

Lemma ordered_intro n :
  ascending (children_ n) = true ->
  (forall k c, In (k, c) (children_ n) -> ordered c = true) ->
  ordered (live n) = true.
Proof. intros H1 H2. apply ordered_live. auto. Qed.

(** Where the loop of [set] returns, it has bound the rest of the key to
    the new value, kept every other binding, and returned the binding the
    key had. *)
Lemma set_loop_ordered key v : forall fuel depth (p p' : ptr T) r,
  ordered p = true ->
  set_loop fuel key (Some v) [] depth p = Ok (r, p') ->
  ordered p' = true
  /\ updated (entries p) (skipn depth key) v (entries p')
  /\ forall x, r = Some x <-> In (skipn depth key, x) (entries p).
Proof.
  induction fuel as [|fuel IH]; intros depth p p' r O H; [discriminate|].
  destruct p as [| |n]; try discriminate.
  pose proof O as O'. apply ordered_live in O'. destruct O' as [Ha Hch].
  destruct (classify (prefix_ n) (skipn depth key))
    as [E|b pt E|c a pt b k' E1 E2 Hab|b k' E].
  - symmetry in E. rewrite (set_exact fuel key (Some v) depth n E) in H.
    inversion H; subst. split; [exact O|]. rewrite E.
    split; [apply updated_replace|].
    intros x. now rewrite entries_exact.
  - rewrite (set_shorter fuel key (Some v) depth n b pt E) in H.
    inversion H; subst. split; [|split].
    + apply ordered_intro; [reflexivity|].
      intros k c [Heq|[]]. inversion Heq; subst. exact O.
    + now apply updated_expand.
    + intros x. split; [discriminate|].
      intros Hin. now apply (entries_shorter _ _ _ _ _ E) in Hin.
  - rewrite (set_diverge fuel key (Some v) depth n c a pt b k' E1 E2 Hab)
      in H.
    inversion H; subst. split; [|split].
    + apply ordered_intro.
      * cbn [set_child with_children children_ with_prefix node_4].
        apply ascending_insert; [reflexivity|].
        simpl. apply eqb_neq in Hab. now rewrite Hab.
      * cbn [set_child with_children children_ with_prefix node_4].
        intros k d Hin. apply in_insert in Hin.
        destruct Hin as [[-> ->]|[Heq|[]]]; [reflexivity|].
        inversion Heq; subst. exact O.
    + rewrite E2. now apply updated_split.
    + intros x. split; [discriminate|]. rewrite E2.
      intros Hin. now apply (entries_diverge _ _ _ _ _ _ _ E1 Hab) in Hin.
  - pose proof E as R. apply skipn_skipn_rest in R.
    destruct (find_child n b) as [c|] eqn:Hc.
    + rewrite (set_descend fuel key (Some v) depth n b k' c E Hc) in H.
      destruct (set_loop fuel key (Some v) [] (depth + (prefix_len_ n + 1))
                         c) as [[a c']|e] eqn:Hs; [|discriminate].
      injection H as <- <-.
      destruct (IH (depth + (prefix_len_ n + 1)) c c' a
                   (ordered_child n b c O Hc) Hs) as [Oc [U Hr]].
      unfold prefix_len_ in U, Hr. rewrite R in U, Hr.
      split; [|split].
      * apply ordered_intro.
        -- cbn [put_child with_children children_].
           now rewrite ascending_replace.
        -- cbn [put_child with_children children_].
           intros k d Hin. apply (in_replace _ _ _ _ _ _ Ha Hc) in Hin.
           destruct Hin as [[-> ->]|[_ Hin]]; [exact Oc|].
           now apply Hch with k.
      * rewrite E. now apply updated_under with c.
      * intros x. rewrite Hr, E, (entries_below n b k' x Ha), Hc.
        split; [intros Hin; now exists c|].
        intros [d [Hd Hin]]. congruence.
    + rewrite (set_new_leaf fuel key (Some v) depth n b k' E Hc) in H.
      match type of H with
      | context [and_then ?x _] => destruct x as [n'|] eqn:G
      end; [|discriminate].
      apply grow_same in G. destruct G as [P [V C]]. simpl in H.
      injection H as <- <-. split; [|split].
      * apply ordered_intro.
        -- cbn [set_child with_children children_]. rewrite C.
           now apply ascending_insert.
        -- cbn [set_child with_children children_]. rewrite C.
           intros k d Hin. apply in_insert in Hin.
           destruct Hin as [[-> ->]|Hin]; [reflexivity|].
           now apply Hch with k.
      * rewrite E. now apply updated_new_leaf.
      * intros x. split; [discriminate|].
        rewrite E, (entries_below n b k' x Ha), Hc.
        intros [d [Hd _]]. discriminate.
Qed.

(** ** What the exact-match branch of [del] does to the bindings *)

Lemma removed_leaf n :
  children_ n = [] ->
  removed (entries (live n)) (prefix_ n) (entries (@dangling T)).
Proof.
  intros Ch k x. rewrite entries_live, Ch. simpl. split; [tauto|].
  intros [Hk [[E _]|[b [c [rest [_ [[] _]]]]]]]. congruence.
Qed.

Lemma removed_merge n k cn :
  children_ n = [(k, live cn)] ->
  removed (entries (live n)) (prefix_ n)
          (entries (live (with_prefix cn (prefix_ n ++ k :: prefix_ cn)))).
Proof.
  intros Ch key x. rewrite entries_with_prefix, entries_live, Ch. split.
  - intros [k0 [-> Hin]]. rewrite <- app_assoc. split.
    + apply app_cons_not_self'.
    + right. exists k, (live cn), (prefix_ cn ++ k0).
      split; [reflexivity|]. split; [now left|exact Hin].
  - intros [Hk [[E _]|[b [c [rest [-> [[Heq|[]] Hin]]]]]]]; [congruence|].
    inversion Heq; subst.
    destruct (entries_prefixed _ _ _ Hin) as [k0 ->].
    exists k0. split; [|exact Hin]. now rewrite <- app_assoc.
Qed.

Lemma removed_value n :
  removed (entries (live n)) (prefix_ n)
          (entries (live (with_value n None))).
Proof.
  intros k x. rewrite !entries_live.
  cbn [with_value prefix_ value_ children_]. split.
  - intros [[_ H]|[b [c [rest [-> H]]]]]; [discriminate|].
    split; [apply app_cons_not_self'|]. right. now exists b, c, rest.
  - intros [Hk [[E _]|H]]; [congruence|now right].
Qed.

(** Where the loop of [del] returns, it has removed the binding of the
    rest of the key, kept every other binding, and returned the binding
    the key had. *)
Lemma del_loop_ordered key : forall fuel depth cpk (p p' : ptr T) r,
  depth <= List.length key ->
  ordered p = true ->
  del_loop fuel key None (Some []) cpk depth p = Ok (r, p') ->
  ordered p' = true
  /\ removed (entries p) (skipn depth key) (entries p')
  /\ forall x, r = Some x <-> In (skipn depth key, x) (entries p).
Proof.
  induction fuel as [|fuel IH]; intros depth cpk p p' r D O H;
    [discriminate|].
  destruct p as [| |n]; try discriminate.
  pose proof O as O'. apply ordered_live in O'. destruct O' as [Ha Hch].
  destruct (classify (prefix_ n) (skipn depth key))
    as [E|b pt E|c a pt b k' E1 E2 Hab|b k' E].
  - symmetry in E. rewrite (del_exact fuel key cpk depth n D E) in H.
    rewrite E.
    assert (Hr : forall x, value_ n = Some x
                           <-> In (prefix_ n, x) (entries (live n)))
      by (intros x; now rewrite entries_exact).
    destruct (children_ n) as [|[k c] [|kc2 ch]] eqn:Ch.
    + rewrite (del_here_leaf cpk n Ch) in H. injection H as <- <-.
      split; [reflexivity|]. split; [now apply removed_leaf|exact Hr].
    + rewrite (del_here_one cpk n k c Ch) in H.
      destruct c as [| |cn]; try discriminate. simpl in H.
      injection H as <- <-. split; [|split; [|exact Hr]].
      * assert (Oc : ordered (live cn) = true)
          by (apply Hch with k; now left).
        exact Oc.
      * now apply removed_merge.
    + rewrite (del_here_many cpk n) in H
        by (unfold n_children; rewrite Ch; simpl; lia).
      injection H as <- <-. split; [|split; [|exact Hr]].
      * apply ordered_intro; cbn [with_value children_]; rewrite Ch;
          [exact Ha|exact Hch].
      * apply removed_value.
  - rewrite (del_shorter fuel key cpk depth n b pt E) in H.
    injection H as <- <-.
    assert (N : forall x, ~ In (skipn depth key, x) (entries (live n)))
      by (intros x; apply (entries_shorter _ _ _ _ _ E)).
    split; [exact O|]. split; [now apply removed_absent|].
    intros x. split; [discriminate|]. intros Hin. now apply N in Hin.
  - rewrite (del_diverge fuel key cpk depth n c a pt b k' E1 E2 Hab) in H.
    injection H as <- <-.
    assert (N : forall x, ~ In (skipn depth key, x) (entries (live n)))
      by (intros x; rewrite E2;
          apply (entries_diverge _ _ _ _ _ _ _ E1 Hab)).
    split; [exact O|]. split; [now apply removed_absent|].
    intros x. split; [discriminate|]. intros Hin. now apply N in Hin.
  - pose proof E as R. apply skipn_skipn_rest in R.
    destruct (find_child n b) as [c|] eqn:Hc.
    + rewrite (del_descend fuel key cpk depth n b k' c E Hc) in H.
      destruct (del_loop fuel key None (Some []) (Some b)
                         (depth + (prefix_len_ n + 1)) c)
        as [[a c']|e] eqn:Hs; [|discriminate].
      injection H as <- <-.
      destruct (IH (depth + (prefix_len_ n + 1)) (Some b) c c' a)
        as [Oc [U Hr]]; [| |exact Hs|].
      * pose proof (rest_length _ _ _ E) as L.
        rewrite length_app in L. simpl in L. unfold prefix_len_. lia.
      * now apply ordered_child with n b.
      * unfold prefix_len_ in U, Hr. rewrite R in U, Hr.
        split; [|split].
        -- apply ordered_intro.
           ++ cbn [put_child with_children children_].
              now rewrite ascending_replace.
           ++ cbn [put_child with_children children_].
              intros k d Hin. apply (in_replace _ _ _ _ _ _ Ha Hc) in Hin.
              destruct Hin as [[-> ->]|[_ Hin]]; [exact Oc|].
              now apply Hch with k.
        -- rewrite E. now apply removed_under with c.
        -- intros x. rewrite Hr, E, (entries_below n b k' x Ha), Hc.
           split; [intros Hin; now exists c|].
           intros [d [Hd Hin]]. congruence.
    + rewrite (del_no_child fuel key cpk depth n b k' E Hc) in H.
      injection H as <- <-.
      assert (N : forall x, ~ In (skipn depth key, x) (entries (live n))).
      { intros x. rewrite E, (entries_below n b k' x Ha), Hc.
        intros [d [Hd _]]. discriminate. }
      split; [exact O|]. split; [now apply removed_absent|].
      intros x. split; [discriminate|]. intros Hin. now apply N in Hin.
Qed.

(** ** The operations on a tree that may hold deleted leaves *)

Lemma get_ordered (t : art T) key :
  ordered_tree t = true ->
  (exists r, get key t = Ok (r, t) /\ forall x, r = Some x <-> binds t key x)
  \/ get key t = Fault UseAfterFree.
Proof.
  intros O. unfold ordered_tree in O. apply orb_true_iff in O.
  unfold get, bind, load, lift, root_slot, slot_load.
  destruct O as [N|O].
  - destruct t; try discriminate. left. exists None.
    split; [reflexivity|]. intros x. unfold binds. simpl.
    split; [discriminate|tauto].
  - destruct (get_loop_ordered key (budget key) 0 t O) as [[r [Hr Hx]]|Hf];
      [unfold budget; simpl; lia| |].
    + left. exists r. rewrite Hr. split; [reflexivity|exact Hx].
    + right. now rewrite Hf.
Qed.

Lemma set_ordered (t t' : art T) key v old :
  ordered_tree t = true ->
  set key (Some v) t = Ok (old, t') ->
  ordered_tree t' = true
  /\ updated (entries t) key v (entries t')
  /\ forall x, old = Some x <-> binds t key x.
Proof.
  intros O H. unfold ordered_tree in O. apply orb_true_iff in O.
  unfold set, bind, load, root_slot, slot_load in H.
  destruct t as [| |n]; cbn [is_null] in H.
  - injection H as <- <-. split; [reflexivity|]. split.
    + intros k x. rewrite entries_new_leaf. simpl. tauto.
    + intros x. unfold binds. simpl. split; [discriminate|tauto].
  - destruct O; discriminate.
  - destruct O as [N|O]; [discriminate|].
    destruct (set_loop_ordered key v (budget key) 0 (live n) t' old O H)
      as [O' [U Hx]].
    split; [|split; [exact U|exact Hx]].
    unfold ordered_tree. rewrite O'. apply orb_true_r.
Qed.

Lemma del_ordered (t t' : art T) key old :
  ordered_tree t = true ->
  del key t = Ok (old, t') ->
  ordered_tree t' = true
  /\ removed (entries t) key (entries t')
  /\ forall x, old = Some x <-> binds t key x.
Proof.
  intros O H. unfold ordered_tree in O. apply orb_true_iff in O.
  unfold del, bind, load, root_slot, slot_load in H.
  destruct t as [| |n]; cbn [is_null] in H.
  - injection H as <- <-. split; [reflexivity|]. split.
    + intros k x. simpl. tauto.
    + intros x. unfold binds. simpl. split; [discriminate|tauto].
  - destruct O; discriminate.
  - destruct O as [N|O]; [discriminate|].
    destruct (del_loop_ordered key (budget key) 0 None (live n) t' old)
      as [O' [U Hx]]; [lia|exact O|exact H|].
    split; [|split; [exact U|exact Hx]].
    unfold ordered_tree. rewrite O'. apply orb_true_r.
Qed.

(** ** Sequences of mutations *)

Lemma run_models (ops : list (op T)) : forall (t0 t : art T) m,
  ordered_tree t0 = true -> models t0 m -> run ops t0 = Ok t ->
  ordered_tree t = true
  /\ models t (fun k => expected ops k (m k)).
Proof.
  induction ops as [|o ops IH]; intros t0 t m O M H.
  - simpl in H. injection H as <-. now split.
  - cbn [run] in H. destruct (apply o t0) as [[r t1]|e] eqn:A;
      [|discriminate].
    destruct o as [key v|key]; cbn [apply] in A; cbn [expected].
    + destruct (set_ordered t0 t1 key v r O A) as [O1 [U _]].
      apply (IH t1 t (fun k => if list_eq_dec Byte.byte_eq_dec key k
                               then Some v else m k) O1); [|exact H].
      intros k x. unfold binds. rewrite (U k x).
      destruct (list_eq_dec Byte.byte_eq_dec key k) as [->|Hk].
      * split; [intros [[_ ->]|[Hn _]]; congruence|].
        intros E. left. split; congruence.
      * rewrite <- (M k x). unfold binds.
        split; [intros [[Hn _]|[_ Hin]]; congruence|].
        intros Hin. right. split; congruence.
    + destruct (del_ordered t0 t1 key r O A) as [O1 [U _]].
      apply (IH t1 t (fun k => if list_eq_dec Byte.byte_eq_dec key k
                               then None else m k) O1); [|exact H].
      intros k x. unfold binds. rewrite (U k x).
      destruct (list_eq_dec Byte.byte_eq_dec key k) as [->|Hk].
      * split; [intros [Hn _]; congruence|discriminate].
      * rewrite <- (M k x). unfold binds.
        split; [intros [_ Hin]; exact Hin|].
        intros Hin. split; congruence.
Qed.

Lemma models_empty : models (@empty T) (fun _ => None).
Proof. intros k x. unfold binds. simpl. split; [tauto|discriminate]. Qed.

End WithT.
End ReachFacts.

(* ================================================================== *)
(** * The way to the node of a key *)
(* ================================================================== *)

Module PathFacts.
Import Bytes Node Art Tree Reach.
Import BytesFacts PrefixFacts SlotFacts LoopFacts TreeFacts.
Import GetFacts SetFacts DelFacts ReachFacts.

Section WithT.
Context {T : Type}.
Implicit Types (n : node T) (ch : list (byte * ptr T)).

Lemma skipn_le (key : list byte) depth x rest :
  skipn depth key = x :: rest -> depth <= List.length key.
Proof.
  intros H. destruct (le_lt_dec depth (List.length key)) as [L|L];
    [exact L|].
  rewrite skipn_all2 in H by lia. discriminate.
Qed.

Lemma depth_below (key : list byte) depth n b k' :
  skipn depth key = prefix_ n ++ b :: k' ->
  depth + (prefix_len_ n + 1) <= List.length key.
Proof.
  intros E. pose proof (rest_length _ _ _ E) as L.
  rewrite length_app in L. simpl in L. unfold prefix_len_. lia.
Qed.

Lemma fuel_below (key : list byte) depth n b k' fuel :
  skipn depth key = prefix_ n ++ b :: k' ->
  List.length (skipn depth key) < S fuel ->
  List.length (skipn (depth + (prefix_len_ n + 1)) key) < fuel.
Proof.
  intros E F. unfold prefix_len_. rewrite (skipn_skipn_rest _ _ _ _ _ E).
  rewrite E, length_app in F. simpl in F. lia.
Qed.

(** ** [set] of a key to the value it has *)

Lemma set_loop_same key v : forall fuel depth (p : ptr T),
  wf p = true ->
  List.length (skipn depth key) < fuel ->
  In (skipn depth key, v) (entries p) ->
  set_loop fuel key (Some v) [] depth p = Ok (Some v, p).
Proof.
  induction fuel as [|fuel IH]; intros depth p W F B; [lia|].
  destruct (wf_is_live _ W) as [n ->].
  destruct (classify (prefix_ n) (skipn depth key))
    as [E|b pt E|c a pt b k' E1 E2 Hab|b k' E].
  - symmetry in E. rewrite (set_exact fuel key (Some v) depth n E).
    rewrite E in B. apply entries_exact in B.
    rewrite B. rewrite <- B at 2. now rewrite with_value_same.
  - now apply (entries_shorter _ _ _ _ _ E) in B.
  - rewrite E2 in B. now apply (entries_diverge _ _ _ _ _ _ _ E1 Hab) in B.
  - pose proof B as B'. rewrite E in B'.
    apply (entries_continue n b k' v W) in B'. destruct B' as [c [Hc Hin]].
    rewrite (set_descend fuel key (Some v) depth n b k' c E Hc).
    rewrite IH.
    + now rewrite (put_child_same n b c Hc).
    + now apply wf_child with n b.
    + now apply fuel_below with b k'.
    + unfold prefix_len_. now rewrite (skipn_skipn_rest _ _ _ _ _ E).
Qed.

(** ** [del] on a well-formed tree returns *)

Lemma del_loop_returns key : forall fuel depth cpk (p : ptr T),
  wf p = true ->
  depth <= List.length key ->
  List.length (skipn depth key) < fuel ->
  exists r p', del_loop fuel key None (Some []) cpk depth p = Ok (r, p').
Proof.
  induction fuel as [|fuel IH]; intros depth cpk p W D F; [lia|].
  destruct (wf_is_live _ W) as [n ->].
  pose proof W as W'. apply wf_live in W'. destruct W' as [Ha Hch].
  destruct (classify (prefix_ n) (skipn depth key))
    as [E|b pt E|c a pt b k' E1 E2 Hab|b k' E].
  - symmetry in E. rewrite (del_exact fuel key cpk depth n D E).
    destruct (children_ n) as [|[k c] [|kc2 ch]] eqn:Ch.
    + rewrite (del_here_leaf cpk n Ch). eauto.
    + rewrite (del_here_one cpk n k c Ch).
      assert (Wc : wf c = true) by (apply Hch with k; now left).
      destruct (wf_is_live _ Wc) as [cn ->]. simpl. eauto.
    + rewrite (del_here_many cpk n)
        by (unfold n_children; rewrite Ch; simpl; lia).
      eauto.
  - rewrite (del_shorter fuel key cpk depth n b pt E). eauto.
  - rewrite (del_diverge fuel key cpk depth n c a pt b k' E1 E2 Hab). eauto.
  - destruct (find_child n b) as [c|] eqn:Hc.
    + rewrite (del_descend fuel key cpk depth n b k' c E Hc).
      destruct (IH (depth + (prefix_len_ n + 1)) (Some b) c)
        as [r [c' Hs]].
      * now apply wf_child with n b.
      * now apply depth_below with b k'.
      * now apply fuel_below with b k'.
      * rewrite Hs. eauto.
    + rewrite (del_no_child fuel key cpk depth n b k' E Hc). eauto.
Qed.

(** ** [del] of a key that other keys go on from *)

Lemma del_loop_inner key b rest w : forall fuel depth cpk (p : ptr T),
  wf p = true ->
  depth <= List.length key ->
  List.length (skipn depth key) < fuel ->
  In (skipn depth key ++ b :: rest, w) (entries p) ->
  exists r p', del_loop fuel key None (Some []) cpk depth p = Ok (r, p')
               /\ wf p' = true.
Proof.
  induction fuel as [|fuel IH]; intros depth cpk p W D F B; [lia|].
  destruct (wf_is_live _ W) as [n ->].
  pose proof W as W'. apply wf_live in W'. destruct W' as [Ha Hch].
  destruct (classify (prefix_ n) (skipn depth key))
    as [E|b0 pt E|c a pt b0 k' E1 E2 Hab|b0 k' E].
  - symmetry in E. rewrite (del_exact fuel key cpk depth n D E).
    rewrite E in B. apply (entries_continue n b rest w W) in B.
    destruct B as [d [Hd _]].
    destruct (children_ n) as [|[k c] [|kc2 ch]] eqn:Ch.
    + unfold find_child in Hd. rewrite Ch in Hd. discriminate.
    + rewrite (del_here_one cpk n k c Ch).
      assert (Wc : wf c = true) by (apply Hch with k; now left).
      destruct (wf_is_live _ Wc) as [cn ->]. simpl.
      eexists. eexists. split; [reflexivity|exact Wc].
    + rewrite (del_here_many cpk n)
        by (unfold n_children; rewrite Ch; simpl; lia).
      eexists. eexists. split; [reflexivity|]. exact W.
  - rewrite (del_shorter fuel key cpk depth n b0 pt E). eauto.
  - rewrite (del_diverge fuel key cpk depth n c a pt b0 k' E1 E2 Hab).
    eauto.
  - destruct (find_child n b0) as [c|] eqn:Hc.
    + rewrite (del_descend fuel key cpk depth n b0 k' c E Hc).
      rewrite E, <- app_assoc in B. simpl in B.
      apply (entries_continue n b0 _ w W) in B.
      destruct B as [c0 [Hc0 B]].
      assert (c0 = c) as -> by congruence.
      destruct (IH (depth + (prefix_len_ n + 1)) (Some b0) c)
        as [r [c' [Hs Wc]]].
      * now apply wf_child with n b0.
      * now apply depth_below with b0 k'.
      * now apply fuel_below with b0 k'.
      * unfold prefix_len_. now rewrite (skipn_skipn_rest _ _ _ _ _ E).
      * rewrite Hs. eexists. eexists. split; [reflexivity|].
        apply wf_live_intro.
        -- cbn [put_child with_children children_].
           now rewrite ascending_replace.
        -- cbn [put_child with_children children_].
           intros k d Hin. apply (in_replace _ _ _ _ _ _ Ha Hc) in Hin.
           destruct Hin as [[-> ->]|[_ Hin]]; [exact Wc|].
           now apply Hch with k.
    + rewrite (del_no_child fuel key cpk depth n b0 k' E Hc). eauto.
Qed.

(** ** Subtrees hold bindings *)

(** A well-formed subtree whose value-less nodes have children binds a
    key. *)
Lemma entries_inhabited (p : ptr T) :
  wf p = true -> compressed p = true -> exists k x, In (k, x) (entries p).
Proof.
  induction p as [| |n IH] using ptr_nested_ind; try discriminate.
  intros W C. apply wf_live in W. destruct W as [Ha Hch].
  pose proof C as C'. apply compressed_live in C'. destruct C' as [Cv Cc].
  destruct (value_ n) as [v|] eqn:V.
  - exists (prefix_ n), v. apply entries_live. now left.
  - specialize (Cv eq_refl). unfold n_children in Cv.
    destruct (children_ n) as [|[k c] ch] eqn:Ch; [simpl in Cv; lia|].
    rewrite Forall_forall in IH.
    destruct (IH (k, c) (or_introl eq_refl)) as [r [x Hin]].
    + apply Hch with k. now left.
    + apply Cc with k. now left.
    + exists (prefix_ n ++ k :: r), x. apply entries_live. right.
      exists k, c, r. rewrite Ch. split; [reflexivity|].
      split; [now left|exact Hin].
Qed.

(** ** [del] of a key that no other key goes on from *)

Lemma del_loop_leaf key v : forall fuel depth cpk (p : ptr T),
  wf p = true -> compressed p = true ->
  depth <= List.length key ->
  List.length (skipn depth key) < fuel ->
  In (skipn depth key, v) (entries p) ->
  (forall b rest w, ~ In (skipn depth key ++ b :: rest, w) (entries p)) ->
  exists p', del_loop fuel key None (Some []) cpk depth p = Ok (Some v, p')
             /\ ordered p' = true /\ stale p' = true
             /\ get_loop fuel key p' depth = Fault UseAfterFree
             /\ (forall value,
                   set_loop fuel key value [] depth p'
                   = Fault UseAfterFree)
             /\ (forall cpk',
                   del_loop fuel key None (Some []) cpk' depth p'
                   = Fault UseAfterFree).
Proof.
  induction fuel as [|fuel IH]; intros depth cpk p W C D F B N; [lia|].
  destruct (wf_is_live _ W) as [n ->].
  pose proof W as W'. apply wf_live in W'. destruct W' as [Ha Hch].
  pose proof C as C'. apply compressed_live in C'. destruct C' as [Cv Cc].
  destruct (classify (prefix_ n) (skipn depth key))
    as [E|b0 pt E|c a pt b0 k' E1 E2 Hab|b0 k' E].
  - symmetry in E. rewrite (del_exact fuel key cpk depth n D E).
    rewrite E in B, N. apply entries_exact in B.
    assert (Ch : children_ n = []).
    { destruct (children_ n) as [|[k c] ch] eqn:Ch; [reflexivity|].
      exfalso.
      destruct (entries_inhabited c) as [r [x Hin]].
      - apply Hch with k. now left.
      - apply Cc with k. now left.
      - apply (N k r x). apply entries_live. right.
        exists k, c, r. rewrite Ch. split; [reflexivity|].
        split; [now left|exact Hin]. }
    rewrite (del_here_leaf cpk n Ch), B.
    exists dangling. now repeat split.
  - now apply (entries_shorter _ _ _ _ _ E) in B.
  - rewrite E2 in B. now apply (entries_diverge _ _ _ _ _ _ _ E1 Hab) in B.
  - pose proof B as B'. rewrite E in B'.
    apply (entries_continue n b0 k' v W) in B'.
    destruct B' as [c [Hc Hin]].
    rewrite (del_descend fuel key cpk depth n b0 k' c E Hc).
    destruct (IH (depth + (prefix_len_ n + 1)) (Some b0) c)
      as [c' [Hs [Oc [Sc [Hg [Hset Hdel]]]]]].
    + now apply wf_child with n b0.
    + now apply compressed_child with n b0.
    + now apply depth_below with b0 k'.
    + now apply fuel_below with b0 k'.
    + unfold prefix_len_. now rewrite (skipn_skipn_rest _ _ _ _ _ E).
    + intros b rest w Hw. unfold prefix_len_ in Hw.
      rewrite (skipn_skipn_rest _ _ _ _ _ E) in Hw.
      apply (N b rest w). rewrite E, <- app_assoc. simpl.
      apply (entries_continue n b0 _ w W). now exists c.
    + rewrite Hs. exists (live (put_child n b0 c')).
      pose proof (find_put_child n b0 c' c Hc) as Hc'.
      split; [reflexivity|]. split; [|split; [|split; [|split]]].
      * apply ordered_intro.
        -- cbn [put_child with_children children_].
           now rewrite ascending_replace.
        -- cbn [put_child with_children children_].
           intros k d Hk. apply (in_replace _ _ _ _ _ _ Ha Hc) in Hk.
           destruct Hk as [[-> ->]|[_ Hk]]; [exact Oc|].
           apply wf_ordered. now apply Hch with k.
      * cbn [stale put_child with_children children_].
        apply existsb_exists. exists (b0, c'). split; [|exact Sc].
        apply (in_replace _ _ _ _ _ _ Ha Hc). now left.
      * rewrite (get_continue fuel key depth (put_child n b0 c') b0 k' E).
        rewrite Hc', <- Nat.add_assoc. exact Hg.
      * intros value.
        rewrite (set_descend fuel key value depth (put_child n b0 c') b0 k'
                             c' E Hc').
        change (prefix_len_ (put_child n b0 c')) with (prefix_len_ n).
        now rewrite Hset.
      * intros cpk'.
        rewrite (del_descend fuel key cpk' depth (put_child n b0 c') b0 k'
                             c' E Hc').
        change (prefix_len_ (put_child n b0 c')) with (prefix_len_ n).
        now rewrite Hdel.
Qed.

(** ** [set] of a new key that other keys go on from, then [del] *)

Lemma with_value_back n v :
  value_ n = None -> with_value (with_value n v) None = n.
Proof. destruct n. simpl. now intros ->. Qed.

Lemma with_prefix_back n q : with_prefix (with_prefix n q) (prefix_ n) = n.
Proof. now destruct n. Qed.

Lemma set_del_loop key v b rest w : forall fuel depth cpk (p : ptr T),
  wf p = true -> compressed p = true ->
  depth <= List.length key ->
  List.length (skipn depth key) < fuel ->
  (forall x, ~ In (skipn depth key, x) (entries p)) ->
  In (skipn depth key ++ b :: rest, w) (entries p) ->
  exists p1, set_loop fuel key (Some v) [] depth p = Ok (None, p1)
             /\ del_loop fuel key None (Some []) cpk depth p1
                = Ok (Some v, p).
Proof.
  induction fuel as [|fuel IH]; intros depth cpk p W C D F N B; [lia|].
  destruct (wf_is_live _ W) as [n ->].
  pose proof W as W'. apply wf_live in W'. destruct W' as [Ha Hch].
  destruct (classify (prefix_ n) (skipn depth key))
    as [E|b0 pt E|c a pt b0 k' E1 E2 Hab|b0 k' E].
  - symmetry in E.
    assert (V : value_ n = None).
    { destruct (value_ n) as [x|] eqn:V; [|reflexivity].
      exfalso. apply (N x). rewrite E. now apply entries_exact. }
    rewrite (set_exact fuel key (Some v) depth n E), V.
    eexists. split; [reflexivity|].
    rewrite (del_exact fuel key cpk depth (with_value n (Some v)) D E).
    rewrite del_here_many by exact (compressed_no_value n C V).
    now rewrite (with_value_back n (Some v) V).
  - rewrite (set_shorter fuel key (Some v) depth n b0 pt E).
    set (n1 := set_child
                 (with_prefix (with_value node_4 (Some v)) (skipn depth key))
                 b0 (live (with_prefix n pt))).
    exists (live n1). split; [reflexivity|].
    rewrite (del_exact fuel key cpk depth n1 D eq_refl).
    rewrite (del_here_one cpk n1 b0 (live (with_prefix n pt)) eq_refl).
    cbn [deref n1 set_child with_children with_prefix with_value node_4
         prefix_ value_].
    rewrite <- E. now rewrite with_prefix_back.
  - exfalso. rewrite E2, <- app_assoc in B. simpl in B.
    now apply (entries_diverge _ _ _ _ _ _ _ E1 Hab) in B.
  - rewrite E, <- app_assoc in B. simpl in B.
    apply (entries_continue n b0 _ w W) in B. destruct B as [c [Hc B]].
    rewrite (set_descend fuel key (Some v) depth n b0 k' c E Hc).
    destruct (IH (depth + (prefix_len_ n + 1)) (Some b0) c)
      as [c1 [Hs Hd]].
    + now apply wf_child with n b0.
    + now apply compressed_child with n b0.
    + now apply depth_below with b0 k'.
    + now apply fuel_below with b0 k'.
    + intros x Hx. unfold prefix_len_ in Hx.
      rewrite (skipn_skipn_rest _ _ _ _ _ E) in Hx.
      apply (N x). rewrite E. apply (entries_continue n b0 k' x W).
      now exists c.
    + unfold prefix_len_. now rewrite (skipn_skipn_rest _ _ _ _ _ E).
    + rewrite Hs. eexists. split; [reflexivity|].
      rewrite (del_descend fuel key cpk depth (put_child n b0 c1) b0 k' c1
                           E (find_put_child n b0 c1 c Hc)).
      change (prefix_len_ (put_child n b0 c1)) with (prefix_len_ n).
      rewrite Hd, put_put_child, (put_child_same n b0 c Hc). reflexivity.
Qed.

End WithT.
End PathFacts.

(* ================================================================== *)
(** * Bindings in key order *)
(* ================================================================== *)

Module ListingFacts.
Import Bytes Node Art Tree TreeIt Reach.
Import BytesFacts PrefixFacts SlotFacts LoopFacts TreeFacts.
Import GetFacts SetFacts DelFacts OrderFacts ItFacts ReachFacts PathFacts.

Lemma lex_ltb_trans (a : list byte) : forall b c,
  lex_ltb a b = true -> lex_ltb b c = true -> lex_ltb a c = true.
Proof.
  induction a as [|x a IH]; intros [|y b] [|z c]; simpl;
    try discriminate; try reflexivity.
  destruct (ltb x y) eqn:Lxy.
  - intros _. destruct (ltb y z) eqn:Lyz.
    + intros _. now rewrite (ltb_trans _ _ _ Lxy Lyz).
    + destruct (Byte.eqb y z) eqn:Eyz; [|discriminate].
      apply eqb_eq in Eyz. subst z. now rewrite Lxy.
  - destruct (Byte.eqb x y) eqn:Exy; [|discriminate].
    apply eqb_eq in Exy. subst y. intros Hab.
    destruct (ltb x z); [reflexivity|].
    destruct (Byte.eqb x z); [|discriminate].
    now apply IH.
Qed.

(** Two keys neither of which is below the other are one key. *)
Lemma lex_ltb_neither (a : list byte) : forall b,
  lex_ltb a b = false -> lex_ltb b a = false -> a = b.
Proof.
  induction a as [|x a IH]; intros [|y b]; simpl; try discriminate;
    [reflexivity|].
  destruct (ltb x y) eqn:Lxy; [discriminate|].
  destruct (ltb y x) eqn:Lyx.
  - destruct (Byte.eqb x y) eqn:E; [|discriminate].
    apply eqb_eq in E. subst y. rewrite ltb_irrefl in Lyx. discriminate.
  - rewrite (ltb_neither _ _ Lxy Lyx), eqb_refl.
    intros H1 H2. f_equal. now apply IH.
Qed.

Section WithT.
Context {T : Type}.
Implicit Types (l : list (list byte * T)).

Lemma key_lt_irrefl (e : list byte * T) : ~ key_lt e e.
Proof. unfold key_lt. now rewrite lex_ltb_irrefl. Qed.

Lemma key_lt_asym (a b : list byte * T) : key_lt a b -> ~ key_lt b a.
Proof.
  unfold key_lt. intros H. now rewrite (lex_ltb_asym _ _ H).
Qed.

(** Lists in key order with the same members are one list. *)
Lemma sorted_unique l1 : forall l2,
  StronglySorted key_lt l1 -> StronglySorted key_lt l2 ->
  (forall e, In e l1 <-> In e l2) -> l1 = l2.
Proof.
  induction l1 as [|a l1 IH]; intros [|b l2] S1 S2 H.
  - reflexivity.
  - exfalso. apply (H b). now left.
  - exfalso. apply (H a). now left.
  - inversion S1 as [|? ? S1' F1]; subst.
    inversion S2 as [|? ? S2' F2]; subst.
    rewrite Forall_forall in F1, F2.
    assert (a = b) as ->.
    { destruct (proj1 (H a) (or_introl eq_refl)) as [E|Ha]; [now symmetry|].
      destruct (proj2 (H b) (or_introl eq_refl)) as [E|Hb]; [exact E|].
      exfalso. apply (key_lt_asym a b); [now apply F1|now apply F2]. }
    f_equal. apply IH; [exact S1'|exact S2'|].
    intros e. split; intros He.
    + destruct (proj1 (H e) (or_intror He)) as [E|He']; [|exact He'].
      subst e. exfalso. apply (key_lt_irrefl b). now apply F1.
    + destruct (proj2 (H e) (or_intror He)) as [E|He']; [|exact He'].
      subst e. exfalso. apply (key_lt_irrefl b). now apply F2.
Qed.

Lemma upsert_in key v l : 
  StronglySorted key_lt l ->
  forall k x, In (k, x) (upsert key v l) <->
              (k = key /\ x = v) \/ (k <> key /\ In (k, x) l).
Proof.
  induction 1 as [|[k0 x0] l S IH F]; intros k x.
  - simpl. split; [intros [E|[]]; inversion E; auto|].
    intros [[-> ->]|[_ []]]. now left.
  - rewrite Forall_forall in F. cbn [upsert].
    destruct (lex_ltb key k0) eqn:L1.
    + split.
      * intros [E|Hin]; [inversion E; auto|]. right. split; [|exact Hin].
        intros ->. destruct Hin as [E|Hin].
        -- inversion E; subst. rewrite lex_ltb_irrefl in L1. discriminate.
        -- specialize (F _ Hin). unfold key_lt in F. simpl in F.
           rewrite (lex_ltb_asym _ _ L1) in F. discriminate.
      * intros [[-> ->]|[_ Hin]]; [now left|now right].
    + destruct (lex_ltb k0 key) eqn:L2.
      * simpl. rewrite IH. split.
        -- intros [E|[H|[Hk Hin]]]; auto.
           inversion E; subst. right. split; [|now left].
           intros ->. rewrite lex_ltb_irrefl in L2. discriminate.
        -- intros [H|[Hk [E|Hin]]]; auto.
      * pose proof (lex_ltb_neither _ _ L1 L2) as <-. split.
        -- intros [E|Hin]; [inversion E; auto|]. right. split; [|now right].
           intros ->. specialize (F _ Hin). unfold key_lt in F. simpl in F.
           rewrite lex_ltb_irrefl in F. discriminate.
        -- intros [[-> ->]|[Hk [E|Hin]]]; [now left| |now right].
           inversion E; congruence.
Qed.

Lemma upsert_sorted key v l :
  StronglySorted key_lt l -> StronglySorted key_lt (upsert key v l).
Proof.
  induction 1 as [|[k0 x0] l S IH F].
  - simpl. repeat constructor.
  - pose proof F as F'. rewrite Forall_forall in F'. cbn [upsert].
    destruct (lex_ltb key k0) eqn:L1.
    + constructor; [now constructor|].
      constructor; [exact L1|].
      apply Forall_forall. intros e He. specialize (F' e He).
      unfold key_lt in *. simpl in *. now apply lex_ltb_trans with k0.
    + destruct (lex_ltb k0 key) eqn:L2.
      * constructor; [exact IH|].
        apply Forall_forall. intros [k x] He.
        apply (upsert_in key v l S) in He.
        destruct He as [[-> ->]|[_ He]]; [exact L2|now apply F'].
      * pose proof (lex_ltb_neither _ _ L1 L2) as <-.
        constructor; [exact S|].
        apply Forall_forall. intros e He. exact (F' e He).
Qed.

Lemma without_in key l k x :
  In (k, x) (without key l) <-> k <> key /\ In (k, x) l.
Proof.
  unfold without. rewrite filter_In. simpl.
  destruct (list_eq_dec Byte.byte_eq_dec k key) as [->|Hk].
  - split; [intros [_ H]; discriminate|intros [H _]; congruence].
  - tauto.
Qed.

(** The bindings after an update, in key order. *)
Lemma updated_listing (t t' : art T) key v :
  wf_tree t = true -> wf_tree t' = true ->
  updated (entries t) key v (entries t') ->
  entries t' = upsert key v (entries t).
Proof.
  intros W W' U. apply sorted_unique.
  - now apply tree_entries_sorted.
  - apply upsert_sorted. now apply tree_entries_sorted.
  - intros [k x]. rewrite (U k x).
    now rewrite (upsert_in key v _ (tree_entries_sorted t W)).
Qed.

Lemma removed_listing (t t' : art T) key :
  wf_tree t = true -> wf_tree t' = true ->
  removed (entries t) key (entries t') ->
  entries t' = without key (entries t).
Proof.
  intros W W' U. apply sorted_unique.
  - now apply tree_entries_sorted.
  - apply sorted_filter. now apply tree_entries_sorted.
  - intros [k x]. now rewrite (U k x), without_in.
Qed.

End WithT.
End ListingFacts.

(* ================================================================== *)
(** * Size classes and the compression invariant *)
(* ================================================================== *)

Module ClassFacts.
Import Bytes Node Art Tree Reach.
Import BytesFacts PrefixFacts SlotFacts LoopFacts TreeFacts.
Import GetFacts SetFacts DelFacts ReachFacts PathFacts.

Ltac class_cases :=
  unfold class_for in *;
  repeat match goal with
         | H : context [?a =? ?b] |- _ => destruct (Nat.eqb_spec a b)
         | |- context [?a =? ?b] => destruct (Nat.eqb_spec a b)
         | H : context [?a <=? ?b] |- _ => destruct (Nat.leb_spec a b)
         | |- context [?a <=? ?b] => destruct (Nat.leb_spec a b)
         end;
  try discriminate; try reflexivity; try lia.

Section WithT.
Context {T : Type}.
Implicit Types (n : node T) (ch : list (byte * ptr T)).

Lemma class_eqb_eq (c d : node_class) : class_eqb c d = true <-> c = d.
Proof. destruct c, d; simpl; split; congruence. Qed.

Lemma tight_live n :
  tight (live n) = true <->
  class_ n = class_for (n_children n)
  /\ forall k (c : ptr T), In (k, c) (children_ n) -> tight c = true.
Proof.
  cbn [tight]. rewrite andb_true_iff, forallb_forall, class_eqb_eq. split.
  - intros [H1 H2]. split; [exact H1|].
    intros k c Hin. apply (H2 (k, c) Hin).
  - intros [H1 H2]. split; [exact H1|].
    intros [k c] Hin. now apply H2 with k.
Qed.

(** A node of the smallest class for its children, grown where it is
    full, is of the smallest class for one child more. *)
Lemma grow_tight n n' :
  class_ n = class_for (n_children n) ->
  (if is_full n then grow n else Ok n) = Ok n' ->
  class_ n' = class_for (S (n_children n)).
Proof.
  unfold is_full, grow. intros C.
  destruct (class_ n) eqn:K; cbn [capacity];
    match goal with
    | |- context [?a <=? ?b] => destruct (Nat.leb_spec a b) as [L|L]
    end;
    intros H; inversion H; subst; cbn [with_class class_]; try rewrite K;
      class_cases.
Qed.

Lemma set_loop_tight key v : forall fuel depth (p p' : ptr T) r,
  tight p = true ->
  set_loop fuel key (Some v) [] depth p = Ok (r, p') ->
  tight p' = true.
Proof.
  induction fuel as [|fuel IH]; intros depth p p' r C H; [discriminate|].
  destruct p as [| |n]; try discriminate.
  pose proof C as C'. apply tight_live in C'. destruct C' as [Cv Cc].
  destruct (classify (prefix_ n) (skipn depth key))
    as [E|b pt E|c a pt b k' E1 E2 Hab|b k' E].
  - symmetry in E. rewrite (set_exact fuel key (Some v) depth n E) in H.
    injection H as <- <-. exact C.
  - rewrite (set_shorter fuel key (Some v) depth n b pt E) in H.
    injection H as <- <-. apply tight_live. split; [reflexivity|].
    intros k d [Heq|[]]. inversion Heq; subst. exact C.
  - rewrite (set_diverge fuel key (Some v) depth n c a pt b k' E1 E2 Hab)
      in H.
    injection H as <- <-. apply tight_live. split.
    + unfold n_children.
      cbn [set_child with_children children_ with_prefix node_4 class_].
      now rewrite !insert_length.
    + cbn [set_child with_children children_ with_prefix node_4].
      intros k d Hin. apply in_insert in Hin.
      destruct Hin as [[-> ->]|[Heq|[]]]; [reflexivity|].
      inversion Heq; subst. exact C.
  - destruct (find_child n b) as [c|] eqn:Hc.
    + rewrite (set_descend fuel key (Some v) depth n b k' c E Hc) in H.
      destruct (set_loop fuel key (Some v) [] (depth + (prefix_len_ n + 1))
                         c) as [[a c']|e] eqn:Hs; [|discriminate].
      injection H as <- <-. apply tight_live. split.
      * unfold n_children. cbn [put_child with_children children_ class_].
        rewrite replace_length. exact Cv.
      * cbn [put_child with_children children_]. intros k d Hin.
        apply in_replace_inv in Hin. destruct Hin as [->|Hin];
          [|now apply Cc with k].
        apply (IH (depth + (prefix_len_ n + 1)) c c' a); [|exact Hs].
        apply Cc with b. now apply assoc_in.
    + rewrite (set_new_leaf fuel key (Some v) depth n b k' E Hc) in H.
      match type of H with
      | context [and_then ?x _] => destruct x as [n'|] eqn:G
      end; [|discriminate].
      pose proof (grow_tight n n' Cv G) as K.
      apply grow_same in G. destruct G as [P [V Ch]]. simpl in H.
      injection H as <- <-. apply tight_live. split.
      * unfold n_children in *.
        cbn [set_child with_children children_ class_].
        now rewrite insert_length, Ch.
      * cbn [set_child with_children children_]. rewrite Ch.
        intros k d Hin. apply in_insert in Hin.
        destruct Hin as [[-> ->]|Hin]; [reflexivity|]. now apply Cc with k.
Qed.

Lemma del_loop_tight key : forall fuel depth cpk (p p' : ptr T) r,
  depth <= List.length key ->
  tight p = true ->
  del_loop fuel key None (Some []) cpk depth p = Ok (r, p') ->
  tight p' = true.
Proof.
  induction fuel as [|fuel IH]; intros depth cpk p p' r D C H;
    [discriminate|].
  destruct p as [| |n]; try discriminate.
  pose proof C as C'. apply tight_live in C'. destruct C' as [Cv Cc].
  destruct (classify (prefix_ n) (skipn depth key))
    as [E|b pt E|c a pt b k' E1 E2 Hab|b k' E].
  - symmetry in E. rewrite (del_exact fuel key cpk depth n D E) in H.
    destruct (children_ n) as [|[k c] [|kc2 ch]] eqn:Ch.
    + rewrite (del_here_leaf cpk n Ch) in H. now injection H as <- <-.
    + rewrite (del_here_one cpk n k c Ch) in H.
      destruct c as [| |cn]; try discriminate. simpl in H.
      injection H as <- <-.
      assert (Cn : tight (live cn) = true) by (apply Cc with k; now left).
      exact Cn.
    + rewrite (del_here_many cpk n) in H
        by (unfold n_children; rewrite Ch; simpl; lia).
      injection H as <- <-. exact C.
  - rewrite (del_shorter fuel key cpk depth n b pt E) in H.
    now injection H as <- <-.
  - rewrite (del_diverge fuel key cpk depth n c a pt b k' E1 E2 Hab) in H.
    now injection H as <- <-.
  - destruct (find_child n b) as [c|] eqn:Hc.
    + rewrite (del_descend fuel key cpk depth n b k' c E Hc) in H.
      destruct (del_loop fuel key None (Some []) (Some b)
                         (depth + (prefix_len_ n + 1)) c)
        as [[a c']|e] eqn:Hs; [|discriminate].
      injection H as <- <-. apply tight_live. split.
      * unfold n_children. cbn [put_child with_children children_ class_].
        rewrite replace_length. exact Cv.
      * cbn [put_child with_children children_]. intros k d Hin.
        apply in_replace_inv in Hin. destruct Hin as [->|Hin];
          [|now apply Cc with k].
        apply (IH (depth + (prefix_len_ n + 1)) (Some b) c c' a);
          [| |exact Hs].
        -- now apply depth_below with b k'.
        -- apply Cc with b. now apply assoc_in.
    + rewrite (del_no_child fuel key cpk depth n b k' E Hc) in H.
      now injection H as <- <-.
Qed.

Lemma run_tight (ops : list (op T)) : forall t0 t,
  tight t0 = true -> run ops t0 = Ok t -> tight t = true.
Proof.
  induction ops as [|o ops IH]; intros t0 t C H.
  - simpl in H. now injection H as <-.
  - cbn [run] in H. destruct (apply o t0) as [[r t1]|e] eqn:A;
      [|discriminate].
    apply (IH t1 t); [|exact H]. clear IH H.
    destruct o as [key v|key]; cbn [apply] in A.
    + unfold set, bind, load, root_slot, slot_load in A.
      destruct t0 as [| |n]; cbn [is_null] in A.
      * now injection A as <- <-.
      * discriminate.
      * now apply (set_loop_tight key v (budget key) 0 (live n) t1 r).
    + unfold del, bind, load, root_slot, slot_load in A.
      destruct t0 as [| |n]; cbn [is_null] in A.
      * now injection A as <- <-.
      * discriminate.
      * apply (del_loop_tight key (budget key) 0 None (live n) t1 r);
          [lia|exact C|exact A].
Qed.

(** ** The compression invariant on a tree without deleted leaves *)

Lemma live_children n :
  (forall k (c : ptr T), In (k, c) (children_ n) -> wf c = true) ->
  child_nodes n = n_children n.
Proof.
  unfold child_nodes, n_children.
  induction (children_ n) as [|[k c] ch IH]; intros H; [reflexivity|].
  simpl. destruct (wf_is_live c) as [cn ->]; [apply H with k; now left|].
  simpl. f_equal. apply IH. intros k' c' Hin. apply H with k'. now right.
Qed.

Lemma wf_compression (p : ptr T) : forall has_parent,
  wf p = true -> compressed p = true ->
  compression_below has_parent p = true.
Proof.
  induction p as [| |n IH] using ptr_nested_ind; try discriminate.
  intros hp W C. apply wf_live in W. destruct W as [Ha Hch].
  apply compressed_live in C. destruct C as [Cv Cc].
  cbn [compression_below]. apply andb_true_iff. split.
  - rewrite (live_children n Hch). unfold no_value.
    destruct (value_ n) eqn:V; [now rewrite andb_false_r|].
    specialize (Cv eq_refl).
    destruct (Nat.ltb_spec (n_children n) 2); [lia|reflexivity].
  - apply forallb_forall. intros [k c] Hin.
    rewrite Forall_forall in IH. apply (IH (k, c) Hin).
    + now apply Hch with k.
    + now apply Cc with k.
Qed.

(** ** Sequences of [set]s *)

Lemma run_sets (ops : list (op T)) : forall t0,
  forallb is_set ops = true -> wf_tree t0 = true ->
  exists t, run ops t0 = Ok t /\ wf_tree t = true.
Proof.
  induction ops as [|o ops IH]; intros t0 S W.
  - exists t0. now split.
  - cbn [forallb] in S. apply andb_true_iff in S. destruct S as [So S].
    destruct o as [key v|key]; [|discriminate].
    destruct (set_updates t0 key v W) as [old [t1 [Hs [W1 _]]]].
    cbn [run apply]. rewrite Hs. now apply IH.
Qed.

End WithT.
End ClassFacts.

(* ================================================================== *)
(** * The destructor *)
(* ================================================================== *)

Module DropFacts.
Import Bytes Node Art Tree Reach Drop.
Import BytesFacts PrefixFacts SlotFacts LoopFacts TreeFacts.
Import GetFacts SetFacts DelFacts ReachFacts PathFacts.

Section WithT.
Context {T : Type}.
Implicit Types (n : node T) (ch : list (byte * ptr T)).

(** The [for] loop pushes the children in the order of the child map, so
    the last child is on top. *)
Lemma push_children_found n : forall ch node_stack,
  (forall k c, In (k, c) ch -> find_child n k = Some c) ->
  push_children n (map fst ch) node_stack
  = Ok (rev (map snd ch) ++ node_stack).
Proof.
  induction ch as [|[k c] ch IH]; intros st H; [reflexivity|].
  cbn [map fst snd push_children]. rewrite (H k c) by now left.
  rewrite IH by (intros k' c' Hin; apply H; now right).
  cbn [rev]. now rewrite <- app_assoc.
Qed.

Lemma push_children_all n node_stack :
  ascending (children_ n) = true ->
  push_children n (partial_keys n) node_stack
  = Ok (rev (map snd (children_ n)) ++ node_stack).
Proof.
  intros Ha. apply push_children_found.
  intros k c Hin. now apply in_assoc.
Qed.

Lemma drop_order_children (f : ptr T -> list (node T)) ch : forall later,
  fold_left (fun later kc => f (snd kc) ++ later) ch later
  = flat_map f (rev (map snd ch)) ++ later.
Proof.
  induction ch as [|kc ch IH]; intros later; [reflexivity|].
  cbn [fold_left map rev]. rewrite IH, flat_map_app. simpl.
  now rewrite app_nil_r, <- app_assoc.
Qed.

Lemma drop_order_live n :
  drop_order (live n)
  = n :: flat_map drop_order (rev (map snd (children_ n))).
Proof.
  cbn [drop_order]. f_equal.
  rewrite (drop_order_children drop_order). apply app_nil_r.
Qed.

Lemma size_live n :
  size (live n) = S (list_sum (map size (map snd (children_ n)))).
Proof. cbn [size]. now rewrite map_map. Qed.

Lemma list_sum_rev (l : list nat) : list_sum (rev l) = list_sum l.
Proof.
  induction l as [|a l IH]; [reflexivity|].
  simpl. rewrite list_sum_app, IH. simpl. lia.
Qed.

Lemma size_pushed n (node_stack : list (ptr T)) :
  list_sum (map size (rev (map snd (children_ n)) ++ node_stack))
  = list_sum (map size (map snd (children_ n)))
    + list_sum (map size node_stack).
Proof.
  now rewrite map_app, list_sum_app, map_rev, list_sum_rev.
Qed.

(** On a stack of well-formed subtrees the loop deletes the nodes of each
    in turn. *)
Lemma destroy_loop_wf : forall fuel (node_stack : list (ptr T)) deleted,
  Forall (fun p => wf p = true) node_stack ->
  list_sum (map size node_stack) <= fuel ->
  destroy_loop fuel node_stack deleted
  = Ok (deleted ++ flat_map drop_order node_stack).
Proof.
  induction fuel as [|fuel IH]; intros st deleted W F.
  - destruct st as [|cur st]; [simpl; now rewrite app_nil_r|].
    inversion W as [|? ? Wc _]; subst.
    destruct (wf_is_live _ Wc) as [n ->].
    change (list_sum (map size (live n :: st)))
      with (size (live n) + list_sum (map size st)) in F. rewrite size_live in F. lia.
  - destruct st as [|cur st]; [simpl; now rewrite app_nil_r|].
    inversion W as [|? ? Wc Wst]; subst.
    destruct (wf_is_live _ Wc) as [n ->].
    pose proof Wc as Wn. apply wf_live in Wn. destruct Wn as [Ha Hch].
    cbn [destroy_loop deref]. rewrite (push_children_all n st Ha).
    rewrite IH.
    + rewrite flat_map_app. cbn [flat_map]. rewrite drop_order_live.
      now rewrite <- !app_assoc.
    + apply Forall_app. split; [|exact Wst].
      apply Forall_forall. intros c Hc. apply in_rev in Hc.
      apply in_map_iff in Hc. destruct Hc as [[k c'] [<- Hin]].
      now apply Hch with k.
    + rewrite size_pushed. change (list_sum (map size (live n :: st)))
      with (size (live n) + list_sum (map size st)) in F.
      rewrite size_live in F. lia.
Qed.

(** On a stack of subtrees one of which holds a deleted leaf the loop
    comes to read a deleted node. *)
Lemma destroy_loop_stale : forall fuel (node_stack : list (ptr T)) deleted,
  Forall (fun p => ordered p = true) node_stack ->
  existsb stale node_stack = true ->
  list_sum (map size node_stack) <= fuel ->
  destroy_loop fuel node_stack deleted = Fault UseAfterFree.
Proof.
  induction fuel as [|fuel IH]; intros st deleted O S F.
  - destruct st as [|cur st]; [discriminate|].
    inversion O as [|? ? Oc _]; subst.
    destruct cur as [| |n]; [discriminate|reflexivity|].
    change (list_sum (map size (live n :: st)))
      with (size (live n) + list_sum (map size st)) in F. rewrite size_live in F. lia.
  - destruct st as [|cur st]; [discriminate|].
    inversion O as [|? ? Oc Ost]; subst.
    destruct cur as [| |n]; [discriminate|reflexivity|].
    pose proof Oc as On. apply ordered_live in On. destruct On as [Ha Hch].
    cbn [destroy_loop deref]. rewrite (push_children_all n st Ha).
    apply IH.
    + apply Forall_app. split; [|exact Ost].
      apply Forall_forall. intros c Hc. apply in_rev in Hc.
      apply in_map_iff in Hc. destruct Hc as [[k c'] [<- Hin]].
      now apply Hch with k.
    + rewrite existsb_app. cbn [existsb stale] in S.
      apply orb_true_iff in S. apply orb_true_iff.
      destruct S as [S|S]; [left|now right].
      apply existsb_exists in S. destruct S as [[k c] [Hin Sc]].
      apply existsb_exists. exists c. split; [|exact Sc].
      apply in_rev. rewrite rev_involutive.
      apply in_map_iff. now exists (k, c).
    + rewrite size_pushed. change (list_sum (map size (live n :: st)))
      with (size (live n) + list_sum (map size st)) in F.
      rewrite size_live in F. lia.
Qed.

Lemma flat_map_perm {A B} (f g : A -> list B) (l : list A) :
  Forall (fun a => Permutation (f a) (g a)) l ->
  Permutation (flat_map f l) (flat_map g l).
Proof.
  induction 1 as [|a l H _ IH]; [constructor|].
  simpl. now apply Permutation_app.
Qed.

(** The order of deletion lists the nodes of the tree. *)
Lemma drop_order_all (p : ptr T) : Permutation (drop_order p) (all_nodes p).
Proof.
  induction p as [| |n IH] using ptr_nested_ind;
    [apply perm_nil|apply perm_nil|].
  rewrite drop_order_live. cbn [all_nodes]. constructor.
  transitivity (flat_map drop_order (map snd (children_ n))).
  - apply Permutation_flat_map. symmetry. apply Permutation_rev.
  - rewrite flat_map_concat_map, map_map, <- flat_map_concat_map.
    apply flat_map_perm. exact IH.
Qed.

Lemma destructor_wf (t : art T) :
  wf_tree t = true -> destructor t = Ok (drop_order t).
Proof.
  intros W. unfold wf_tree in W. apply orb_true_iff in W.
  unfold destructor. destruct W as [N|W].
  - now destruct t.
  - destruct (wf_is_live _ W) as [n ->]. cbn [is_null].
    rewrite destroy_loop_wf.
    + simpl. now rewrite app_nil_r.
    + now constructor.
    + simpl. lia.
Qed.

Lemma destructor_stale (t : art T) :
  ordered_tree t = true -> stale t = true ->
  destructor t = Fault UseAfterFree.
Proof.
  intros O S. unfold ordered_tree in O. apply orb_true_iff in O.
  unfold destructor. destruct O as [N|O].
  - destruct t; discriminate.
  - destruct t as [| |n]; [discriminate|reflexivity|]. cbn [is_null].
    apply destroy_loop_stale.
    + now constructor.
    + simpl. now rewrite orb_false_r.
    + simpl. lia.
Qed.

End WithT.
End DropFacts.

(* ================================================================== *)
(** * The iterator of [begin()], null handles and the number of nodes *)
(* ================================================================== *)

Module MoreFacts.
Import Bytes Node Art Tree TreeIt Reach Drop.
Import BytesFacts PrefixFacts SlotFacts LoopFacts TreeFacts.
Import GetFacts SetFacts DelFacts OrderFacts ItFacts ReachFacts PathFacts.

Section WithT.
Context {T : Type}.
Implicit Types (n : node T) (ch : list (byte * ptr T)).

(** ** The iterator of [begin()] *)

Lemma remaining_min (t : art T) :
  wf_tree t = true ->
  remaining (min t) = entries t /\ it_wf (min t).
Proof.
  intros W. unfold wf_tree in W. apply orb_true_iff in W.
  destruct W as [N|W].
  - destruct t; try discriminate. split; [reflexivity|].
    split; [constructor|reflexivity].
  - pose proof (leftmost_spec t W [] [] (Forall_nil _)) as L.
    unfold min. rewrite shift_nil in L.
    destruct (leftmost [] t []) as [[e st]|].
    + destruct L as [L Wst]. cbn [stack_entries flat_map] in L.
      rewrite app_nil_r in L. split; [exact L|].
      split; [exact Wst|discriminate].
    + rewrite L. split; [reflexivity|].
      split; [constructor|reflexivity].
Qed.

(** ** [set] with a null value handle *)

Lemma set_loop_null key x : forall fuel depth (p : ptr T),
  wf p = true ->
  List.length (skipn depth key) < fuel ->
  In (skipn depth key, x) (entries p) ->
  exists p', set_loop fuel key None [] depth p = Ok (Some x, p')
             /\ wf p' = true
             /\ removed (entries p) (skipn depth key) (entries p').
Proof.
  induction fuel as [|fuel IH]; intros depth p W F B; [lia|].
  destruct (wf_is_live _ W) as [n ->].
  pose proof W as W'. apply wf_live in W'. destruct W' as [Ha Hch].
  destruct (classify (prefix_ n) (skipn depth key))
    as [E|b pt E|c a pt b k' E1 E2 Hab|b k' E].
  - symmetry in E. rewrite (set_exact fuel key None depth n E).
    rewrite E in B. apply entries_exact in B. rewrite B, E.
    eexists. split; [reflexivity|]. split; [exact W|].
    apply removed_value.
  - now apply (entries_shorter _ _ _ _ _ E) in B.
  - rewrite E2 in B. now apply (entries_diverge _ _ _ _ _ _ _ E1 Hab) in B.
  - pose proof B as B'. rewrite E in B'.
    apply (entries_continue n b k' x W) in B'. destruct B' as [c [Hc Hin]].
    rewrite (set_descend fuel key None depth n b k' c E Hc).
    destruct (IH (depth + (prefix_len_ n + 1)) c) as [c' [Hs [Wc U]]].
    + now apply wf_child with n b.
    + now apply fuel_below with b k'.
    + unfold prefix_len_. now rewrite (skipn_skipn_rest _ _ _ _ _ E).
    + rewrite Hs. eexists. split; [reflexivity|]. split.
      * apply wf_live_intro.
        -- cbn [put_child with_children children_].
           now rewrite ascending_replace.
        -- cbn [put_child with_children children_].
           intros k d Hk. apply (in_replace _ _ _ _ _ _ Ha Hc) in Hk.
           destruct Hk as [[-> ->]|[_ Hk]]; [exact Wc|].
           now apply Hch with k.
      * rewrite E. apply removed_under with c; [exact Ha|exact Hc|].
        unfold prefix_len_ in U.
        now rewrite (skipn_skipn_rest _ _ _ _ _ E) in U.
Qed.

(** ** The number of nodes *)

Lemma size_replaced ch b c c' :
  assoc ch b = Some c ->
  list_sum (map (fun kc => size (snd kc)) (replace ch b c')) + size c
  = list_sum (map (fun kc => size (snd kc)) ch) + size c'.
Proof.
  induction ch as [|[k d] ch IH]; [discriminate|].
  cbn [assoc replace]. destruct (Byte.eqb k b).
  - intros H. injection H as ->. simpl. lia.
  - intros H. specialize (IH H). simpl. lia.
Qed.

Lemma size_inserted ch b (c : ptr T) :
  list_sum (map (fun kc => size (snd kc)) (insert ch b c))
  = list_sum (map (fun kc => size (snd kc)) ch) + size c.
Proof.
  induction ch as [|[k d] ch IH]; [simpl; lia|].
  cbn [insert]. destruct (Bytes.ltb b k); simpl; [lia|].
  rewrite IH. lia.
Qed.

(** In the order of the source: the tree after [set] has the nodes it
    had and one or two more, or the nodes it had where the key was
    bound. *)
Lemma set_loop_size key v : forall fuel depth (p p' : ptr T) r,
  set_loop fuel key v [] depth p = Ok (r, p') ->
  size p <= size p' <= size p + 2.
Proof.
  induction fuel as [|fuel IH]; intros depth p p' r H; [discriminate|].
  destruct p as [| |n]; try discriminate.
  destruct (classify (prefix_ n) (skipn depth key))
    as [E|b pt E|c a pt b k' E1 E2 Hab|b k' E].
  - symmetry in E. rewrite (set_exact fuel key v depth n E) in H.
    injection H as <- <-. cbn [size with_value children_]. lia.
  - rewrite (set_shorter fuel key v depth n b pt E) in H.
    injection H as <- <-.
    simpl. lia.
  - rewrite (set_diverge fuel key v depth n c a pt b k' E1 E2 Hab) in H.
    injection H as <- <-.
    cbn [size set_child with_children with_prefix node_4 children_].
    rewrite size_inserted. simpl. lia.
  - destruct (find_child n b) as [c|] eqn:Hc.
    + rewrite (set_descend fuel key v depth n b k' c E Hc) in H.
      destruct (set_loop fuel key v [] (depth + (prefix_len_ n + 1)) c)
        as [[a c']|e] eqn:Hs; [|discriminate].
      injection H as <- <-. specialize (IH _ _ _ _ Hs).
      cbn [size put_child with_children children_].
      pose proof (size_replaced (children_ n) b c c' Hc). lia.
    + rewrite (set_new_leaf fuel key v depth n b k' E Hc) in H.
      match type of H with
      | context [and_then ?x _] => destruct x as [n'|] eqn:G
      end; [|discriminate].
      apply grow_same in G. destruct G as [P [V Ch]]. simpl in H.
      injection H as <- <-.
      cbn [size set_child with_children children_].
      rewrite size_inserted, Ch. simpl. lia.
Qed.

End WithT.
End MoreFacts.

(* ================================================================== *)
(** * [get], [set] and [del] on a well-formed tree *)
(* ================================================================== *)

Module GetProps.
Import Bytes Node Art Tree.
Import GetFacts SetFacts.

Section WithT.
Context {T : Type}.

(** X1: on a well-formed tree [get] returns, leaves the tree as it is,
    and what it returns is the value of the binding whose key, the
    concatenation of the prefixes and partial keys on the way to its node,
    is the key asked for: no handle where there is no such binding. *)
Theorem get_returns_the_binding (t : art T) (key : list byte) :
  wf_tree t = true ->
  exists r, get key t = Ok (r, t) /\ forall x, r = Some x <-> binds t key x.
Proof. apply get_binding. Qed.

End WithT.

Lemma get_returns_the_binding_witness :
  let t := live (new_leaf (of_string "a") (Some 1)) in
  wf_tree t = true
  /\ exists r, get (of_string "ab") t = Ok (r, t)
               /\ forall x, r = Some x <-> binds t (of_string "ab") x.
Proof.
  split; [reflexivity|].
  apply (get_returns_the_binding
           (live (new_leaf (of_string "a") (Some 1))) (of_string "ab")).
  reflexivity.
Defined.

End GetProps.

Module SetProps.
Import Bytes Node Art Tree Reach Drop.
Import TreeFacts GetFacts SetFacts ReachFacts PathFacts ListingFacts MoreFacts.
Import ItFacts.

Section WithT.
Context {T : Type}.

(** X2: on a well-formed tree [set] returns and leaves a well-formed
    tree, whose bindings in traversal order are those of the tree before
    with the new binding at the place of its key in lexicographic order,
    instead of the binding the key had. *)
Theorem set_lists_key_in_order (t : art T) (key : list byte) (v : T) :
  wf_tree t = true ->
  exists old t', set key (Some v) t = Ok (old, t')
                 /\ wf_tree t' = true
                 /\ entries t' = upsert key v (entries t).
Proof.
  intros W. destruct (set_updates t key v W) as [old [t' [Hs [W' U]]]].
  exists old, t'. split; [exact Hs|]. split; [exact W'|].
  now apply updated_listing.
Qed.

(** X3: after [set(k, v)] on a well-formed tree, [get(k)] returns [v]
    and [get] of every other key returns what it returned before. *)
Theorem set_then_get_round_trip (t : art T) (key : list byte) (v : T) :
  wf_tree t = true ->
  exists old t',
    set key (Some v) t = Ok (old, t')
    /\ returned (get key t') = Ok (Some v)
    /\ forall k, k <> key -> returned (get k t') = returned (get k t).
Proof.
  intros W. destruct (set_then_get t key v W) as [old [t' [Hs [_ [Hg Hk]]]]].
  now exists old, t'.
Qed.

(** X4: of two [set]s of one key in a row on a well-formed tree, the
    second returns the value of the first, and [get] then returns the
    value of the second. *)
Theorem second_set_returns_first (t : art T) (key : list byte) (v1 v2 : T) :
  wf_tree t = true ->
  exists old t1 t2,
    set key (Some v1) t = Ok (old, t1)
    /\ set key (Some v2) t1 = Ok (Some v1, t2)
    /\ returned (get key t2) = Ok (Some v2).
Proof. apply set_twice. Qed.

(** X5: [set] of a key to the value it is bound to leaves the tree as it
    is, node for node, and returns that value. *)
Theorem set_same_value_is_identity (t : art T) (key : list byte) (v : T) :
  wf_tree t = true -> binds t key v ->
  set key (Some v) t = Ok (Some v, t).
Proof.
  intros W B. unfold wf_tree in W. apply orb_true_iff in W.
  destruct W as [N|W]; [destruct t; try discriminate; destruct B|].
  destruct (wf_is_live _ W) as [n ->].
  unfold set, bind, load, root_slot, slot_load. cbn [is_null].
  apply set_loop_same; [exact W|unfold budget; simpl; lia|exact B].
Qed.

(** X6: [set]s of two different keys in either order leave trees with
    the same bindings, at which [get] returns the same for every key. *)
Theorem sets_of_two_keys_commute (t : art T) (k1 k2 : list byte)
        (v1 v2 : T) :
  wf_tree t = true -> k1 <> k2 ->
  exists ta tb,
    run [Set_ k1 v1; Set_ k2 v2] t = Ok ta
    /\ run [Set_ k2 v2; Set_ k1 v1] t = Ok tb
    /\ entries ta = entries tb
    /\ forall k, returned (get k ta) = returned (get k tb).
Proof.
  intros W Hk.
  destruct (set_updates t k1 v1 W) as [o1 [t1 [H1 [W1 U1]]]].
  destruct (set_updates t1 k2 v2 W1) as [o2 [ta [H2 [Wa Ua]]]].
  destruct (set_updates t k2 v2 W) as [o3 [t2 [H3 [W2 U2]]]].
  destruct (set_updates t2 k1 v1 W2) as [o4 [tb [H4 [Wb Ub]]]].
  exists ta, tb. cbn [run apply]. rewrite H1, H2, H3, H4.
  split; [reflexivity|]. split; [reflexivity|].
  assert (M : forall k x, In (k, x) (entries ta) <-> In (k, x) (entries tb)).
  { intros k x. rewrite (Ua k x), (Ub k x), (U1 k x), (U2 k x).
    destruct (list_eq_dec Byte.byte_eq_dec k k1) as [E1|N1];
      destruct (list_eq_dec Byte.byte_eq_dec k k2) as [E2|N2];
      [congruence| | |]; tauto. }
  split.
  - apply sorted_unique; try now apply tree_entries_sorted.
    intros [k x]. apply M.
  - intros k.
    destruct (get_binding ta k Wa) as [ra [Ha Hxa]].
    destruct (get_binding tb k Wb) as [rb [Hb Hxb]].
    rewrite Ha, Hb. simpl. f_equal.
    apply binding_unique with (fun x => binds tb k x); [|exact Hxb].
    intros x. rewrite Hxa. apply M.
Qed.

(** X7: where [set] returns, the tree it leaves has the nodes it had and
    at most two more: [set] deletes no node other than one it replaces by
    a grown copy. *)
Theorem set_adds_at_most_two_nodes (t t' : art T) (key : list byte)
        (v old : option T) :
  set key v t = Ok (old, t') ->
  size t <= size t' <= size t + 2.
Proof.
  unfold set, bind, load, root_slot, slot_load.
  destruct t as [| |n]; cbn [is_null].
  - intros H. injection H as <- <-. simpl. lia.
  - discriminate.
  - apply set_loop_size.
Qed.

(** X8: [set] with a null value handle.  On a key that is bound in a
    well-formed tree it returns the value, leaves the node in place with
    an empty value slot, and the key is bound no more while every other
    key is bound as before.  On the empty tree it makes a root without a
    value, which invariant 2 excludes: [get] of the key returns nothing,
    and [del] of the key, which is not bound, deletes the root and leaves
    its address in [root_]. *)
Theorem set_null_handle_unbinds (key : list byte) :
  (forall (t : art T) x,
      wf_tree t = true -> binds t key x ->
      exists t', set key None t = Ok (Some x, t')
                 /\ wf_tree t' = true
                 /\ returned (get key t') = Ok None
                 /\ forall k, k <> key ->
                              returned (get k t') = returned (get k t))
  /\ set key None (@empty T) = Ok (None, live (new_leaf key None))
  /\ get key (live (new_leaf key (@None T)))
     = Ok (None, live (new_leaf key None))
  /\ compressed (live (new_leaf key (@None T))) = false
  /\ del key (live (new_leaf key (@None T))) = Ok (None, dangling).
Proof.
  split; [|split; [reflexivity|split; [|split; [reflexivity|]]]].
  - intros t x W B. unfold wf_tree in W. apply orb_true_iff in W.
    destruct W as [N|W]; [destruct t; try discriminate; destruct B|].
    destruct (wf_is_live _ W) as [n ->].
    destruct (set_loop_null key x (budget key) 0 (live n) W)
      as [t' [Hs [W' U]]]; [unfold budget; simpl; lia|exact B|].
    assert (Wt : wf_tree t' = true)
      by (unfold wf_tree; rewrite W'; apply orb_true_r).
    assert (Wn : wf_tree (live n) = true) by exact W.
    exists t'. split; [exact Hs|]. split; [exact Wt|]. split.
    + destruct (get_binding t' key Wt) as [r [Hg Hx]]. rewrite Hg. simpl.
      f_equal. destruct r as [y|]; [|reflexivity].
      exfalso. assert (Hy : binds t' key y) by now apply Hx.
      apply U in Hy. now destruct Hy.
    + intros k Hk.
      destruct (get_binding t' k Wt) as [r1 [Hg1 Hx1]].
      destruct (get_binding (live n) k Wn) as [r2 [Hg2 Hx2]].
      rewrite Hg1, Hg2. simpl. f_equal.
      apply binding_unique with (fun y => binds (live n) k y); [|exact Hx2].
      intros y. rewrite Hx1. unfold binds. rewrite (U k y). tauto.
  - destruct (get_binding (live (new_leaf key (@None T))) key eq_refl)
      as [r [Hg Hx]].
    rewrite Hg. destruct r as [y|]; [|reflexivity].
    exfalso. assert (Hy : binds (live (new_leaf key (@None T))) key y)
      by now apply Hx.
    destruct Hy.
  - unfold del, bind, load, root_slot, slot_load. cbn [is_null].
    unfold budget.
    transitivity (del_here None [] None (new_leaf key (@None T))
                           (live (new_leaf key None))).
    + apply LoopFacts.del_exact; [lia|reflexivity].
    + now rewrite LoopFacts.del_here_leaf.
Qed.

End WithT.

Lemma set_lists_key_in_order_witness :
  let t := live (new_leaf (of_string "b") (Some 1)) in
  wf_tree t = true
  /\ exists old t', set (of_string "a") (Some 2) t = Ok (old, t')
                    /\ wf_tree t' = true
                    /\ entries t' = upsert (of_string "a") 2 (entries t).
Proof.
  split; [reflexivity|].
  apply (set_lists_key_in_order
           (live (new_leaf (of_string "b") (Some 1))) (of_string "a") 2).
  reflexivity.
Defined.

Lemma set_then_get_round_trip_witness :
  let t := live (new_leaf (of_string "b") (Some 1)) in
  wf_tree t = true
  /\ exists old t',
       set (of_string "a") (Some 2) t = Ok (old, t')
       /\ returned (get (of_string "a") t') = Ok (Some 2)
       /\ forall k, k <> of_string "a" ->
                    returned (get k t') = returned (get k t).
Proof.
  split; [reflexivity|].
  apply (set_then_get_round_trip
           (live (new_leaf (of_string "b") (Some 1))) (of_string "a") 2).
  reflexivity.
Defined.

Lemma second_set_returns_first_witness :
  let t := live (new_leaf (of_string "b") (Some 1)) in
  wf_tree t = true
  /\ exists old t1 t2,
       set (of_string "b") (Some 2) t = Ok (old, t1)
       /\ set (of_string "b") (Some 3) t1 = Ok (Some 2, t2)
       /\ returned (get (of_string "b") t2) = Ok (Some 3).
Proof.
  split; [reflexivity|].
  apply (second_set_returns_first
           (live (new_leaf (of_string "b") (Some 1))) (of_string "b") 2 3).
  reflexivity.
Defined.

Lemma set_same_value_is_identity_witness :
  let t := live (new_leaf (of_string "b") (Some 1)) in
  wf_tree t = true /\ binds t (of_string "b") 1
  /\ set (of_string "b") (Some 1) t = Ok (Some 1, t).
Proof.
  assert (B : binds (live (new_leaf (of_string "b") (Some 1)))
                    (of_string "b") 1) by (now left).
  split; [reflexivity|]. split; [exact B|].
  now apply (set_same_value_is_identity
               (live (new_leaf (of_string "b") (Some 1)))
               (of_string "b") 1).
Defined.

Lemma sets_of_two_keys_commute_witness :
  wf_tree (@empty nat) = true /\ of_string "a" <> of_string "ab"
  /\ exists ta tb,
       run [Set_ (of_string "a") 1; Set_ (of_string "ab") 2] empty = Ok ta
       /\ run [Set_ (of_string "ab") 2; Set_ (of_string "a") 1] empty
          = Ok tb
       /\ entries ta = entries tb
       /\ forall k, returned (get k ta) = returned (get k tb).
Proof.
  split; [reflexivity|]. split; [discriminate|].
  apply (sets_of_two_keys_commute (@empty nat) (of_string "a")
                                  (of_string "ab") 1 2);
    [reflexivity|discriminate].
Defined.

Lemma set_adds_at_most_two_nodes_witness :
  let t := live (new_leaf (of_string "ab") (Some 1)) in
  let t' := live (mk_node (of_string "a") None N4
                    [("b"%byte, live (new_leaf [] (Some 1)));
                     ("c"%byte, live (new_leaf [] (Some 2)))]) in
  set (of_string "ac") (Some 2) t = Ok (None, t')
  /\ size t <= size t' <= size t + 2.
Proof.
  split; [reflexivity|].
  apply (set_adds_at_most_two_nodes
           (live (new_leaf (of_string "ab") (Some 1)))
           (live (mk_node (of_string "a") None N4
                    [("b"%byte, live (new_leaf [] (Some 1)));
                     ("c"%byte, live (new_leaf [] (Some 2)))]))
           (of_string "ac") (Some 2) None).
  reflexivity.
Defined.

Lemma set_null_handle_unbinds_witness :
  let t := live (new_leaf (of_string "b") (Some 1)) in
  wf_tree t = true /\ binds t (of_string "b") 1
  /\ exists t', set (of_string "b") None t = Ok (Some 1, t')
                /\ wf_tree t' = true
                /\ returned (get (of_string "b") t') = Ok None
                /\ forall k, k <> of_string "b" ->
                             returned (get k t') = returned (get k t).
Proof.
  assert (B : binds (live (new_leaf (of_string "b") (Some 1)))
                    (of_string "b") 1) by (now left).
  split; [reflexivity|]. split; [exact B|].
  now apply (proj1 (set_null_handle_unbinds (of_string "b"))
                   (live (new_leaf (of_string "b") (Some 1))) 1).
Defined.

End SetProps.

Module DelProps.
Import Bytes Node Art Tree Reach Drop Samples.
Import TreeFacts LoopFacts GetFacts SetFacts DelFacts.
Import ReachFacts PathFacts ListingFacts DropFacts.

Section WithT.
Context {T : Type}.

(** X9: on a well-formed tree [del] returns, and what it returns is the
    value the key was bound to: no handle for a key that was not bound. *)
Theorem del_returns_the_binding (t : art T) (key : list byte) :
  wf_tree t = true ->
  exists old t', del key t = Ok (old, t')
                 /\ forall x, old = Some x <-> binds t key x.
Proof.
  intros W. unfold wf_tree in W. apply orb_true_iff in W.
  destruct W as [N|W].
  - destruct t; try discriminate. exists None, nullptr.
    split; [reflexivity|]. intros x. unfold binds. simpl.
    split; [discriminate|tauto].
  - destruct (del_loop_returns key (budget key) 0 None t W)
      as [r [t' H]]; [lia|unfold budget; simpl; lia|].
    assert (D : del key t = Ok (r, t')).
    { destruct (wf_is_live _ W) as [n ->]. exact H. }
    exists r, t'. split; [exact D|].
    apply (del_ordered t t' key r); [|exact D].
    unfold ordered_tree. rewrite (wf_ordered t W). apply orb_true_r.
Qed.

(** X10: [del] of a key that is bound in a well-formed tree and that a
    longer bound key starts with: the node of the key has children, so it
    stays, or its only child takes its place.  [del] returns the value and
    leaves a well-formed tree with the bindings of the other keys, in the
    same order; [get] of the key then returns nothing, and [get] of every
    other key what it returned before. *)
Theorem del_of_inner_key_unbinds (t : art T) (key : list byte) (v : T)
        (b : byte) (rest : list byte) (w : T) :
  wf_tree t = true ->
  binds t key v -> binds t (key ++ b :: rest) w ->
  exists t', del key t = Ok (Some v, t')
             /\ wf_tree t' = true
             /\ entries t' = without key (entries t)
             /\ returned (get key t') = Ok None
             /\ forall k, k <> key ->
                          returned (get k t') = returned (get k t).
Proof.
  intros W B Bw. pose proof W as Wt.
  unfold wf_tree in W. apply orb_true_iff in W.
  destruct W as [N|W]; [destruct t; try discriminate; destruct B|].
  destruct (del_loop_inner key b rest w (budget key) 0 None t W)
    as [r [t' [H W']]]; [lia|unfold budget; simpl; lia|exact Bw|].
  assert (D : del key t = Ok (r, t')).
  { destruct (wf_is_live _ W) as [n ->]. exact H. }
  destruct (del_ordered t t' key r) as [_ [U Hx]]; [|exact D|].
  { unfold ordered_tree. rewrite (wf_ordered t W). apply orb_true_r. }
  assert (r = Some v) as -> by now apply Hx.
  assert (Wt' : wf_tree t' = true)
    by (unfold wf_tree; rewrite W'; apply orb_true_r).
  exists t'. split; [exact D|]. split; [exact Wt'|]. split; [|split].
  - now apply removed_listing.
  - destruct (get_binding t' key Wt') as [r [Hg Hr]]. rewrite Hg. simpl.
    f_equal. destruct r as [y|]; [|reflexivity].
    exfalso. assert (Hy : binds t' key y) by now apply Hr.
    apply U in Hy. now destruct Hy.
  - intros k Hk.
    destruct (get_binding t' k Wt') as [r1 [Hg1 Hx1]].
    destruct (get_binding t k Wt) as [r2 [Hg2 Hx2]].
    rewrite Hg1, Hg2. simpl. f_equal.
    apply binding_unique with (fun y => binds t k y); [|exact Hx2].
    intros y. rewrite Hx1. unfold binds. rewrite (U k y). tauto.
Qed.

(** X11: [del] of a key that is bound in a well-formed tree in which
    value-less nodes have children, and that no longer bound key starts
    with: the node of the key is a leaf.  [del] returns the value, deletes
    the node and leaves its address in the slot that pointed to it: the
    [get], the [set] and the [del] of the key that follow read the deleted
    node, so that the key cannot be bound again, and so does the
    destructor, on its way to deleting the node a second time. *)
Theorem del_of_leaf_key_leaves_stale_pointer (t : art T) (key : list byte)
        (v : T) :
  wf_tree t = true -> compressed t = true ->
  binds t key v ->
  (forall b rest w, ~ binds t (key ++ b :: rest) w) ->
  exists t', del key t = Ok (Some v, t')
             /\ stale t' = true
             /\ get key t' = Fault UseAfterFree
             /\ (forall value, set key value t' = Fault UseAfterFree)
             /\ del key t' = Fault UseAfterFree
             /\ destructor t' = Fault UseAfterFree.
Proof.
  intros W C B N. unfold wf_tree in W. apply orb_true_iff in W.
  destruct W as [Z|W]; [destruct t; try discriminate; destruct B|].
  destruct (del_loop_leaf key v (budget key) 0 None t W C)
    as [t' [H [O [S [G [Hset Hdel]]]]]];
    [lia|unfold budget; simpl; lia|exact B|exact N|].
  exists t'. split; [|split; [exact S|split; [|split; [|split]]]].
  - destruct (wf_is_live _ W) as [n ->]. exact H.
  - unfold get, bind, load, lift, root_slot, slot_load. now rewrite G.
  - intros value. unfold set, bind, load, root_slot, slot_load.
    destruct t' as [| |n']; [discriminate|reflexivity|]. cbn [is_null].
    apply Hset.
  - unfold del, bind, load, root_slot, slot_load.
    destruct t' as [| |n']; [discriminate|reflexivity|]. cbn [is_null].
    apply Hdel.
  - apply destructor_stale; [|exact S].
    unfold ordered_tree. rewrite O. apply orb_true_r.
Qed.

(** X12: [set] of a key that is not bound and that a longer bound key
    starts with, then [del] of the key: [del] returns the value and leaves
    the tree that was there before the [set], node for node.  The node
    [set] put in, or the value it put into a node, is taken out again and
    the prefix that was split is put together. *)
Theorem del_undoes_set_of_inner_key (t : art T) (key : list byte) (v : T)
        (b : byte) (rest : list byte) (w : T) :
  wf_tree t = true -> compressed t = true ->
  (forall x, ~ binds t key x) -> binds t (key ++ b :: rest) w ->
  exists t1, set key (Some v) t = Ok (None, t1)
             /\ del key t1 = Ok (Some v, t).
Proof.
  intros W C N B. unfold wf_tree in W. apply orb_true_iff in W.
  destruct W as [Z|W]; [destruct t; try discriminate; destruct B|].
  destruct (set_del_loop key v b rest w (budget key) 0 None t W C)
    as [t1 [Hs Hd]]; [lia|unfold budget; simpl; lia|exact N|exact B|].
  destruct (wf_is_live _ W) as [n ->].
  exists t1. split; [exact Hs|].
  unfold del, bind, load, root_slot, slot_load.
  destruct t1 as [| |n1]; [| |exact Hd].
  - destruct (budget key); discriminate.
  - destruct (budget key); discriminate.
Qed.

(** X13: the prefix [del] gives to the only child of a node it merges the
    child into (lines 425-433): the three copies fill the new buffer with
    the prefix of the node, the partial key of the child and the prefix
    the child had, in this order and with no byte left over. *)
Theorem merge_prefix_is_concatenation (cur_prefix : list byte)
        (child_partial_key : byte) (old_prefix : list byte) :
  child_prefix cur_prefix child_partial_key old_prefix
  = Ok (cur_prefix ++ child_partial_key :: old_prefix).
Proof. apply child_prefix_concat. Qed.

End WithT.

Lemma del_returns_the_binding_witness :
  wf_tree tree_a_ab = true
  /\ exists old t', del (of_string "a") tree_a_ab = Ok (old, t')
                    /\ forall x, old = Some x
                                 <-> binds tree_a_ab (of_string "a") x.
Proof.
  split; [reflexivity|].
  apply (del_returns_the_binding tree_a_ab (of_string "a")). reflexivity.
Defined.

Lemma del_of_inner_key_unbinds_witness :
  wf_tree tree_a_ab = true
  /\ binds tree_a_ab (of_string "a") 1
  /\ binds tree_a_ab (of_string "a" ++ "b"%byte :: []) 2
  /\ exists t', del (of_string "a") tree_a_ab = Ok (Some 1, t')
                /\ wf_tree t' = true
                /\ entries t' = without (of_string "a") (entries tree_a_ab)
                /\ returned (get (of_string "a") t') = Ok None
                /\ forall k, k <> of_string "a" ->
                     returned (get k t') = returned (get k tree_a_ab).
Proof.
  assert (B1 : binds tree_a_ab (of_string "a") 1) by (now left).
  assert (B2 : binds tree_a_ab (of_string "a" ++ "b"%byte :: []) 2)
    by (right; now left).
  split; [reflexivity|]. split; [exact B1|]. split; [exact B2|].
  now apply (del_of_inner_key_unbinds tree_a_ab (of_string "a") 1
                                      "b"%byte [] 2).
Defined.

Lemma del_of_leaf_key_leaves_stale_pointer_witness :
  wf_tree tree_a_ab = true /\ compressed tree_a_ab = true
  /\ binds tree_a_ab (of_string "ab") 2
  /\ (forall b rest w, ~ binds tree_a_ab (of_string "ab" ++ b :: rest) w)
  /\ exists t', del (of_string "ab") tree_a_ab = Ok (Some 2, t')
                /\ stale t' = true
                /\ get (of_string "ab") t' = Fault UseAfterFree
                /\ (forall value,
                      set (of_string "ab") value t' = Fault UseAfterFree)
                /\ del (of_string "ab") t' = Fault UseAfterFree
                /\ destructor t' = Fault UseAfterFree.
Proof.
  assert (B : binds tree_a_ab (of_string "ab") 2) by (right; now left).
  assert (N : forall b rest w,
             ~ binds tree_a_ab (of_string "ab" ++ b :: rest) w).
  { intros b rest w [H|[H|[]]]; discriminate. }
  split; [reflexivity|]. split; [reflexivity|].
  split; [exact B|]. split; [exact N|].
  now apply (del_of_leaf_key_leaves_stale_pointer tree_a_ab
                                                  (of_string "ab") 2).
Defined.

Lemma del_undoes_set_of_inner_key_witness :
  wf_tree tree_ab = true /\ compressed tree_ab = true
  /\ (forall x, ~ binds tree_ab (of_string "a") x)
  /\ binds tree_ab (of_string "a" ++ "b"%byte :: []) 2
  /\ exists t1, set (of_string "a") (Some 1) tree_ab = Ok (None, t1)
                /\ del (of_string "a") t1 = Ok (Some 1, tree_ab).
Proof.
  assert (N : forall x, ~ binds tree_ab (of_string "a") x).
  { intros x [H|[]]. discriminate. }
  assert (B : binds tree_ab (of_string "a" ++ "b"%byte :: []) 2)
    by (now left).
  split; [reflexivity|]. split; [reflexivity|].
  split; [exact N|]. split; [exact B|].
  now apply (del_undoes_set_of_inner_key tree_ab (of_string "a") 1
                                         "b"%byte [] 2).
Defined.

End DelProps.

Module RunProps.
Import Bytes Node Art Tree Reach Drop.
Import TreeFacts LoopFacts GetFacts SetFacts DelFacts.
Import ReachFacts PathFacts ListingFacts ClassFacts DropFacts.

Section WithT.
Context {T : Type}.

(** X14: after every sequence of [set]s and [del]s from the empty tree
    that ran without a fault, [get] of a key returns the value of the last
    [set] of the key, and nothing if a [del] of the key came after it or
    if there was none, or it reads a node an earlier [del] has deleted: it
    never returns another value. *)
Theorem get_after_run_is_expected_or_faults (ops : list (op T))
        (t : art T) (key : list byte) :
  run ops empty = Ok t ->
  get key t = Ok (expected ops key None, t)
  \/ get key t = Fault UseAfterFree.
Proof.
  intros R.
  destruct (run_models ops empty t (fun _ => None) eq_refl models_empty R)
    as [O M].
  destruct (get_ordered t key O) as [[r [Hg Hx]]|Hf]; [left|now right].
  rewrite Hg. f_equal. f_equal.
  apply binding_unique with (fun x => binds t key x); [exact Hx|].
  intros x. symmetry. apply (M key x).
Qed.

(** X15: after every such sequence, a [set] or a [del] that returns
    returns the value of the last [set] of its key, and nothing if a [del]
    of the key came after it or if there was none. *)
Theorem mutation_after_run_returns_expected (ops : list (op T))
        (t : art T) :
  run ops empty = Ok t ->
  (forall key v old t',
      set key (Some v) t = Ok (old, t') -> old = expected ops key None)
  /\ (forall key old t',
         del key t = Ok (old, t') -> old = expected ops key None).
Proof.
  intros R.
  destruct (run_models ops empty t (fun _ => None) eq_refl models_empty R)
    as [O M].
  split.
  - intros key v old t' H.
    destruct (set_ordered t t' key v old O H) as [_ [_ Hx]].
    apply binding_unique with (fun x => binds t key x); [exact Hx|].
    intros x. symmetry. apply (M key x).
  - intros key old t' H.
    destruct (del_ordered t t' key old O H) as [_ [_ Hx]].
    apply binding_unique with (fun x => binds t key x); [exact Hx|].
    intros x. symmetry. apply (M key x).
Qed.

(** X16: a sequence of [set]s from the empty tree runs without a fault,
    and [get] of every key then returns the value of the last [set] of the
    key, and nothing if there was none. *)
Theorem get_after_sets_is_expected (ops : list (op T)) :
  forallb is_set ops = true ->
  exists t, run ops empty = Ok t
            /\ forall key, get key t = Ok (expected ops key None, t).
Proof.
  intros S. destruct (run_sets ops empty S eq_refl) as [t [R W]].
  exists t. split; [exact R|]. intros key.
  destruct (run_models ops empty t (fun _ => None) eq_refl models_empty R)
    as [_ M].
  destruct (get_binding t key W) as [r [Hg Hx]].
  rewrite Hg. f_equal. f_equal.
  apply binding_unique with (fun x => binds t key x); [exact Hx|].
  intros x. symmetry. apply (M key x).
Qed.

(** X17: the tree a sequence of [set]s from the empty tree leaves is well
    formed: every child slot holds a node and every child map is in
    ascending order of its partial keys; and it satisfies the compression
    invariant: no node with a parent has an empty value slot and fewer than
    two children. *)
Theorem sets_keep_the_invariants (ops : list (op T)) :
  forallb is_set ops = true ->
  exists t, run ops empty = Ok t
            /\ wf_tree t = true
            /\ stale t = false
            /\ compression_invariant t = true.
Proof.
  intros S. destruct (run_sets ops empty S eq_refl) as [t [R W]].
  exists t. split; [exact R|]. split; [exact W|].
  pose proof (run_compressed ops empty t eq_refl R) as C.
  unfold wf_tree in W. apply orb_true_iff in W.
  destruct W as [N|W]; [destruct t; try discriminate; now split|].
  split; [now apply wf_not_stale|now apply wf_compression].
Qed.

(** X18: in every tree a sequence of [set]s and [del]s from the empty
    tree leaves, every node is of the smallest size class that holds the
    entries of its child map: [set] grows a node only when it is full, and
    [del] takes no entry out of a child map. *)
Theorem size_class_stays_smallest (ops : list (op T)) (t : art T) :
  run ops empty = Ok t -> tight t = true.
Proof.
  intros R. apply (run_tight ops empty t); [|exact R].
  reflexivity.
Qed.

(** X23: where a sequence of [set]s and [del]s from the empty tree has
    run without a fault and has left no address of a deleted node in the
    tree, the tree is well formed and [get] of every key returns the value
    of the last [set] of the key, and nothing if a [del] of the key came
    after it or if there was none: what goes wrong after a [del] goes
    wrong through such an address. *)
Theorem run_without_stale_pointer_is_right (ops : list (op T))
        (t : art T) :
  run ops empty = Ok t -> stale t = false ->
  wf_tree t = true
  /\ forall key, get key t = Ok (expected ops key None, t).
Proof.
  intros R S.
  destruct (run_models ops empty t (fun _ => None) eq_refl models_empty R)
    as [O M].
  assert (W : wf_tree t = true).
  { unfold ordered_tree in O. apply orb_true_iff in O. unfold wf_tree.
    destruct O as [N|O]; [now rewrite N|].
    rewrite (ordered_wf t O S). apply orb_true_r. }
  split; [exact W|]. intros key.
  destruct (get_binding t key W) as [r [Hg Hx]].
  rewrite Hg. f_equal. f_equal.
  apply binding_unique with (fun x => binds t key x); [exact Hx|].
  intros x. symmetry. apply (M key x).
Qed.

(** X24: the loops of [get], [set] and [del] end: on every tree, well
    formed or not, each of them returns or faults within as many turns as
    the key has bytes and one more, the budget the loops are given here,
    so that no operation ever stops for want of it. *)
Theorem loops_end_within_key_length (t : art T) (key : list byte)
        (v : option T) :
  budget key = S (List.length key)
  /\ get key t <> Fault OutOfFuel
  /\ set key v t <> Fault OutOfFuel
  /\ del key t <> Fault OutOfFuel.
Proof.
  split; [reflexivity|]. apply FuelFacts.budget_suffices.
Qed.

End WithT.

Lemma get_after_run_is_expected_or_faults_witness :
  run Examples.ops_leaf empty
  = Ok (live (mk_node (of_string "a") (Some 1) N4 [("b"%byte, dangling)]))
  /\ get (of_string "a")
         (live (mk_node (of_string "a") (Some 1) N4 [("b"%byte, dangling)]))
     = Ok (expected Examples.ops_leaf (of_string "a") None,
           live (mk_node (of_string "a") (Some 1) N4 [("b"%byte, dangling)]))
  /\ get (of_string "ab")
         (live (mk_node (of_string "a") (Some 1) N4 [("b"%byte, dangling)]))
     = Fault UseAfterFree.
Proof.
  split; [reflexivity|].
  pose proof (get_after_run_is_expected_or_faults
                Examples.ops_leaf
                (live (mk_node (of_string "a") (Some 1) N4
                         [("b"%byte, dangling)]))
                (of_string "a") eq_refl) as H.
  split; [|reflexivity].
  destruct H as [H|H]; [exact H|discriminate H].
Defined.

Lemma mutation_after_run_returns_expected_witness :
  run Examples.ops_seek empty = Ok Examples.tree_seek
  /\ (forall key v old t',
         set key (Some v) Examples.tree_seek = Ok (old, t') ->
         old = expected Examples.ops_seek key None)
  /\ (forall key old t',
         del key Examples.tree_seek = Ok (old, t') ->
         old = expected Examples.ops_seek key None).
Proof.
  split; [reflexivity|].
  apply (mutation_after_run_returns_expected Examples.ops_seek
                                             Examples.tree_seek).
  reflexivity.
Defined.

Lemma get_after_sets_is_expected_witness :
  forallb is_set Examples.ops_seek = true
  /\ exists t, run Examples.ops_seek empty = Ok t
               /\ forall key,
                    get key t = Ok (expected Examples.ops_seek key None, t).
Proof.
  split; [reflexivity|].
  apply (get_after_sets_is_expected Examples.ops_seek). reflexivity.
Defined.

Lemma sets_keep_the_invariants_witness :
  forallb is_set Examples.ops_seek = true
  /\ exists t, run Examples.ops_seek empty = Ok t
               /\ wf_tree t = true
               /\ stale t = false
               /\ compression_invariant t = true.
Proof.
  split; [reflexivity|].
  apply (sets_keep_the_invariants Examples.ops_seek). reflexivity.
Defined.

Lemma run_without_stale_pointer_is_right_witness :
  let ops := [Set_ (of_string "a") 1; Set_ (of_string "ab") 2;
              Del_ (of_string "a")] in
  run ops empty = Ok Samples.tree_ab
  /\ stale Samples.tree_ab = false
  /\ wf_tree Samples.tree_ab = true
  /\ forall key,
       get key Samples.tree_ab = Ok (expected ops key None, Samples.tree_ab).
Proof.
  split; [reflexivity|]. split; [reflexivity|].
  apply (run_without_stale_pointer_is_right
           [Set_ (of_string "a") 1; Set_ (of_string "ab") 2;
            Del_ (of_string "a")] Samples.tree_ab);
    reflexivity.
Defined.

Lemma size_class_stays_smallest_witness :
  run Examples.ops_single_child empty
  = Ok (live (mk_node (of_string "a") (Some 1) N4
                [("b"%byte,
                  live (mk_node [] None N4
                          [("c"%byte, dangling);
                           ("d"%byte, live (new_leaf [] (Some 3)))]))]))
  /\ tight (live (mk_node (of_string "a") (Some 1) N4
                    [("b"%byte,
                      live (mk_node [] None N4
                              [("c"%byte, @dangling nat);
                               ("d"%byte, live (new_leaf [] (Some 3)))]))]))
     = true.
Proof.
  split; [reflexivity|].
  apply (size_class_stays_smallest Examples.ops_single_child). reflexivity.
Defined.

End RunProps.

Module DropProps.
Import Bytes Node Art Tree Reach Drop.
Import TreeFacts ReachFacts DropFacts.

Section WithT.
Context {T : Type}.

(** X19: the destructor on a well-formed tree returns, and it has deleted
    every node of the tree once: the nodes in the order of their deletion,
    a node before its children and the children from the last to the
    first, are the nodes of the tree.  On the empty tree it deletes
    nothing. *)
Theorem destructor_deletes_every_node_once (t : art T) :
  wf_tree t = true ->
  destructor t = Ok (drop_order t)
  /\ Permutation (drop_order t) (all_nodes t)
  /\ List.length (drop_order t) = size t.
Proof.
  intros W. split; [now apply destructor_wf|].
  split; [apply drop_order_all|].
  rewrite (Permutation_length (drop_order_all t)). clear W.
  induction t as [| |n IH] using ptr_nested_ind; try reflexivity.
  cbn [all_nodes size List.length]. f_equal.
  induction (children_ n) as [|[k c] ch IHch]; [reflexivity|].
  inversion IH as [|? ? Hc Hch]; subst. specialize (IHch Hch).
  cbn [snd] in Hc. simpl. rewrite length_app, Hc, IHch. reflexivity.
Qed.

(** X20: the destructor on a tree that a sequence of [set]s and [del]s
    from the empty tree has left.  Where no [del] has left the address of
    a deleted leaf in the tree, it deletes every node once; where one has,
    it comes to that address and reads the deleted leaf, on its way to
    deleting it a second time. *)
Theorem destructor_after_run (ops : list (op T)) (t : art T) :
  run ops empty = Ok t ->
  (stale t = false ->
   destructor t = Ok (drop_order t)
   /\ Permutation (drop_order t) (all_nodes t))
  /\ (stale t = true -> destructor t = Fault UseAfterFree).
Proof.
  intros R.
  destruct (run_models ops empty t (fun _ => None) eq_refl models_empty R)
    as [O _].
  split.
  - intros S. split; [|apply drop_order_all]. apply destructor_wf.
    unfold ordered_tree in O. apply orb_true_iff in O. unfold wf_tree.
    destruct O as [N|O]; [now rewrite N|].
    rewrite (ordered_wf t O S). apply orb_true_r.
  - intros S. now apply destructor_stale.
Qed.

End WithT.

Lemma destructor_deletes_every_node_once_witness :
  wf_tree Examples.tree_seek = true
  /\ destructor Examples.tree_seek = Ok (drop_order Examples.tree_seek)
  /\ Permutation (drop_order Examples.tree_seek)
                 (all_nodes Examples.tree_seek)
  /\ List.length (drop_order Examples.tree_seek) = size Examples.tree_seek.
Proof.
  split; [reflexivity|].
  apply (destructor_deletes_every_node_once Examples.tree_seek).
  reflexivity.
Defined.

Lemma destructor_after_run_witness :
  run [Set_ (of_string "a") 1; Del_ (of_string "a")] empty = Ok dangling
  /\ stale (@dangling nat) = true
  /\ destructor (@dangling nat) = Fault UseAfterFree.
Proof.
  split; [reflexivity|]. split; [reflexivity|].
  apply (proj2 (destructor_after_run
                  [Set_ (of_string "a") 1; Del_ (of_string "a")]
                  dangling eq_refl)).
  reflexivity.
Defined.

End DropProps.

Module ItProps.
Import Bytes Node Art Tree TreeIt.
Import GetFacts SetFacts ItFacts MoreFacts.

Section WithT.
Context {T : Type}.

(** X22: the iterator of [begin()] on a well-formed tree, with the
    iterator modelled from section 4.5 of the specification: it and its
    advances yield the bindings of the tree, all of them and each once, in
    strictly ascending lexicographic order of their keys, and nothing once
    they are used up; [get] of a key it yields returns the value it
    yields with the key; on a tree without bindings it is [end()]. *)
Theorem begin_yields_every_binding (t : art T) :
  wf_tree t = true ->
  StronglySorted key_lt (entries t)
  /\ (forall i,
        deref (Nat.iter i advance (ArtIt.begin t)) = nth_error (entries t) i)
  /\ (forall i k v,
        deref (Nat.iter i advance (ArtIt.begin t)) = Some (k, v) ->
        returned (get k t) = Ok (Some v))
  /\ (entries t = [] -> ArtIt.begin t = ArtIt.end_).
Proof.
  intros W. destruct (remaining_min t W) as [R Wit].
  assert (D : forall i, deref (Nat.iter i advance (ArtIt.begin t))
                        = nth_error (entries t) i).
  { intros i. unfold ArtIt.begin.
    destruct (remaining_iter (min t) i Wit) as [Ri _].
    now rewrite deref_remaining, Ri, R, hd_skipn. }
  split; [now apply tree_entries_sorted|]. split; [exact D|]. split.
  - intros i k v H. rewrite D in H. apply nth_error_In in H.
    destruct (get_binding t k W) as [r [Hg Hx]]. rewrite Hg. simpl.
    f_equal. now apply Hx.
  - intros E. unfold ArtIt.begin, ArtIt.end_. rewrite E in R.
    destruct Wit as [_ He]. unfold remaining in R.
    destruct (min t) as [[e|] st]; [discriminate|].
    simpl in He. now rewrite (He eq_refl).
Qed.

End WithT.

Lemma begin_yields_every_binding_witness :
  wf_tree Examples.tree_seek = true
  /\ StronglySorted key_lt (entries Examples.tree_seek)
  /\ (forall i,
        deref (Nat.iter i advance (ArtIt.begin Examples.tree_seek))
        = nth_error (entries Examples.tree_seek) i)
  /\ (forall i k v,
        deref (Nat.iter i advance (ArtIt.begin Examples.tree_seek))
        = Some (k, v) ->
        returned (get k Examples.tree_seek) = Ok (Some v))
  /\ (entries Examples.tree_seek = [] ->
      ArtIt.begin Examples.tree_seek = ArtIt.end_).
Proof.
  split; [reflexivity|].
  apply (begin_yields_every_binding Examples.tree_seek). reflexivity.
Defined.

End ItProps.

(* ================================================================== *)
(** * The address of a deleted node stays in the tree *)
(* ================================================================== *)

Module StaleFacts.
Import Bytes Node Art Tree Reach Drop.
Import BytesFacts PrefixFacts SlotFacts LoopFacts TreeFacts.
Import GetFacts SetFacts DelFacts ReachFacts PathFacts DropFacts.

Section WithT.
Context {T : Type}.
Implicit Types (n : node T) (ch : list (byte * ptr T)).

Lemma stale_live n :
  stale (live n) = true <->
  exists k (c : ptr T), In (k, c) (children_ n) /\ stale c = true.
Proof.
  cbn [stale]. rewrite existsb_exists. split.
  - intros [[k c] [Hin S]]. now exists k, c.
  - intros [k [c [Hin S]]]. now exists (k, c).
Qed.

(** A write through a child slot leaves the other children in place. *)
Lemma in_replace_other ch b c c' k (d : ptr T) :
  assoc ch b = Some c -> In (k, d) ch ->
  d = c \/ In (k, d) (replace ch b c').
Proof.
  induction ch as [|[k1 d1] ch IH]; [discriminate|].
  cbn [assoc replace]. destruct (Byte.eqb k1 b).
  - intros H [Heq|Hin].
    + left. inversion Heq; subst. congruence.
    + right. now right.
  - intros H [Heq|Hin].
    + right. now left.
    + destruct (IH H Hin) as [->|Hin']; [now left|right; now right].
Qed.

Lemma in_replace_new ch b c c' :
  assoc ch b = Some c -> In (b, c') (replace ch b c').
Proof.
  induction ch as [|[k1 d1] ch IH]; [discriminate|].
  cbn [assoc replace]. destruct (Byte.eqb k1 b) eqn:E.
  - intros _. apply eqb_eq in E. subst k1. now left.
  - intros H. right. now apply IH.
Qed.

Lemma stale_put_child n b c c' :
  find_child n b = Some c ->
  stale (live n) = true -> (stale c = true -> stale c' = true) ->
  stale (live (put_child n b c')) = true.
Proof.
  intros Hc S Hs. apply stale_live in S. destruct S as [k [d [Hin Sd]]].
  apply stale_live. cbn [put_child with_children children_].
  destruct (in_replace_other _ b c c' k d Hc Hin) as [->|Hin'].
  - exists b, c'. split; [now apply in_replace_new with c|now apply Hs].
  - now exists k, d.
Qed.

(** [set] takes no address of a deleted node out of the tree. *)
Lemma set_loop_stale key v : forall fuel depth (p p' : ptr T) r,
  stale p = true ->
  set_loop fuel key v [] depth p = Ok (r, p') ->
  stale p' = true.
Proof.
  induction fuel as [|fuel IH]; intros depth p p' r S H; [discriminate|].
  destruct p as [| |n]; try discriminate.
  destruct (classify (prefix_ n) (skipn depth key))
    as [E|b pt E|c a pt b k' E1 E2 Hab|b k' E].
  - symmetry in E. rewrite (set_exact fuel key v depth n E) in H.
    injection H as <- <-. exact S.
  - rewrite (set_shorter fuel key v depth n b pt E) in H.
    injection H as <- <-. apply stale_live.
    exists b, (live (with_prefix n pt)). split; [now left|exact S].
  - rewrite (set_diverge fuel key v depth n c a pt b k' E1 E2 Hab) in H.
    injection H as <- <-. apply stale_live.
    exists a, (live (with_prefix n pt)). split; [|exact S].
    cbn [set_child with_children children_ with_prefix node_4].
    apply in_insert. right. now left.
  - destruct (find_child n b) as [c|] eqn:Hc.
    + rewrite (set_descend fuel key v depth n b k' c E Hc) in H.
      destruct (set_loop fuel key v [] (depth + (prefix_len_ n + 1)) c)
        as [[a c']|e] eqn:Hs; [|discriminate].
      injection H as <- <-.
      apply stale_put_child with c; [exact Hc|exact S|].
      intros Sc. exact (IH _ _ _ _ Sc Hs).
    + rewrite (set_new_leaf fuel key v depth n b k' E Hc) in H.
      match type of H with
      | context [and_then ?x _] => destruct x as [n'|] eqn:G
      end; [|discriminate].
      apply grow_same in G. destruct G as [P [V Ch]]. simpl in H.
      injection H as <- <-.
      apply stale_live in S. destruct S as [k [d [Hin Sd]]].
      apply stale_live. exists k, d. split; [|exact Sd].
      cbn [set_child with_children children_]. rewrite Ch.
      apply in_insert. now right.
Qed.

(** Nor does [del]. *)
Lemma del_loop_stale key : forall fuel depth cpk (p p' : ptr T) r,
  depth <= List.length key ->
  stale p = true ->
  del_loop fuel key None (Some []) cpk depth p = Ok (r, p') ->
  stale p' = true.
Proof.
  induction fuel as [|fuel IH]; intros depth cpk p p' r D S H;
    [discriminate|].
  destruct p as [| |n]; try discriminate.
  destruct (classify (prefix_ n) (skipn depth key))
    as [E|b pt E|c a pt b k' E1 E2 Hab|b k' E].
  - symmetry in E. rewrite (del_exact fuel key cpk depth n D E) in H.
    destruct (children_ n) as [|[k c] [|kc2 ch]] eqn:Ch.
    + rewrite (del_here_leaf cpk n Ch) in H. now injection H as <- <-.
    + rewrite (del_here_one cpk n k c Ch) in H.
      destruct c as [| |cn]; try discriminate. simpl in H.
      injection H as <- <-.
      apply stale_live in S. destruct S as [k0 [d [Hin Sd]]].
      rewrite Ch in Hin. destruct Hin as [Heq|[]].
      injection Heq as <- <-. exact Sd.
    + rewrite (del_here_many cpk n) in H
        by (unfold n_children; rewrite Ch; simpl; lia).
      injection H as <- <-. exact S.
  - rewrite (del_shorter fuel key cpk depth n b pt E) in H.
    now injection H as <- <-.
  - rewrite (del_diverge fuel key cpk depth n c a pt b k' E1 E2 Hab) in H.
    now injection H as <- <-.
  - destruct (find_child n b) as [c|] eqn:Hc.
    + rewrite (del_descend fuel key cpk depth n b k' c E Hc) in H.
      destruct (del_loop fuel key None (Some []) (Some b)
                         (depth + (prefix_len_ n + 1)) c)
        as [[a c']|e] eqn:Hs; [|discriminate].
      injection H as <- <-.
      apply stale_put_child with c; [exact Hc|exact S|].
      intros Sc.
      apply (IH (depth + (prefix_len_ n + 1)) (Some b) c c' a);
        [|exact Sc|exact Hs].
      now apply depth_below with b k'.
    + rewrite (del_no_child fuel key cpk depth n b k' E Hc) in H.
      now injection H as <- <-.
Qed.

Lemma run_stale (ops : list (op T)) : forall t0 t,
  stale t0 = true -> run ops t0 = Ok t -> stale t = true.
Proof.
  induction ops as [|o ops IH]; intros t0 t S H.
  - simpl in H. now injection H as <-.
  - cbn [run] in H. destruct (apply o t0) as [[r t1]|e] eqn:A;
      [|discriminate].
    apply (IH t1 t); [|exact H]. clear IH H.
    destruct o as [key v|key]; cbn [apply] in A.
    + unfold set, bind, load, root_slot, slot_load in A.
      destruct t0 as [| |n]; cbn [is_null] in A; try discriminate.
      now apply (set_loop_stale key (Some v) (budget key) 0 (live n) t1 r).
    + unfold del, bind, load, root_slot, slot_load in A.
      destruct t0 as [| |n]; cbn [is_null] in A; try discriminate.
      apply (del_loop_stale key (budget key) 0 None (live n) t1 r);
        [lia|exact S|exact A].
Qed.

Lemma run_app (ops1 ops2 : list (op T)) : forall t0 t1,
  run ops1 t0 = Ok t1 -> run (ops1 ++ ops2) t0 = run ops2 t1.
Proof.
  induction ops1 as [|o ops1 IH]; intros t0 t1 H.
  - simpl in H. now injection H as <-.
  - cbn [run app] in *. destruct (apply o t0) as [[r t']|e];
      [|discriminate].
    now apply IH.
Qed.

End WithT.
End StaleFacts.

Module StaleProps.
Import Bytes Node Art Tree Reach Drop.
Import ReachFacts DropFacts StaleFacts.

Section WithT.
Context {T : Type}.

(** X25: the address of a deleted node stays in the tree.  Neither [set]
    nor [del] takes it out: once a sequence of [set]s and [del]s from the
    empty tree has left one, every sequence that goes on from there
    without a fault leaves one, and the destructor reads the deleted
    node. *)
Theorem stale_pointer_is_never_removed (ops1 ops2 : list (op T))
        (t1 t2 : art T) :
  run ops1 empty = Ok t1 -> stale t1 = true ->
  run ops2 t1 = Ok t2 ->
  stale t2 = true /\ destructor t2 = Fault UseAfterFree.
Proof.
  intros R1 S1 R2.
  pose proof (run_stale ops2 t1 t2 S1 R2) as S2.
  split; [exact S2|].
  apply destructor_stale; [|exact S2].
  assert (R : run (ops1 ++ ops2) empty = Ok t2)
    by now rewrite (run_app ops1 ops2 empty t1 R1).
  now destruct (run_models (ops1 ++ ops2) empty t2 (fun _ => None) eq_refl
                           models_empty R).
Qed.

End WithT.

Lemma stale_pointer_is_never_removed_witness :
  let t1 := live (mk_node (of_string "a") (Some 1) N4
                    [("b"%byte, @dangling nat)]) in
  let t2 := live (mk_node (of_string "a") (Some 1) N4
                    [("b"%byte, dangling);
                     ("c"%byte, live (new_leaf [] (Some 3)))]) in
  run Examples.ops_leaf empty = Ok t1 /\ stale t1 = true
  /\ run [Set_ (of_string "ac") 3] t1 = Ok t2
  /\ stale t2 = true /\ destructor t2 = Fault UseAfterFree.
Proof.
  split; [reflexivity|]. split; [reflexivity|]. split; [reflexivity|].
  apply (stale_pointer_is_never_removed
           Examples.ops_leaf [Set_ (of_string "ac") 3]
           (live (mk_node (of_string "a") (Some 1) N4
                    [("b"%byte, @dangling nat)]))
           (live (mk_node (of_string "a") (Some 1) N4
                    [("b"%byte, dangling);
                     ("c"%byte, live (new_leaf [] (Some 3)))])));
    reflexivity.
Defined.

End StaleProps.
